(** * swim.today: the condition-scoring engine

    A shallow embedding of [lib/constants.py] (threshold tables, weather-code
    dictionaries, the safety-factor set) and [lib/swim_score.py]
    ([_classify], [evaluate_conditions], [_compute_verdict],
    [_generate_summary], [_factor_name] and the bar helpers), followed by the
    properties of the scoring engine.

    Measurements are finite Python numbers (ints and finite floats).  Both
    embed exactly into the rationals, and Python compares an int with a float
    by exact value, so a measurement is a [Q] and [<], [>=] are the rational
    orders.  A float literal of the source denotes a binary64 value; its
    exact rational value is obtained with [py_float].

    An int has no bound, a float has: arithmetic that turns an int into a
    float raises [OverflowError] when the int is too large.  A failed run is
    [None]. *)

From Stdlib Require Import QArith Qminmax Qabs Ascii String Sorted PrimFloat SpecFloat FloatOps.
From stdpp Require Import gmap strings list fin_maps.

Set Warnings "-inexact-float,-clear-no-such-hyp".

(** ** Python numbers *)

Module PyNum.

(** Exact value of a finite binary64 number; zeros give [0]. *)
Definition Qof_spec (f : spec_float) : Q :=
  match f with
  | S754_finite s m e =>
      let n := if s then Z.neg m else Z.pos m in
      match e with
      | Z0 => n # 1
      | Z.pos p => (n * 2 ^ Z.pos p) # 1
      | Z.neg p => n # (2 ^ p)
      end
  | _ => 0
  end.

Definition py_float (f : float) : Q := Qred (Qof_spec (Prim2SF f)).

(** [x < y] *)
Definition Qltb (x y : Q) : bool :=
  match (x ?= y)%Q with Lt => true | _ => false end.

(** [x >= y] *)
Definition Qgeb (x y : Q) : bool := negb (Qltb x y).

(** [x > y] *)
Definition Qgtb (x y : Q) : bool := Qltb y x.

(** [int(x)]: truncation towards zero. *)
Definition py_int (x : Q) : Z := Z.quot (Qnum x) (Z.pos (Qden x)).

(** Truthiness of a number: [x or 0] keeps [x] unless it is zero. *)
Definition Qtruthy (x : Q) : bool := negb (Qeq_bool x 0).

(** *** Ints and floats

    The least magnitude that no float has: the largest float is
    [2^1024 - 2^971], and an int converts to the nearest float unless its
    magnitude is at least [2^1024 - 2^970]. *)
Definition FLOAT_LIMIT : Q := inject_Z (2 ^ 1024 - 2 ^ 970).

(** [float(n)] succeeds on the int [n]; every float fits. *)
Definition fits_float (x : Q) : bool := Qltb (Qabs x) FLOAT_LIMIT.

(** A number with its kind.  The value of a float result is kept exact; the
    source has its binary64 rounding, which raises nothing and leaves the
    sign as it is. *)
Inductive Num := PyInt (x : Q) | PyFloat (x : Q).
#[global] Arguments PyInt x%_Q.
#[global] Arguments PyFloat x%_Q.

Definition val (n : Num) : Q :=
  match n with PyInt x | PyFloat x => x end.

(** The kind of a measurement, where it matters: a number that does not fit
    is an int, as every float fits; a number that fits is taken as a float,
    since an int that fits and the float of the same value raise no error
    in the same places. *)
Definition num_of (x : Q) : Num :=
  if fits_float x then PyFloat x else PyInt x.

(** The float of an operand; [None] is [OverflowError]. *)
Definition to_float (n : Num) : option Q :=
  match n with
  | PyFloat x => Some x
  | PyInt x => if fits_float x then Some x else None
  end.

(** [a - b]: exact on two ints, otherwise on the floats of [a] and [b]. *)
Definition py_sub (a b : Num) : option Num :=
  match a, b with
  | PyInt x, PyInt y => Some (PyInt (x - y))
  | _, _ => x ← to_float a; y ← to_float b; Some (PyFloat (x - y))
  end.

(** [a / b] for [b] other than zero: two ints give the float nearest to the
    quotient, and [OverflowError] when there is none. *)
Definition py_truediv (a b : Num) : option Num :=
  match a, b with
  | PyInt x, PyInt y =>
      if fits_float (x / y) then Some (PyFloat (x / y)) else None
  | _, _ => x ← to_float a; y ← to_float b; Some (PyFloat (x / y))
  end.

Lemma Qltb_lt (x y : Q) : Qltb x y = true ↔ (x < y)%Q.
Proof.
  unfold Qltb. rewrite Qlt_alt.
  destruct (x ?= y)%Q; split; congruence.
Qed.

Lemma Qltb_ge (x y : Q) : Qltb x y = false ↔ (y <= x)%Q.
Proof.
  rewrite <- not_true_iff_false, Qltb_lt. split.
  - apply Qnot_lt_le.
  - apply Qle_not_lt.
Qed.

Lemma Qltb_irrefl (x : Q) : Qltb x x = false.
Proof. apply Qltb_ge, Qle_refl. Qed.

End PyNum.
Import PyNum.

(** ** lib/constants.py *)

Module Constants.

Inductive Verdict := YES | MAYBE | NO.

#[global] Instance Verdict_eq_dec : EqDecision Verdict.
Proof. solve_decision. Defined.

(** An upper bound of a threshold table: an int or a float literal, or
    [float("inf")]. *)
Inductive Bound := Fin (n : Num) | Inf.

(** One [(upper_bound, label, verdict)] entry. *)
Abbreviation Threshold := (Bound * string * option Verdict)%type.

Definition t_bound (t : Threshold) : Bound := t.1.1.
Definition t_label (t : Threshold) : string := t.1.2.
Definition t_verdict (t : Threshold) : option Verdict := t.2.

Definition WATER_TEMP_LABELS : list Threshold :=
  [ (Fin (PyInt 10), "Freezing", None);
    (Fin (PyInt 15), "Very Cold", None);
    (Fin (PyInt 18), "Cold", None);
    (Fin (PyInt 20), "Cool", None);
    (Fin (PyInt 24), "Mild", None);
    (Fin (PyInt 27), "Comfortable", None);
    (Fin (PyInt 30), "Warm", None);
    (Fin (PyInt 35), "Very Warm", None);
    (Inf, "Hot", None) ].

Definition WAVE_HEIGHT_LABELS : list Threshold :=
  [ (Fin (PyFloat (py_float 0.3)), "Glassy", Some YES);
    (Fin (PyFloat (py_float 0.6)), "Calm", Some YES);
    (Fin (PyFloat (py_float 1.0)), "Slight", Some YES);
    (Fin (PyFloat (py_float 1.5)), "Moderate", Some MAYBE);
    (Fin (PyFloat (py_float 2.0)), "Rough", Some MAYBE);
    (Fin (PyFloat (py_float 3.0)), "Very Rough", Some NO);
    (Inf, "Dangerous", Some NO) ].

Definition WIND_SPEED_LABELS : list Threshold :=
  [ (Fin (PyInt 10), "Calm", Some YES);
    (Fin (PyInt 20), "Light Breeze", Some YES);
    (Fin (PyInt 30), "Moderate", Some MAYBE);
    (Fin (PyInt 40), "Strong", Some MAYBE);
    (Fin (PyInt 50), "Very Strong", Some NO);
    (Inf, "Extreme", Some NO) ].

Definition UV_INDEX_LABELS : list Threshold :=
  [ (Fin (PyInt 2), "Low", None);
    (Fin (PyInt 5), "Moderate", None);
    (Fin (PyInt 7), "High", None);
    (Fin (PyInt 10), "Very High", None);
    (Inf, "Extreme", None) ].

Definition PRECIP_LABELS : list Threshold :=
  [ (Fin (PyFloat (py_float 0.1)), "None", Some YES);
    (Fin (PyFloat (py_float 2.0)), "Light Rain", Some YES);
    (Fin (PyFloat (py_float 5.0)), "Moderate Rain", Some MAYBE);
    (Fin (PyFloat (py_float 10.0)), "Heavy Rain", Some NO);
    (Inf, "Torrential", Some NO) ].

Definition DANGEROUS_WEATHER_CODES : gmap Z string :=
  list_to_map
    [ (95, "Thunderstorm");
      (96, "Thunderstorm with hail");
      (99, "Thunderstorm with heavy hail") ]%Z.

Definition WARNING_WEATHER_CODES : gmap Z string :=
  list_to_map
    [ (51, "Light drizzle");
      (53, "Moderate drizzle");
      (55, "Dense drizzle");
      (61, "Slight rain");
      (63, "Moderate rain");
      (65, "Heavy rain");
      (66, "Freezing rain");
      (67, "Heavy freezing rain");
      (71, "Slight snow");
      (73, "Moderate snow");
      (75, "Heavy snow");
      (77, "Snow grains");
      (80, "Slight rain showers");
      (81, "Moderate rain showers");
      (82, "Violent rain showers");
      (85, "Slight snow showers");
      (86, "Heavy snow showers") ]%Z.

Definition WMO_WEATHER_DESCRIPTIONS : gmap Z string :=
  list_to_map
    [ (0, "Clear sky");
      (1, "Mainly clear");
      (2, "Partly cloudy");
      (3, "Overcast");
      (45, "Foggy");
      (48, "Depositing rime fog");
      (51, "Light drizzle");
      (53, "Moderate drizzle");
      (55, "Dense drizzle");
      (56, "Light freezing drizzle");
      (57, "Dense freezing drizzle");
      (61, "Slight rain");
      (63, "Moderate rain");
      (65, "Heavy rain");
      (66, "Light freezing rain");
      (67, "Heavy freezing rain");
      (71, "Slight snow fall");
      (73, "Moderate snow fall");
      (75, "Heavy snow fall");
      (77, "Snow grains");
      (80, "Slight rain showers");
      (81, "Moderate rain showers");
      (82, "Violent rain showers");
      (85, "Slight snow showers");
      (86, "Heavy snow showers");
      (95, "Thunderstorm");
      (96, "Thunderstorm with slight hail");
      (99, "Thunderstorm with heavy hail") ]%Z.

(** The set of factor keys that drive the verdict. *)
Definition SAFETY_FACTORS : gset string :=
  {[ "wave_height"; "wind_speed"; "precipitation"; "weather_code" ]}.

End Constants.
Import Constants.

(** ** lib/swim_score.py *)

Module SwimScore.

(** [min(1.0, max(0.0, (value - prev_bound) / bucket_range))
    if bucket_range > 0 else 0]: the ratio is the clamped exact quotient,
    which the source computes in binary64 arithmetic, with its rounding;
    [None] is the [OverflowError] of the subtraction or of the division. *)
Definition bucket_ratio (value : Q) (prev_bound bucket_range : Num)
  : option Q :=
  if Qgtb (val bucket_range) 0 then
    difference ← py_sub (num_of value) prev_bound;
    quotient ← py_truediv difference bucket_range;
    Some (Qmin 1 (Qmax 0 (val quotient)))
  else Some 0%Q.

(** The [for] loop of [_classify] on a present value.  The result is [None]
    when the loop ran to its end, and otherwise what the first entry with
    [value < upper] does: [Some (Some r)] is its [return r], [Some None] the
    [OverflowError] raised on the way.  A finite value is below
    [float("inf")], so the loop only moves past finite bounds. *)
Fixpoint classify_loop (value : Q) (prev_bound : Num)
    (thresholds : list Threshold)
  : option (option (string * option Verdict * Q)) :=
  match thresholds with
  | [] => None
  | (upper, label, verdict) :: rest =>
      match upper with
      | Inf =>
          Some (let bucket_range := PyInt 1 in
                ratio ← bucket_ratio value prev_bound bucket_range;
                Some (label, verdict, ratio))
      | Fin u =>
          if Qltb value (val u) then
            Some (bucket_range ← py_sub u prev_bound;
                  ratio ← bucket_ratio value prev_bound bucket_range;
                  Some (label, verdict, ratio))
          else classify_loop value u rest
      end
  end.

(** [_classify(value, thresholds)] returns [(label, verdict, ratio)];
    [None] is an exception: the [OverflowError] of the loop, or the
    [IndexError] of [thresholds[-1]] on an empty table. *)
Definition _classify (value : option Q) (thresholds : list Threshold)
  : option (string * option Verdict * Q) :=
  match value with
  | None => Some ("Unknown", None, 0%Q)
  | Some v =>
      match classify_loop v (PyInt 0) thresholds with
      | Some outcome => outcome
      | None =>
          t ← last thresholds;
          Some (t_label t, t_verdict t, 1%Q)
      end
  end.

(** One entry of the [factors] dict. *)
Record Factor := mkFactor {
  f_value : option Q;
  f_unit : string;
  f_label : string;
  f_verdict : option Verdict;
  f_bar : Z
}.

(** The dict returned by [evaluate_conditions]. *)
Record Result := mkResult {
  r_verdict : Verdict;
  r_factors : gmap string Factor;
  r_tips : list string;
  r_summary : string
}.

(** A reading is a dict from field names to numbers or [None]. *)
Abbreviation Reading := (gmap string (option Q)).

(** [d.get(key)]: a missing key and a stored [None] both give [None]. *)
Definition get (d : Reading) (key : string) : option Q :=
  match d !! key with
  | Some v => v
  | None => None
  end.

(** [d.get(key, 0) or 0] *)
Definition get_or_0 (d : Reading) (key : string) : Q :=
  match d !! key with
  | Some (Some v) => if Qtruthy v then v else 0%Q
  | Some None => 0%Q
  | None => 0%Q
  end.

(** A number used as a key of a dict with int keys: a number equal to an
    integer finds that integer, any other number finds nothing. *)
Definition int_key (q : Q) : option Z :=
  let r := Qred q in
  if decide (Qden r = 1%positive) then Some (Qnum r) else None.

(** [table.get(code)] *)
Definition code_get (table : gmap Z string) (code : Q) : option string :=
  z ← int_key code; table !! z.

(** [code in table] *)
Definition code_in (code : Q) (table : gmap Z string) : bool :=
  bool_decide (is_Some (code_get table code)).

Definition _temp_bar (temp_c : Q) : Z :=
  if Qltb temp_c 10 then 1
  else if Qltb temp_c 15 then 2
  else if Qltb temp_c 18 then 3
  else if Qltb temp_c 20 then 4
  else if Qltb temp_c 22 then 5
  else if Qltb temp_c 24 then 6
  else if Qltb temp_c 26 then 7
  else if Qltb temp_c 28 then 8
  else if Qltb temp_c 30 then 9
  else 10.

Definition _wave_bar (wave_m : Q) : Z :=
  if Qltb wave_m (py_float 0.2) then 1
  else if Qltb wave_m (py_float 0.4) then 2
  else if Qltb wave_m (py_float 0.6) then 3
  else if Qltb wave_m (py_float 0.8) then 4
  else if Qltb wave_m (py_float 1.0) then 5
  else if Qltb wave_m (py_float 1.5) then 6
  else if Qltb wave_m (py_float 2.0) then 7
  else if Qltb wave_m (py_float 2.5) then 8
  else if Qltb wave_m (py_float 3.0) then 9
  else 10.

(** [min(10, max(1, int(wind_kmh / 5)))]; [None] is the [OverflowError]
    of the division.  The quotient is taken exactly: its rounding does not
    reach the next integer below 10, and the result is clamped to 1..10. *)
Definition _wind_bar (wind_kmh : Q) : option Z :=
  quotient ← py_truediv (num_of wind_kmh) (PyInt 5);
  Some (Z.min 10 (Z.max 1 (py_int (val quotient)))).

Definition factor_names : gmap string string :=
  list_to_map
    [ ("wave_height", "waves");
      ("wind_speed", "wind");
      ("precipitation", "rain");
      ("weather_code", "weather") ].

Definition _factor_name (key : string) : string :=
  default key (factor_names !! key).

(** [str.lower()] on the ASCII letters; every label of the tables is ASCII. *)
Definition lower_ascii (c : ascii) : ascii :=
  let n := nat_of_ascii c in
  if (65 <=? n)%nat && (n <=? 90)%nat then ascii_of_nat (n + 32) else c.

Fixpoint lower (s : string) : string :=
  match s with
  | EmptyString => EmptyString
  | String c rest => String (lower_ascii c) (lower rest)
  end.

(** The loop body of [_compute_verdict]: the state is
    [(no_count, maybe_count)]. *)
Definition count_step (key : string) (factor : Factor) (acc : nat * nat)
  : nat * nat :=
  if bool_decide (key ∉ SAFETY_FACTORS) then acc
  else
    match f_verdict factor with
    | Some NO => (S acc.1, acc.2)
    | Some MAYBE => (acc.1, S acc.2)
    | _ => acc
    end.

(** [factors.items()] is visited with [map_fold]; the two counters do not
    depend on the order of the visit. *)
Definition _compute_verdict (factors : gmap string Factor) : Verdict :=
  let counts := map_fold count_step (0%nat, 0%nat) factors in
  let no_count := counts.1 in
  let maybe_count := counts.2 in
  if (1 <=? no_count)%nat then NO
  else if (2 <=? maybe_count)%nat then NO
  else if (maybe_count =? 1)%nat then MAYBE
  else YES.

(** [f["label"].lower() + " " + _factor_name(key)] *)
Definition describe (key : string) (f : Factor) : string :=
  lower (f_label f) +:+ " " +:+ _factor_name key.

(** The two collecting loops of [_generate_summary]: [keep] is the test on
    [f.get("verdict")], a key missing from [factors] reads as verdict
    [None] and is skipped. *)
Fixpoint collect (keep : option Verdict → bool)
    (factors : gmap string Factor) (keys : list string)
    (acc : list string) : list string :=
  match keys with
  | [] => acc
  | key :: rest =>
      match factors !! key with
      | Some f =>
          if keep (f_verdict f)
          then collect keep factors rest (acc ++ [describe key f])
          else collect keep factors rest acc
      | None => collect keep factors rest acc
      end
  end.

Definition is_maybe (v : option Verdict) : bool :=
  match v with Some MAYBE => true | _ => false end.

Definition is_no_or_maybe (v : option Verdict) : bool :=
  match v with Some NO | Some MAYBE => true | _ => false end.

(** [evaluate_conditions] runs six blocks in sequence, one per factor; each
    block reads its measurement, stores its entry in [factors] and appends
    its advice to [tips].  A block is a function of the two variables it
    updates; [None] propagates the exception of [_classify] or
    [_wind_bar]. *)
Abbreviation Scoring := (gmap string Factor * list string)%type.

(** Water temperature (informational) *)
Definition score_water_temp (marine : Reading)
    (factors : gmap string Factor) (tips : list string) : option Scoring :=
  let water_temp := get marine "sea_surface_temp" in
  '(wt_label, _, _) ← _classify water_temp WATER_TEMP_LABELS;
  let factors :=
    <["water_temp" := {|
        f_value := water_temp;
        f_unit := "C";
        f_label := wt_label;
        f_verdict := None;
        f_bar := match water_temp with
                 | Some t => _temp_bar t
                 | None => 0
                 end |}]> factors in
  let tips :=
    match water_temp with
    | Some t =>
        if Qltb t 15
        then tips ++ ["Water is very cold. Consider a wetsuit."]
        else if Qltb t 18
        then tips ++ ["Water is cold. A wetsuit may help."]
        else tips
    | None => tips
    end in
  Some (factors, tips).

(** Wave height (SAFETY) *)
Definition score_wave_height (marine : Reading)
    (factors : gmap string Factor) (tips : list string) : option Scoring :=
  let wave_height := get marine "wave_height" in
  '(wh_label, wh_verdict, _) ← _classify wave_height WAVE_HEIGHT_LABELS;
  let factors :=
    <["wave_height" := {|
        f_value := wave_height;
        f_unit := "m";
        f_label := wh_label;
        f_verdict := wh_verdict;
        f_bar := match wave_height with
                 | Some h => _wave_bar h
                 | None => 0
                 end |}]> factors in
  let tips :=
    match wave_height with
    | Some h =>
        if Qgeb h (py_float 2.5)
        then tips ++ ["Dangerous waves. Red flag conditions."]
        else if Qgeb h (py_float 1.5)
        then tips ++ ["Rough waves. Experienced swimmers only."]
        else tips
    | None => tips
    end in
  Some (factors, tips).

(** Wind speed (SAFETY) *)
Definition score_wind_speed (weather : Reading)
    (factors : gmap string Factor) (tips : list string) : option Scoring :=
  let wind_speed := get weather "wind_speed" in
  '(ws_label, ws_verdict, _) ← _classify wind_speed WIND_SPEED_LABELS;
  bar ← match wind_speed with
        | Some s => _wind_bar s
        | None => Some 0%Z
        end;
  let factors :=
    <["wind_speed" := {|
        f_value := wind_speed;
        f_unit := "km/h";
        f_label := ws_label;
        f_verdict := ws_verdict;
        f_bar := bar |}]> factors in
  let tips :=
    match wind_speed with
    | Some s =>
        if Qgeb s 40
        then tips ++ ["Strong winds create dangerous rip currents."]
        else tips
    | None => tips
    end in
  Some (factors, tips).

(** UV index (informational) *)
Definition score_uv_index (weather : Reading)
    (factors : gmap string Factor) (tips : list string) : option Scoring :=
  let uv_index := get weather "uv_index" in
  '(uv_label, _, _) ← _classify uv_index UV_INDEX_LABELS;
  let factors :=
    <["uv_index" := {|
        f_value := uv_index;
        f_unit := "";
        f_label := uv_label;
        f_verdict := None;
        f_bar := match uv_index with
                 | Some u => Z.min 10 (py_int u)
                 | None => 0
                 end |}]> factors in
  let tips :=
    match uv_index with
    | Some u =>
        if Qgeb u 8
        then tips ++
             ["Very high UV. Wear sunscreen SPF 50+ and reapply often."]
        else if Qgeb u 6
        then tips ++ ["High UV. Wear sunscreen."]
        else if Qgeb u 3
        then tips ++ ["Moderate UV. Sunscreen recommended."]
        else tips
    | None => tips
    end in
  Some (factors, tips).

(** Precipitation (SAFETY) *)
Definition score_precipitation (weather : Reading)
    (factors : gmap string Factor) (tips : list string) : option Scoring :=
  let precip := get_or_0 weather "precipitation" in
  '(pr_label, pr_verdict, _) ← _classify (Some precip) PRECIP_LABELS;
  let factors :=
    <["precipitation" := {|
        f_value := Some precip;
        f_unit := "mm";
        f_label := pr_label;
        f_verdict := pr_verdict;
        f_bar := Z.min 10 (py_int precip) |}]> factors in
  Some (factors, tips).

(** Weather code (SAFETY -- thunderstorms close beaches) *)
Definition score_weather_code (weather : Reading)
    (factors : gmap string Factor) (tips : list string) : option Scoring :=
  let weather_code := get_or_0 weather "weather_code" in
  let wc_desc :=
    default "Unknown" (code_get WMO_WEATHER_DESCRIPTIONS weather_code) in
  let '(wc_verdict, tips) :=
    if code_in weather_code DANGEROUS_WEATHER_CODES
    then (NO,
          tips ++ ["Dangerous weather: " +:+ wc_desc +:+ ". Beach closed."])
    else if code_in weather_code WARNING_WEATHER_CODES
    then (MAYBE, tips)
    else (YES, tips) in
  let factors :=
    <["weather_code" := {|
        f_value := Some weather_code;
        f_unit := "";
        f_label := wc_desc;
        f_verdict := Some wc_verdict;
        f_bar := 0 |}]> factors in
  Some (factors, tips).

Section SetIteration.

(** Iterating over the set [SAFETY_FACTORS] visits its keys in an order
    that Python leaves unspecified; [safety_iter] is that order. *)
Context (safety_iter : list string).

Definition _generate_summary (verdict : Verdict)
    (factors : gmap string Factor) : string :=
  match verdict with
  | YES => "Beach is open. Go swim!"
  | MAYBE =>
      let issues := collect is_maybe factors safety_iter [] in
      match issues with
      | _ :: _ =>
          "Swim with caution: " +:+ String.concat ", " issues +:+ "."
      | [] => "Conditions are mixed. Swim with caution."
      end
  | NO =>
      let dangers := collect is_no_or_maybe factors safety_iter [] in
      match dangers with
      | _ :: _ =>
          "Beach closed: " +:+ String.concat ", " (take 2 dangers) +:+ "."
      | [] => "Not safe to swim."
      end
  end.

Definition evaluate_conditions (marine weather : Reading) : option Result :=
  let factors : gmap string Factor := ∅ in
  let tips : list string := [] in
  '(factors, tips) ← score_water_temp marine factors tips;
  '(factors, tips) ← score_wave_height marine factors tips;
  '(factors, tips) ← score_wind_speed weather factors tips;
  '(factors, tips) ← score_uv_index weather factors tips;
  '(factors, tips) ← score_precipitation weather factors tips;
  '(factors, tips) ← score_weather_code weather factors tips;
  (* Overall verdict (safety factors only) *)
  let verdict := _compute_verdict factors in
  let summary := _generate_summary verdict factors in
  Some {|
    r_verdict := verdict;
    r_factors := factors;
    r_tips := tips;
    r_summary := summary |}.

End SetIteration.

End SwimScore.
Import SwimScore.

(** * Properties of the classifier *)

(** [exceeds upper value]: the upper bound strictly exceeds the value,
    the test [value < upper] of the loop. *)
Definition exceeds (value : Q) (t : Threshold) : Prop :=
  match t_bound t with
  | Inf => True
  | Fin u => (value < val u)%Q
  end.

#[global] Instance exceeds_dec value t : Decision (exceeds value t).
Proof.
  unfold exceeds. destruct (t_bound t) as [u|].
  - destruct (Qltb value (val u)) eqn:E.
    + left. by apply Qltb_lt.
    + right. apply Qle_not_lt. by apply Qltb_ge.
  - left. exact I.
Defined.

(** The label and verdict of a classification, without the ratio. *)
Definition label_verdict (r : option (string * option Verdict * Q))
  : option (string * option Verdict) :=
  '(label, verdict, _) ← r; Some (label, verdict).

(** Order on upper bounds: [float("inf")] is above every number. *)
Definition bound_lt (a b : Bound) : Prop :=
  match a, b with
  | Fin x, Fin y => (val x < val y)%Q
  | Fin _, Inf => True
  | Inf, _ => False
  end.

#[global] Instance bound_lt_trans : Transitive bound_lt.
Proof.
  intros [x|] [y|] [z|]; simpl; try done.
  apply Qlt_trans.
Qed.

(** A well-formed table is strictly ascending by upper bound. *)
Definition ascending (thresholds : list Threshold) : Prop :=
  Sorted bound_lt (t_bound <$> thresholds).

(** What the entry with bound [upper] computes when the loop reaches it with
    [prev_bound]: the ratio, or [None] for [OverflowError]. *)
Definition hit_ratio (value : Q) (prev_bound : Num) (upper : Bound)
  : option Q :=
  match upper with
  | Inf => bucket_ratio value prev_bound (PyInt 1)
  | Fin u =>
      bucket_range ← py_sub u prev_bound;
      bucket_ratio value prev_bound bucket_range
  end.

(** The loop stops at the first entry whose bound exceeds the value; [P] is
    any property of the bounds of the table and of the first
    [prev_bound]. *)
Lemma classify_loop_spec (P : Num → Prop) value thresholds prev :
  P prev →
  (∀ t u, t ∈ thresholds → t_bound t = Fin u → P u) →
  match list_find (exceeds value) thresholds with
  | Some (i, t) =>
      ∃ prev',
        P prev'
        ∧ classify_loop value prev thresholds
          = Some (ratio ← hit_ratio value prev' (t_bound t);
                  Some (t_label t, t_verdict t, ratio))
  | None => classify_loop value prev thresholds = None
  end.
Proof.
  revert prev.
  induction thresholds as [|[[upper label] verdict] rest IH];
    intros prev Hprev Hbounds.
  { reflexivity. }
  cbn [list_find]. destruct (decide (exceeds value (upper, label, verdict)))
    as [Hex|Hex].
  - exists prev. split; [exact Hprev|].
    unfold exceeds in Hex. cbn [t_bound fst] in Hex.
    cbn [classify_loop hit_ratio t_bound t_label t_verdict fst snd].
    destruct upper as [u|]; [|reflexivity].
    apply Qltb_lt in Hex. rewrite Hex.
    unfold hit_ratio. by destruct (py_sub u prev).
  - unfold exceeds in Hex. cbn [t_bound fst] in Hex.
    destruct upper as [u|]; [|exfalso; apply Hex; exact I].
    apply Qnot_lt_le, Qltb_ge in Hex.
    cbn [classify_loop]. rewrite Hex.
    assert (P u) as Hu.
    { apply (Hbounds (Fin u, label, verdict)); [apply list_elem_of_here|].
      reflexivity. }
    assert (∀ t u', t ∈ rest → t_bound t = Fin u' → P u') as Hrest.
    { intros t u' Hin. apply Hbounds. by apply list_elem_of_further. }
    specialize (IH u Hu Hrest).
    destruct (list_find (exceeds value) rest) as [[i t]|]; exact IH.
Qed.

Lemma classify_first value thresholds i t :
  list_find (exceeds value) thresholds = Some (i, t) →
  ∃ prev',
    _classify (Some value) thresholds
    = (ratio ← hit_ratio value prev' (t_bound t);
       Some (t_label t, t_verdict t, ratio)).
Proof.
  intros Hfind.
  pose proof (classify_loop_spec (λ _, True) value thresholds (PyInt 0) I
                (λ _ _ _ _, I)) as Hspec.
  rewrite Hfind in Hspec. destruct Hspec as (prev' & _ & Hloop).
  exists prev'. unfold _classify. by rewrite Hloop.
Qed.

(** Whenever [_classify] returns on a value that some bound exceeds, it
    returns the label and the verdict of the first such entry. *)
Lemma classify_first_inv value thresholds i t label verdict ratio :
  list_find (exceeds value) thresholds = Some (i, t) →
  _classify (Some value) thresholds = Some (label, verdict, ratio) →
  label = t_label t ∧ verdict = t_verdict t.
Proof.
  intros Hfind Hret.
  destruct (classify_first value thresholds i t Hfind) as [prev' Hc].
  rewrite Hc in Hret.
  destruct (hit_ratio value prev' (t_bound t)); [|discriminate Hret].
  injection Hret as <- <- _. by split.
Qed.

Lemma classify_fall_through value thresholds :
  list_find (exceeds value) thresholds = None →
  _classify (Some value) thresholds
  = (t ← last thresholds; Some (t_label t, t_verdict t, 1%Q)).
Proof.
  intros Hfind.
  pose proof (classify_loop_spec (λ _, True) value thresholds (PyInt 0) I
                (λ _ _ _ _, I)) as Hspec.
  rewrite Hfind in Hspec. unfold _classify. by rewrite Hspec.
Qed.

(** Label and verdict of a value on a table: those of the first entry whose
    bound exceeds the value, of the last entry when there is none, and
    "Unknown" without verdict for [None]. *)
Definition classified (value : option Q) (table : list Threshold)
  : string * option Verdict :=
  match value with
  | None => ("Unknown", None)
  | Some v =>
      match list_find (exceeds v) table with
      | Some (_, t) => (t_label t, t_verdict t)
      | None =>
          match last table with
          | Some t => (t_label t, t_verdict t)
          | None => ("Unknown", None)
          end
      end
  end.

(** Whatever [_classify] returns has this label and this verdict. *)
Lemma classify_inv value table label verdict ratio :
  _classify value table = Some (label, verdict, ratio) →
  (label, verdict) = classified value table.
Proof.
  destruct value as [v|]; [|by intros [= <- <- _]].
  unfold classified.
  destruct (list_find (exceeds v) table) as [[i t]|] eqn:Hfind.
  - intros Hret.
    destruct (classify_first_inv v table i t _ _ _ Hfind Hret) as [-> ->].
    reflexivity.
  - rewrite (classify_fall_through v table Hfind).
    destruct (last table) as [t|]; [|discriminate].
    by intros [= <- <- _].
Qed.

Lemma ascending_before thresholds i j a b :
  ascending thresholds →
  thresholds !! i = Some a → thresholds !! j = Some b → (i < j)%nat →
  bound_lt (t_bound a) (t_bound b).
Proof.
  unfold ascending. intros Hs.
  apply Sorted_StronglySorted in Hs; [|exact bound_lt_trans].
  revert i j. induction thresholds as [|t ts IH]; intros i j Hi Hj Hij.
  { done. }
  rewrite fmap_cons in Hs. apply StronglySorted_inv in Hs as [Hs Hall].
  destruct j as [|j]; [lia|]. simpl in Hj.
  destruct i as [|i]; simpl in Hi.
  - injection Hi as ->.
    rewrite List.Forall_forall in Hall. apply Hall.
    apply list_elem_of_In, list_elem_of_fmap. exists b. split; [done|].
    by eapply list_elem_of_lookup_2.
  - apply (IH Hs i j); [done|done|lia].
Qed.

(** In an ascending table the first entry that exceeds the bound of entry
    [i] is entry [i + 1]. *)
Lemma boundary_find thresholds i u label verdict next :
  ascending thresholds →
  thresholds !! i = Some (Fin u, label, verdict) →
  thresholds !! S i = Some next →
  list_find (exceeds (val u)) thresholds = Some (S i, next).
Proof.
  intros Hasc Hi Hnext.
  apply list_find_Some. split; [done|]. split.
  - pose proof (ascending_before _ _ _ _ _ Hasc Hi Hnext) as Hlt.
    unfold exceeds. simpl in Hlt.
    destruct (t_bound next); [apply Hlt; lia | done].
  - intros j t' Hj Hlt. unfold exceeds.
    destruct (decide (j = i)) as [Heq|Hne].
    + assert (t' = (Fin u, label, verdict)) as -> by congruence.
      simpl. apply Qlt_irrefl.
    + assert (j < i)%nat as Hji by lia.
      pose proof (ascending_before _ _ _ _ _ Hasc Hj Hi Hji) as Hb.
      simpl in Hb. destruct (t_bound t') as [x|]; [|done].
      by apply Qle_not_lt, Qlt_le_weak.
Qed.

Lemma classify_boundary thresholds i u label verdict next l vd ratio :
  ascending thresholds →
  thresholds !! i = Some (Fin u, label, verdict) →
  thresholds !! S i = Some next →
  _classify (Some (val u)) thresholds = Some (l, vd, ratio) →
  l = t_label next ∧ vd = t_verdict next.
Proof.
  intros Hasc Hi Hnext.
  apply (classify_first_inv (val u) thresholds (S i)).
  by eapply boundary_find.
Qed.

(** The five threshold tables of [lib/constants.py]. *)
Definition THRESHOLD_TABLES : list (list Threshold) :=
  [ WATER_TEMP_LABELS; WAVE_HEIGHT_LABELS; WIND_SPEED_LABELS;
    UV_INDEX_LABELS; PRECIP_LABELS ].

Ltac solve_ascending :=
  unfold ascending; cbn [fmap list_fmap t_bound fst snd];
  repeat first [ apply Sorted_cons | apply Sorted_nil
               | apply HdRel_cons | apply HdRel_nil ];
  vm_compute; done.

Lemma tables_ascending : Forall ascending THRESHOLD_TABLES.
Proof.
  repeat (apply Forall_cons_2; [solve_ascending|]). apply Forall_nil_2.
Qed.

(** A table that holds an infinite bound classifies every value. *)
Lemma list_find_exceeds_Inf value thresholds :
  Inf ∈ (t_bound <$> thresholds) →
  is_Some (list_find (exceeds value) thresholds).
Proof.
  intros (t & Hb & Ht)%list_elem_of_fmap.
  destruct (list_find (exceeds value) thresholds) as [r|] eqn:E; [by eexists|].
  rewrite list_find_None, Forall_forall in E.
  destruct (E t Ht). unfold exceeds. by rewrite <- Hb.
Qed.

Lemma tables_end_Inf :
  Forall (λ table, Inf ∈ (t_bound <$> table)) THRESHOLD_TABLES.
Proof.
  repeat (apply Forall_cons_2; [vm_compute; set_solver|]). apply Forall_nil_2.
Qed.

(** ** When the classifier returns *)

(** A magnitude so small that the difference of two such numbers fits. *)
Definition small (x : Q) : bool := Qle_bool (Qabs x) (inject_Z (2 ^ 1022)).

(** The finite bounds of the table are small. *)
Definition tame (thresholds : list Threshold) : Prop :=
  Forall (λ t, match t_bound t with
               | Fin u => small (val u) = true
               | Inf => True
               end) thresholds.

Lemma small_limit :
  (inject_Z (2 ^ 1022) + inject_Z (2 ^ 1022) < FLOAT_LIMIT)%Q.
Proof. vm_compute. reflexivity. Qed.

Lemma small_sub_fits (a b : Q) :
  small a = true → small b = true → fits_float (a - b) = true.
Proof.
  unfold small, fits_float. intros Ha%Qle_bool_iff Hb%Qle_bool_iff.
  apply Qltb_lt. eapply Qle_lt_trans; [|exact small_limit].
  eapply Qle_trans; [apply (Qabs_triangle a (- b))|].
  rewrite Qabs_opp. by apply Qplus_le_compat.
Qed.

Lemma small_fits (a : Q) : small a = true → fits_float a = true.
Proof.
  intros Ha. unfold fits_float.
  assert (Qabs a == Qabs (a - 0))%Q as Heq
    by (apply Qabs_wd; unfold Qminus; by rewrite Qplus_0_r).
  apply Qltb_lt. rewrite Heq. apply Qltb_lt.
  by apply small_sub_fits.
Qed.

Lemma to_float_small (n : Num) :
  small (val n) = true → to_float n = Some (val n).
Proof.
  intros Hn. destruct n as [x|x]; [|reflexivity].
  cbn [to_float val] in *. by rewrite (small_fits x Hn).
Qed.

Lemma py_sub_small (a b : Num) :
  small (val a) = true → small (val b) = true →
  ∃ d, py_sub a b = Some d ∧ fits_float (val d) = true.
Proof.
  intros Ha Hb.
  assert (fits_float (val a - val b) = true) as Hfit
    by (by apply small_sub_fits).
  destruct a as [x|x], b as [y|y]; cbn [py_sub];
    rewrite ?(to_float_small (PyInt _)) by assumption;
    cbn [to_float val mbind option_bind];
    eexists; (split; [reflexivity|exact Hfit]).
Qed.

Lemma py_sub_fits_float (x : Q) (b : Num) :
  small (val b) = true → ∃ d, py_sub (PyFloat x) b = Some (PyFloat d).
Proof.
  intros Hb. cbn [py_sub]. destruct b as [y|y]; cbn [to_float mbind option_bind].
  - cbn [val] in Hb. rewrite (small_fits y Hb). by eexists.
  - by eexists.
Qed.

Lemma py_truediv_float (x : Q) (b : Num) :
  fits_float (val b) = true → is_Some (py_truediv (PyFloat x) b).
Proof.
  intros Hb. cbn [py_truediv]. destruct b as [y|y];
    cbn [to_float mbind option_bind val] in *; [rewrite Hb|]; by eexists.
Qed.

Lemma bucket_ratio_returns value prev bucket_range :
  fits_float value = true → small (val prev) = true →
  fits_float (val bucket_range) = true →
  is_Some (bucket_ratio value prev bucket_range).
Proof.
  intros Hv Hprev Hrange. unfold bucket_ratio, num_of. rewrite Hv.
  destruct (Qgtb (val bucket_range) 0); [|by eexists].
  destruct (py_sub_fits_float value prev Hprev) as [d ->].
  cbn [mbind option_bind].
  destruct (py_truediv_float d bucket_range Hrange) as [q ->].
  by eexists.
Qed.

Lemma hit_ratio_returns value prev upper :
  fits_float value = true → small (val prev) = true →
  match upper with Fin u => small (val u) = true | Inf => True end →
  is_Some (hit_ratio value prev upper).
Proof.
  intros Hv Hprev Hupper. unfold hit_ratio. destruct upper as [u|].
  - destruct (py_sub_small u prev Hupper Hprev) as (d & -> & Hd).
    cbn [mbind option_bind]. by apply bucket_ratio_returns.
  - by apply bucket_ratio_returns.
Qed.

(** On a tame table that classifies every value, [_classify] returns for
    [None] and for every value that fits. *)
Lemma classify_returns value table :
  tame table →
  Inf ∈ (t_bound <$> table) →
  (∀ v, value = Some v → fits_float v = true) →
  ∃ ratio,
    _classify value table
    = Some ((classified value table).1, (classified value table).2, ratio).
Proof.
  intros Htame Hinf Hfits. destruct value as [v|]; [|by eexists].
  specialize (Hfits v eq_refl).
  destruct (list_find_exceeds_Inf v table Hinf) as [[i t] Hfind].
  pose proof (classify_loop_spec (λ n, small (val n) = true) v table
                (PyInt 0) eq_refl) as Hspec.
  rewrite Hfind in Hspec. destruct Hspec as (prev' & Hprev' & Hloop).
  { intros t' u Hin Hb. unfold tame in Htame. rewrite Forall_forall in Htame.
    specialize (Htame t' Hin). by rewrite Hb in Htame. }
  assert (match t_bound t with
          | Fin u => small (val u) = true
          | Inf => True
          end) as Hupper.
  { apply list_find_Some in Hfind as (Hi & _ & _).
    unfold tame in Htame. rewrite Forall_forall in Htame.
    apply Htame. by eapply list_elem_of_lookup_2. }
  destruct (hit_ratio_returns v prev' (t_bound t) Hfits Hprev' Hupper)
    as [ratio Hratio].
  exists ratio. unfold _classify, classified.
  by rewrite Hloop, Hfind, Hratio.
Qed.

Lemma tables_tame : Forall tame THRESHOLD_TABLES.
Proof.
  repeat (apply Forall_cons_2;
          [unfold tame;
           repeat (apply Forall_cons_2; [vm_compute; reflexivity|]);
           apply Forall_nil_2|]).
  apply Forall_nil_2.
Qed.

(** C2. Whenever [_classify] returns on a present value, it returns the
    label and verdict of the first entry whose upper bound strictly exceeds
    the value, for every table; each table of the program has such an entry
    for every value, and on it [_classify] returns for every value that fits
    a float.  The comparison is strict: in an ascending table a value equal
    to the upper bound of an entry is classified by the next entry.  A wave
    height of exactly 1.5 is "Rough" with verdict MAYBE, not "Moderate". *)
Theorem classify_strict_upper_bound :
  (∀ (value : Q) (thresholds : list Threshold) (i : nat) (t : Threshold)
     (label : string) (verdict : option Verdict) (ratio : Q),
      list_find (exceeds value) thresholds = Some (i, t) →
      _classify (Some value) thresholds = Some (label, verdict, ratio) →
      label = t_label t ∧ verdict = t_verdict t)
  ∧ (∀ (value : Q) (table : list Threshold),
        table ∈ THRESHOLD_TABLES →
        is_Some (list_find (exceeds value) table)
        ∧ (fits_float value = true → is_Some (_classify (Some value) table)))
  ∧ (∀ (thresholds : list Threshold) (i : nat) (u : Num) (label : string)
       (verdict : option Verdict) (next : Threshold)
       (l : string) (vd : option Verdict) (ratio : Q),
        ascending thresholds →
        thresholds !! i = Some (Fin u, label, verdict) →
        thresholds !! S i = Some next →
        _classify (Some (val u)) thresholds = Some (l, vd, ratio) →
        l = t_label next ∧ vd = t_verdict next)
  ∧ Forall ascending THRESHOLD_TABLES
  ∧ label_verdict (_classify (Some (py_float 1.5)) WAVE_HEIGHT_LABELS)
    = Some ("Rough", Some MAYBE).
Proof.
  split; [exact classify_first_inv|].
  split.
  { intros value table Hin.
    pose proof tables_end_Inf as Hinf. rewrite Forall_forall in Hinf.
    pose proof tables_tame as Htame. rewrite Forall_forall in Htame.
    split; [by apply list_find_exceeds_Inf, Hinf|].
    intros Hfit.
    destruct (classify_returns (Some value) table (Htame _ Hin) (Hinf _ Hin))
      as [ratio ->]; [by intros v [= <-]|by eexists]. }
  split; [exact classify_boundary|].
  split; [exact tables_ascending|].
  vm_compute. reflexivity.
Qed.

Lemma classify_strict_upper_bound_witness :
  list_find (exceeds (3 # 2)) WAVE_HEIGHT_LABELS
  = Some (4%nat, (Fin (PyFloat 2), "Rough", Some MAYBE))
  ∧ ∃ ratio,
      _classify (Some (3 # 2)) WAVE_HEIGHT_LABELS
      = Some ("Rough", Some MAYBE, ratio).
Proof.
  split; [vm_compute; reflexivity|].
  destruct (_classify (Some (3 # 2)) WAVE_HEIGHT_LABELS)
    as [[[label verdict] ratio]|] eqn:Hret; [|vm_compute in Hret; discriminate].
  exists ratio.
  destruct (proj1 classify_strict_upper_bound (3 # 2) WAVE_HEIGHT_LABELS
              4%nat (Fin (PyFloat 2), "Rough", Some MAYBE)
              label verdict ratio) as [-> ->].
  - vm_compute. reflexivity.
  - exact Hret.
  - reflexivity.
Defined.

(** * Properties of the aggregation *)

(** The keys of [SAFETY_FACTORS]. *)
Definition safety_keys : list string :=
  ["wave_height"; "wind_speed"; "precipitation"; "weather_code"].

(** [factors.get(key, {}).get("verdict")] *)
Definition verdict_at (factors : gmap string Factor) (key : string)
  : option Verdict :=
  f ← factors !! key; f_verdict f.

(** The verdicts of the four safety factors. *)
Definition safety_verdicts (factors : gmap string Factor)
  : list (option Verdict) :=
  verdict_at factors <$> safety_keys.

(** How many of the verdicts [vs] are [v]. *)
Definition occurrences (v : Verdict) (vs : list (option Verdict)) : nat :=
  length (filter (λ x, x = Some v) vs).

(** The aggregation rule in the words of the specification. *)
Definition aggregate (vs : list (option Verdict)) : Verdict :=
  if decide (Some NO ∈ vs) then NO
  else if decide (2 ≤ occurrences MAYBE vs) then NO
  else if decide (occurrences MAYBE vs = 1) then MAYBE
  else YES.

Definition tally (v : Verdict) (x : option Verdict) : nat :=
  if decide (x = Some v) then 1 else 0.

Lemma occurrences_cons v x vs :
  occurrences v (x :: vs) = tally v x + occurrences v vs.
Proof.
  unfold occurrences, tally. rewrite filter_cons.
  by destruct (decide (x = Some v)).
Qed.

Lemma occurrences_nil v : occurrences v [] = 0.
Proof. reflexivity. Qed.

Lemma occurrences_pos v vs : 1 ≤ occurrences v vs ↔ Some v ∈ vs.
Proof.
  induction vs as [|x vs IH].
  - rewrite occurrences_nil, elem_of_nil. lia.
  - rewrite occurrences_cons, elem_of_cons. unfold tally.
    destruct (decide (x = Some v)) as [->|Hne].
    + split; [auto | lia].
    + rewrite IH. naive_solver.
Qed.

Lemma safety_keys_elements : safety_keys ≡ₚ elements SAFETY_FACTORS.
Proof.
  apply NoDup_Permutation.
  - unfold safety_keys. repeat (apply NoDup_cons_2; [set_solver|]).
    apply NoDup_nil_2.
  - apply NoDup_elements.
  - intros k. rewrite elem_of_elements. unfold safety_keys, SAFETY_FACTORS.
    set_solver.
Qed.

Lemma verdict_at_insert factors i x key :
  verdict_at (<[i:=x]> factors) key
  = if decide (i = key) then f_verdict x else verdict_at factors key.
Proof.
  unfold verdict_at. rewrite lookup_insert. by destruct (decide (i = key)).
Qed.

Lemma verdict_at_None (factors : gmap string Factor) key :
  factors !! key = None → verdict_at factors key = None.
Proof. unfold verdict_at. by intros ->. Qed.

Lemma count_step_commute j1 j2 z1 z2 acc :
  count_step j1 z1 (count_step j2 z2 acc)
  = count_step j2 z2 (count_step j1 z1 acc).
Proof.
  unfold count_step.
  destruct (bool_decide (j1 ∉ SAFETY_FACTORS)),
    (bool_decide (j2 ∉ SAFETY_FACTORS)),
    (f_verdict z1) as [[]|], (f_verdict z2) as [[]|]; reflexivity.
Qed.

Lemma count_step_safety key x acc :
  key ∈ SAFETY_FACTORS →
  count_step key x acc
  = (tally NO (f_verdict x) + acc.1, tally MAYBE (f_verdict x) + acc.2).
Proof.
  intros Hin. unfold count_step.
  rewrite bool_decide_eq_false_2 by (intros Hn; by apply Hn).
  destruct acc as [n m]. by destruct (f_verdict x) as [[]|].
Qed.

Lemma count_step_other key x acc :
  key ∉ SAFETY_FACTORS → count_step key x acc = acc.
Proof. intros Hin. unfold count_step. by rewrite bool_decide_eq_true_2. Qed.

(** The two counters of [_compute_verdict] after the loop. *)
Lemma compute_verdict_counts (factors : gmap string Factor) :
  map_fold count_step (0, 0) factors
  = (occurrences NO (safety_verdicts factors),
     occurrences MAYBE (safety_verdicts factors)).
Proof.
  apply (map_fold_weak_ind (λ r m,
    r = (occurrences NO (safety_verdicts m),
         occurrences MAYBE (safety_verdicts m)))).
  { reflexivity. }
  intros i x m r Hnone ->.
  unfold safety_verdicts, safety_keys. cbn [fmap list_fmap].
  rewrite !occurrences_cons, !occurrences_nil, !verdict_at_insert.
  repeat case_decide; subst;
    try rewrite (verdict_at_None m _ Hnone);
    first [ rewrite count_step_safety by set_solver
          | rewrite count_step_other by set_solver ];
    try discriminate; cbn [fst snd tally]; f_equal; simpl; lia.
Qed.

Lemma compute_verdict_aggregate (factors : gmap string Factor) :
  _compute_verdict factors = aggregate (safety_verdicts factors).
Proof.
  unfold _compute_verdict, aggregate. rewrite compute_verdict_counts.
  cbn [fst snd].
  destruct (decide (Some NO ∈ safety_verdicts factors)) as [Hno|Hno].
  - apply occurrences_pos, Nat.leb_le in Hno. by rewrite Hno.
  - rewrite <- occurrences_pos, <- Nat.leb_le in Hno.
    apply not_true_is_false in Hno. rewrite Hno.
    destruct (decide (2 ≤ occurrences MAYBE (safety_verdicts factors)))
      as [H2|H2].
    + apply Nat.leb_le in H2. by rewrite H2.
    + rewrite <- Nat.leb_le in H2. apply not_true_is_false in H2.
      rewrite H2.
      destruct (decide (occurrences MAYBE (safety_verdicts factors) = 1))
        as [H1|H1].
      * by rewrite H1.
      * rewrite <- Nat.eqb_eq in H1. apply not_true_is_false in H1.
        by rewrite H1.
Qed.

(** * The result of [evaluate_conditions] *)

#[global] Instance Qlt_dec (x y : Q) : Decision (x < y)%Q.
Proof.
  destruct (Qlt_le_dec x y) as [H|H]; [by left|right]. by apply Qle_not_lt.
Defined.

#[global] Instance Qle_dec (x y : Q) : Decision (x <= y)%Q.
Proof.
  destruct (Qlt_le_dec y x) as [H|H]; [right|by left]. by apply Qlt_not_le.
Defined.

Lemma Qltb_decide (x y : Q) : Qltb x y = bool_decide (x < y)%Q.
Proof.
  destruct (Qltb x y) eqn:E; symmetry.
  - by apply bool_decide_eq_true_2, Qltb_lt.
  - by apply bool_decide_eq_false_2, Qle_not_lt, Qltb_ge.
Qed.

Lemma Qgeb_decide (x y : Q) : Qgeb x y = bool_decide (y <= x)%Q.
Proof.
  unfold Qgeb. destruct (Qltb x y) eqn:E; symmetry; simpl.
  - by apply bool_decide_eq_false_2, Qlt_not_le, Qltb_lt.
  - by apply bool_decide_eq_true_2, Qltb_ge.
Qed.

(** ** Advice, as the thresholds of the specification *)

Definition water_temp_tips (water_temp : option Q) : list string :=
  match water_temp with
  | Some t =>
      if decide (t < 15)%Q then ["Water is very cold. Consider a wetsuit."]
      else if decide (t < 18)%Q then ["Water is cold. A wetsuit may help."]
      else []
  | None => []
  end.

Definition wave_tips (wave_height : option Q) : list string :=
  match wave_height with
  | Some h =>
      if decide (5 # 2 <= h)%Q then ["Dangerous waves. Red flag conditions."]
      else if decide (3 # 2 <= h)%Q
      then ["Rough waves. Experienced swimmers only."]
      else []
  | None => []
  end.

Definition wind_tips (wind_speed : option Q) : list string :=
  match wind_speed with
  | Some s =>
      if decide (40 <= s)%Q
      then ["Strong winds create dangerous rip currents."]
      else []
  | None => []
  end.

Definition uv_tips (uv_index : option Q) : list string :=
  match uv_index with
  | Some u =>
      if decide (8 <= u)%Q
      then ["Very high UV. Wear sunscreen SPF 50+ and reapply often."]
      else if decide (6 <= u)%Q then ["High UV. Wear sunscreen."]
      else if decide (3 <= u)%Q then ["Moderate UV. Sunscreen recommended."]
      else []
  | None => []
  end.

Definition weather_description (code : Q) : string :=
  default "Unknown" (code_get WMO_WEATHER_DESCRIPTIONS code).

Definition weather_tips (code : Q) : list string :=
  if code_in code DANGEROUS_WEATHER_CODES
  then ["Dangerous weather: " +:+ weather_description code
        +:+ ". Beach closed."]
  else [].

(** All advice, in the order water temperature, waves, wind, UV, weather. *)
Definition expected_tips (marine weather : Reading) : list string :=
  water_temp_tips (get marine "sea_surface_temp")
  ++ wave_tips (get marine "wave_height")
  ++ wind_tips (get weather "wind_speed")
  ++ uv_tips (get weather "uv_index")
  ++ weather_tips (get_or_0 weather "weather_code").

(** ** The six entries of [factors] *)

(** Dangerous codes are looked up before warning codes. *)
Definition weather_code_verdict (code : Q) : Verdict :=
  if code_in code DANGEROUS_WEATHER_CODES then NO
  else if code_in code WARNING_WEATHER_CODES then MAYBE
  else YES.

(** The value of [_wind_bar] when it returns. *)
Definition wind_bar_value (wind_kmh : Q) : Z :=
  Z.min 10 (Z.max 1 (py_int (wind_kmh / 5))).

Definition water_temp_factor (marine : Reading) : Factor :=
  let water_temp := get marine "sea_surface_temp" in
  {| f_value := water_temp;
     f_unit := "C";
     f_label := (classified water_temp WATER_TEMP_LABELS).1;
     f_verdict := None;
     f_bar := match water_temp with Some t => _temp_bar t | None => 0 end |}.

Definition wave_height_factor (marine : Reading) : Factor :=
  let wave_height := get marine "wave_height" in
  {| f_value := wave_height;
     f_unit := "m";
     f_label := (classified wave_height WAVE_HEIGHT_LABELS).1;
     f_verdict := (classified wave_height WAVE_HEIGHT_LABELS).2;
     f_bar := match wave_height with Some h => _wave_bar h | None => 0 end |}.

Definition wind_speed_factor (weather : Reading) : Factor :=
  let wind_speed := get weather "wind_speed" in
  {| f_value := wind_speed;
     f_unit := "km/h";
     f_label := (classified wind_speed WIND_SPEED_LABELS).1;
     f_verdict := (classified wind_speed WIND_SPEED_LABELS).2;
     f_bar := match wind_speed with
              | Some s => wind_bar_value s
              | None => 0
              end |}.

Definition uv_index_factor (weather : Reading) : Factor :=
  let uv_index := get weather "uv_index" in
  {| f_value := uv_index;
     f_unit := "";
     f_label := (classified uv_index UV_INDEX_LABELS).1;
     f_verdict := None;
     f_bar := match uv_index with
              | Some u => Z.min 10 (py_int u)
              | None => 0
              end |}.

Definition precipitation_factor (weather : Reading) : Factor :=
  let precip := get_or_0 weather "precipitation" in
  {| f_value := Some precip;
     f_unit := "mm";
     f_label := (classified (Some precip) PRECIP_LABELS).1;
     f_verdict := (classified (Some precip) PRECIP_LABELS).2;
     f_bar := Z.min 10 (py_int precip) |}.

Definition weather_code_factor (weather : Reading) : Factor :=
  let weather_code := get_or_0 weather "weather_code" in
  {| f_value := Some weather_code;
     f_unit := "";
     f_label := weather_description weather_code;
     f_verdict := Some (weather_code_verdict weather_code);
     f_bar := 0 |}.

Definition expected_factors (marine weather : Reading)
  : gmap string Factor :=
  <["weather_code" := weather_code_factor weather]>
    (<["precipitation" := precipitation_factor weather]>
      (<["uv_index" := uv_index_factor weather]>
        (<["wind_speed" := wind_speed_factor weather]>
          (<["wave_height" := wave_height_factor marine]>
            (<["water_temp" := water_temp_factor marine]> ∅))))).

(** [o] is a return, not an exception. *)
Definition returns {A} (o : option A) : bool :=
  match o with Some _ => true | None => false end.

Lemma fits_5 : fits_float 5 = true.
Proof. vm_compute. reflexivity. Qed.

Lemma _wind_bar_run s :
  _wind_bar s = if returns (_wind_bar s) then Some (wind_bar_value s) else None.
Proof.
  unfold _wind_bar, wind_bar_value, num_of.
  destruct (fits_float s) eqn:Hs;
    cbn [py_truediv to_float mbind option_bind].
  - rewrite fits_5. reflexivity.
  - by destruct (fits_float (s / 5)).
Qed.

Lemma _wind_bar_returns s :
  fits_float s = true → returns (_wind_bar s) = true.
Proof.
  intros Hs. unfold _wind_bar, num_of. rewrite Hs.
  cbn [py_truediv to_float mbind option_bind]. by rewrite fits_5.
Qed.

Ltac run_classify :=
  match goal with
  | |- context [_classify ?v ?t] =>
      let l := fresh "label" in
      let vd := fresh "verdict" in
      let r := fresh "ratio" in
      let E := fresh "E" in
      destruct (_classify v t) as [[[l vd] r]|] eqn:E;
      cbn [returns mbind option_bind]; [|reflexivity];
      apply classify_inv in E; rewrite <- E; cbn [fst snd]
  end.

Lemma score_water_temp_run marine factors tips :
  score_water_temp marine factors tips
  = if returns (_classify (get marine "sea_surface_temp") WATER_TEMP_LABELS)
    then Some (<["water_temp" := water_temp_factor marine]> factors,
               tips ++ water_temp_tips (get marine "sea_surface_temp"))
    else None.
Proof.
  unfold score_water_temp, water_temp_factor, water_temp_tips.
  run_classify. do 2 f_equal.
  destruct (get marine "sea_surface_temp") as [t|]; [|by rewrite app_nil_r].
  rewrite !Qltb_decide.
  repeat case_bool_decide; repeat case_decide;
    try done; by rewrite ?app_nil_r.
Qed.

Lemma score_wave_height_run marine factors tips :
  score_wave_height marine factors tips
  = if returns (_classify (get marine "wave_height") WAVE_HEIGHT_LABELS)
    then Some (<["wave_height" := wave_height_factor marine]> factors,
               tips ++ wave_tips (get marine "wave_height"))
    else None.
Proof.
  unfold score_wave_height, wave_height_factor, wave_tips.
  run_classify. do 2 f_equal.
  destruct (get marine "wave_height") as [h|]; [|by rewrite app_nil_r].
  rewrite !Qgeb_decide.
  change (py_float 2.5) with (5 # 2). change (py_float 1.5) with (3 # 2).
  repeat case_bool_decide; repeat case_decide;
    try done; by rewrite ?app_nil_r.
Qed.

(** The bar of the wind speed is computed without error. *)
Definition wind_bar_returns (weather : Reading) : bool :=
  match get weather "wind_speed" with
  | Some s => returns (_wind_bar s)
  | None => true
  end.

Lemma score_wind_speed_run weather factors tips :
  score_wind_speed weather factors tips
  = if returns (_classify (get weather "wind_speed") WIND_SPEED_LABELS)
       && wind_bar_returns weather
    then Some (<["wind_speed" := wind_speed_factor weather]> factors,
               tips ++ wind_tips (get weather "wind_speed"))
    else None.
Proof.
  unfold score_wind_speed, wind_speed_factor, wind_tips, wind_bar_returns.
  run_classify.
  destruct (get weather "wind_speed") as [s|];
    [|cbn [mbind option_bind]; by rewrite app_nil_r].
  rewrite (_wind_bar_run s).
  destruct (returns (_wind_bar s)); cbn [mbind option_bind]; [|reflexivity].
  do 2 f_equal. rewrite !Qgeb_decide.
  repeat case_bool_decide; repeat case_decide;
    try done; by rewrite ?app_nil_r.
Qed.

Lemma score_uv_index_run weather factors tips :
  score_uv_index weather factors tips
  = if returns (_classify (get weather "uv_index") UV_INDEX_LABELS)
    then Some (<["uv_index" := uv_index_factor weather]> factors,
               tips ++ uv_tips (get weather "uv_index"))
    else None.
Proof.
  unfold score_uv_index, uv_index_factor, uv_tips.
  run_classify. do 2 f_equal.
  destruct (get weather "uv_index") as [u|]; [|by rewrite app_nil_r].
  rewrite !Qgeb_decide.
  repeat case_bool_decide; repeat case_decide;
    try done; by rewrite ?app_nil_r.
Qed.

Lemma score_precipitation_run weather factors tips :
  score_precipitation weather factors tips
  = if returns (_classify (Some (get_or_0 weather "precipitation"))
                  PRECIP_LABELS)
    then Some (<["precipitation" := precipitation_factor weather]> factors,
               tips)
    else None.
Proof.
  unfold score_precipitation, precipitation_factor.
  run_classify. reflexivity.
Qed.

Lemma score_weather_code_run weather factors tips :
  score_weather_code weather factors tips
  = Some (<["weather_code" := weather_code_factor weather]> factors,
          tips ++ weather_tips (get_or_0 weather "weather_code")).
Proof.
  unfold score_weather_code, weather_code_factor, weather_tips,
    weather_code_verdict, weather_description.
  destruct (code_in (get_or_0 weather "weather_code")
              DANGEROUS_WEATHER_CODES); [done|].
  rewrite app_nil_r.
  by destruct (code_in (get_or_0 weather "weather_code")
                 WARNING_WEATHER_CODES).
Qed.

(** No block of [evaluate_conditions] raises. *)
Definition evaluation_returns (marine weather : Reading) : bool :=
  returns (_classify (get marine "sea_surface_temp") WATER_TEMP_LABELS)
  && returns (_classify (get marine "wave_height") WAVE_HEIGHT_LABELS)
  && (returns (_classify (get weather "wind_speed") WIND_SPEED_LABELS)
      && wind_bar_returns weather)
  && returns (_classify (get weather "uv_index") UV_INDEX_LABELS)
  && returns (_classify (Some (get_or_0 weather "precipitation"))
                PRECIP_LABELS).

(** What [evaluate_conditions] returns when it returns. *)
Definition expected_result (safety_iter : list string)
    (marine weather : Reading) : Result :=
  {| r_verdict := _compute_verdict (expected_factors marine weather);
     r_factors := expected_factors marine weather;
     r_tips := expected_tips marine weather;
     r_summary :=
       _generate_summary safety_iter
         (_compute_verdict (expected_factors marine weather))
         (expected_factors marine weather) |}.

Lemma evaluate_conditions_run safety_iter marine weather :
  evaluate_conditions safety_iter marine weather
  = if evaluation_returns marine weather
    then Some (expected_result safety_iter marine weather)
    else None.
Proof.
  unfold evaluate_conditions, evaluation_returns.
  rewrite score_water_temp_run.
  destruct (returns (_classify (get marine "sea_surface_temp") _));
    cbn [mbind option_bind andb]; [|reflexivity].
  rewrite score_wave_height_run.
  destruct (returns (_classify (get marine "wave_height") _));
    cbn [mbind option_bind andb]; [|reflexivity].
  rewrite score_wind_speed_run.
  destruct (returns (_classify (get weather "wind_speed") _)
            && wind_bar_returns weather);
    cbn [mbind option_bind andb]; [|reflexivity].
  rewrite score_uv_index_run.
  destruct (returns (_classify (get weather "uv_index") _));
    cbn [mbind option_bind andb]; [|reflexivity].
  rewrite score_precipitation_run.
  destruct (returns (_classify (Some (get_or_0 weather "precipitation")) _));
    cbn [mbind option_bind andb]; [|reflexivity].
  rewrite score_weather_code_run. cbn [mbind option_bind].
  unfold expected_result, expected_tips.
  rewrite app_nil_l, <- !(assoc_L (++)).
  reflexivity.
Qed.

(** Whatever [evaluate_conditions] returns is [expected_result]. *)
Lemma evaluate_conditions_inv safety_iter marine weather r :
  evaluate_conditions safety_iter marine weather = Some r →
  r = expected_result safety_iter marine weather.
Proof.
  rewrite evaluate_conditions_run.
  destruct (evaluation_returns marine weather); [|discriminate].
  by intros [= <-].
Qed.

(** ** Measurements within the range of the floats *)

Definition fits_opt (value : option Q) : bool :=
  match value with Some v => fits_float v | None => true end.

(** Each of the five measurements that are classified is absent or fits a
    float: it is a float, or an int of magnitude below [FLOAT_LIMIT]. *)
Definition in_float_range (marine weather : Reading) : bool :=
  fits_opt (get marine "sea_surface_temp")
  && fits_opt (get marine "wave_height")
  && fits_opt (get weather "wind_speed")
  && fits_opt (get weather "uv_index")
  && fits_float (get_or_0 weather "precipitation").

Lemma classify_table_returns value table :
  table ∈ THRESHOLD_TABLES → fits_opt value = true →
  returns (_classify value table) = true.
Proof.
  intros Hin Hfits.
  pose proof tables_end_Inf as Hinf. rewrite Forall_forall in Hinf.
  pose proof tables_tame as Htame. rewrite Forall_forall in Htame.
  destruct (classify_returns value table (Htame _ Hin) (Hinf _ Hin))
    as [ratio ->]; [|reflexivity].
  by intros v ->.
Qed.

Lemma in_float_range_returns marine weather :
  in_float_range marine weather = true →
  evaluation_returns marine weather = true.
Proof.
  unfold in_float_range, evaluation_returns.
  intros ((((Hwt & Hwh)%andb_prop & Hws)%andb_prop & Huv)%andb_prop
          & Hpr)%andb_prop.
  rewrite !classify_table_returns
    by first [ assumption | exact Hpr
             | repeat first [ apply list_elem_of_here
                            | apply list_elem_of_further ] ].
  unfold wind_bar_returns. destruct (get weather "wind_speed") as [s|];
    [|reflexivity].
  by rewrite _wind_bar_returns.
Qed.

(** [evaluate_conditions] returns when the measurements fit. *)
Lemma evaluate_conditions_returns safety_iter marine weather :
  in_float_range marine weather = true →
  evaluate_conditions safety_iter marine weather
  = Some (expected_result safety_iter marine weather).
Proof.
  intros Hfit. rewrite evaluate_conditions_run.
  by rewrite (in_float_range_returns marine weather Hfit).
Qed.

Lemma expected_factors_lookup marine weather :
  expected_factors marine weather !! "water_temp"
  = Some (water_temp_factor marine)
  ∧ expected_factors marine weather !! "wave_height"
    = Some (wave_height_factor marine)
  ∧ expected_factors marine weather !! "wind_speed"
    = Some (wind_speed_factor weather)
  ∧ expected_factors marine weather !! "uv_index"
    = Some (uv_index_factor weather)
  ∧ expected_factors marine weather !! "precipitation"
    = Some (precipitation_factor weather)
  ∧ expected_factors marine weather !! "weather_code"
    = Some (weather_code_factor weather).
Proof. unfold expected_factors. repeat split; by simplify_map_eq. Qed.

(** No other key is stored. *)
Lemma expected_factors_dom marine weather :
  dom (expected_factors marine weather)
  = {[ "water_temp"; "wave_height"; "wind_speed"; "uv_index";
       "precipitation"; "weather_code" ]}.
Proof. unfold expected_factors. rewrite !dom_insert_L. set_solver. Qed.

Lemma expected_verdict_at marine weather :
  verdict_at (expected_factors marine weather) "wave_height"
  = (classified (get marine "wave_height") WAVE_HEIGHT_LABELS).2
  ∧ verdict_at (expected_factors marine weather) "wind_speed"
    = (classified (get weather "wind_speed") WIND_SPEED_LABELS).2
  ∧ verdict_at (expected_factors marine weather) "precipitation"
    = (classified (Some (get_or_0 weather "precipitation")) PRECIP_LABELS).2
  ∧ verdict_at (expected_factors marine weather) "weather_code"
    = Some (weather_code_verdict (get_or_0 weather "weather_code")).
Proof.
  destruct (expected_factors_lookup marine weather)
    as (_ & Hwh & Hws & _ & Hpr & Hwc).
  unfold verdict_at. by rewrite Hwh, Hws, Hpr, Hwc.
Qed.

Lemma safety_verdicts_unfold factors :
  safety_verdicts factors
  = [ verdict_at factors "wave_height"; verdict_at factors "wind_speed";
      verdict_at factors "precipitation"; verdict_at factors "weather_code" ].
Proof. reflexivity. Qed.

Lemma aggregate_NO vs : Some NO ∈ vs → aggregate vs = NO.
Proof. intros H. unfold aggregate. by rewrite decide_True. Qed.

Lemma aggregate_all_clear vs :
  Forall (λ v, v = None ∨ v = Some YES) vs → aggregate vs = YES.
Proof.
  intros Hall. unfold aggregate.
  assert (∀ v, v ≠ YES → occurrences v vs = 0) as Hzero.
  { intros v Hv. induction Hall as [|x l [->| ->] _ IH].
    - reflexivity.
    - by rewrite occurrences_cons, IH.
    - rewrite occurrences_cons, IH. unfold tally.
      rewrite decide_False; [done|congruence]. }
  rewrite decide_False.
  2:{ rewrite <- occurrences_pos, Hzero by done. lia. }
  rewrite decide_False by (rewrite Hzero by done; lia).
  rewrite decide_False by (rewrite Hzero by done; lia).
  done.
Qed.

(** * Properties of the evaluation *)

Lemma classified_wave_1_6 :
  classified (Some (py_float 1.6)) WAVE_HEIGHT_LABELS = ("Rough", Some MAYBE).
Proof. vm_compute. reflexivity. Qed.

Lemma classified_wind_35 :
  classified (Some 35%Q) WIND_SPEED_LABELS = ("Strong", Some MAYBE).
Proof. vm_compute. reflexivity. Qed.

(** [evaluate_conditions] returns when the measurements fit a float, and a
    returned result is [expected_result]: the common start of the proofs
    below. *)
Ltac returned_result r Hr :=
  split;
  [ intros Hfit; rewrite (evaluate_conditions_returns _ _ _ Hfit);
    by eexists
  | intros r Hr; apply evaluate_conditions_inv in Hr as ->;
    unfold expected_result ].

(** C1. [evaluate_conditions] returns whenever the measurements fit a float,
    and the overall verdict of every result it returns is the aggregation
    of the verdicts of the four safety factors wave_height, wind_speed,
    precipitation and weather_code, and of nothing else: NO if one of them
    is NO, otherwise NO if two or more are MAYBE, otherwise MAYBE if exactly
    one is MAYBE, otherwise YES.  Wave height 1.6 with wind speed 35.0 (each
    MAYBE) gives NO; wave height 1.6 with the other safety factors at YES
    gives MAYBE. *)
Theorem verdict_aggregates_safety_factors
    (safety_iter : list string) (marine weather : Reading) :
  (in_float_range marine weather = true →
   is_Some (evaluate_conditions safety_iter marine weather))
  ∧ ∀ r : Result,
      evaluate_conditions safety_iter marine weather = Some r →
      r_verdict r = aggregate (safety_verdicts (r_factors r))
      ∧ (get marine "wave_height" = Some (py_float 1.6) →
         get weather "wind_speed" = Some 35%Q →
         verdict_at (r_factors r) "wave_height" = Some MAYBE
         ∧ verdict_at (r_factors r) "wind_speed" = Some MAYBE
         ∧ r_verdict r = NO)
      ∧ (get marine "wave_height" = Some (py_float 1.6) →
         verdict_at (r_factors r) "wind_speed" = Some YES →
         verdict_at (r_factors r) "precipitation" = Some YES →
         verdict_at (r_factors r) "weather_code" = Some YES →
         verdict_at (r_factors r) "wave_height" = Some MAYBE
         ∧ r_verdict r = MAYBE).
Proof.
  returned_result r Hr.
  cbn [r_verdict r_factors]. rewrite compute_verdict_aggregate.
  split; [reflexivity|].
  destruct (expected_verdict_at marine weather) as (Hwh & Hws & Hpr & Hwc).
  rewrite safety_verdicts_unfold. split.
  - intros Hwave Hwind.
    rewrite Hwave, classified_wave_1_6 in Hwh.
    rewrite Hwind, classified_wind_35 in Hws.
    rewrite Hwh, Hws. do 2 (split; [reflexivity|]).
    unfold aggregate. case_decide; [done|].
    rewrite decide_True; [done|].
    rewrite !occurrences_cons. cbn [tally snd]. simpl. lia.
  - intros Hwave E2 E3 E4.
    rewrite Hwave, classified_wave_1_6 in Hwh.
    rewrite Hwh, E2, E3, E4. split; reflexivity.
Qed.

Lemma verdict_aggregates_safety_factors_witness :
  r_verdict <$>
    evaluate_conditions (elements SAFETY_FACTORS)
      {[ "wave_height" := Some (py_float 1.6) ]}
      {[ "wind_speed" := Some 35%Q ]}
  = Some NO
  ∧ r_verdict <$>
      evaluate_conditions (elements SAFETY_FACTORS)
        {[ "wave_height" := Some (py_float 1.6) ]}
        {[ "wind_speed" := Some 8%Q ]}
    = Some MAYBE.
Proof.
  split.
  - destruct (verdict_aggregates_safety_factors (elements SAFETY_FACTORS)
                {[ "wave_height" := Some (py_float 1.6) ]}
                {[ "wind_speed" := Some 35%Q ]}) as [Hret Hall].
    destruct Hret as [r Hr]; [vm_compute; reflexivity|].
    destruct (Hall r Hr) as (_ & Hescalate & _).
    rewrite Hr. simpl. f_equal. apply Hescalate; reflexivity.
  - destruct (verdict_aggregates_safety_factors (elements SAFETY_FACTORS)
                {[ "wave_height" := Some (py_float 1.6) ]}
                {[ "wind_speed" := Some 8%Q ]}) as [Hret Hall].
    destruct Hret as [r Hr]; [vm_compute; reflexivity|].
    destruct (Hall r Hr) as (_ & _ & Hsingle).
    rewrite Hr. simpl. f_equal.
    assert (r = default r (evaluate_conditions (elements SAFETY_FACTORS)
                {[ "wave_height" := Some (py_float 1.6) ]}
                {[ "wind_speed" := Some 8%Q ]})) as Hr' by (by rewrite Hr).
    apply Hsingle; [reflexivity|rewrite Hr'; vm_compute; reflexivity..].
Defined.

Lemma int_key_proper (p q : Q) : (p == q)%Q → int_key p = int_key q.
Proof. intros H. unfold int_key. by rewrite (Qred_complete p q H). Qed.

Lemma code_in_proper (p q : Q) table :
  (p == q)%Q → code_in p table = code_in q table.
Proof. intros H. unfold code_in, code_get. by rewrite (int_key_proper p q H). Qed.

Lemma weather_code_verdict_proper (p q : Q) :
  (p == q)%Q → weather_code_verdict p = weather_code_verdict q.
Proof.
  intros H. unfold weather_code_verdict.
  by rewrite !(code_in_proper p q _ H).
Qed.

(** C3. In every result that [evaluate_conditions] returns, and it returns
    whenever the measurements fit a float, the weather_code factor is
    classified by membership, the dangerous codes being looked up before the
    warning codes: NO for a dangerous code, otherwise MAYBE for a warning
    code, otherwise YES.  Code 95 gives the factor verdict NO and the
    overall verdict NO whatever the other measurements are; code 61 gives
    MAYBE; code 1 gives YES. *)
Theorem weather_code_by_membership
    (safety_iter : list string) (marine weather : Reading) :
  (in_float_range marine weather = true →
   is_Some (evaluate_conditions safety_iter marine weather))
  ∧ ∀ r : Result,
      evaluate_conditions safety_iter marine weather = Some r →
      (let code := get_or_0 weather "weather_code" in
       f_verdict <$> r_factors r !! "weather_code"
       = Some (Some (if code_in code DANGEROUS_WEATHER_CODES then NO
                     else if code_in code WARNING_WEATHER_CODES then MAYBE
                     else YES)))
      ∧ ((get_or_0 weather "weather_code" == 95)%Q →
         verdict_at (r_factors r) "weather_code" = Some NO
         ∧ r_verdict r = NO)
      ∧ ((get_or_0 weather "weather_code" == 61)%Q →
         verdict_at (r_factors r) "weather_code" = Some MAYBE)
      ∧ ((get_or_0 weather "weather_code" == 1)%Q →
         verdict_at (r_factors r) "weather_code" = Some YES).
Proof.
  returned_result r Hr.
  cbn [r_verdict r_factors]. rewrite compute_verdict_aggregate.
  destruct (expected_factors_lookup marine weather) as (_ & _ & _ & _ & _ & Hwc).
  destruct (expected_verdict_at marine weather) as (_ & _ & _ & Hv).
  split; [by rewrite Hwc|]. rewrite Hv.
  split; [|split]; intros Hcode;
    rewrite (weather_code_verdict_proper _ _ Hcode).
  - split; [reflexivity|]. apply aggregate_NO.
    rewrite safety_verdicts_unfold, Hv.
    rewrite (weather_code_verdict_proper _ _ Hcode). set_solver.
  - reflexivity.
  - reflexivity.
Qed.

Lemma weather_code_by_membership_witness :
  r_verdict <$>
    evaluate_conditions (elements SAFETY_FACTORS)
      {[ "wave_height" := Some (py_float 0.3) ]}
      {[ "weather_code" := Some 95%Q ]}
  = Some NO.
Proof.
  destruct (weather_code_by_membership (elements SAFETY_FACTORS)
              {[ "wave_height" := Some (py_float 0.3) ]}
              {[ "weather_code" := Some 95%Q ]}) as [Hret Hall].
  destruct Hret as [r Hr]; [vm_compute; reflexivity|].
  destruct (Hall r Hr) as (_ & Hstorm & _).
  rewrite Hr. simpl. f_equal. apply Hstorm. reflexivity.
Defined.

(** ** Absent measurements *)

(** Which reading a factor is measured from. *)
Inductive Source := Marine | Weather.

(** The six tracked factors: key in [factors], reading and field. *)
Definition tracked : list (string * Source * string) :=
  [ ("water_temp", Marine, "sea_surface_temp");
    ("wave_height", Marine, "wave_height");
    ("wind_speed", Weather, "wind_speed");
    ("uv_index", Weather, "uv_index");
    ("precipitation", Weather, "precipitation");
    ("weather_code", Weather, "weather_code") ].

Definition measurement (marine weather : Reading) (src : Source)
    (field : string) : option Q :=
  get (match src with Marine => marine | Weather => weather end) field.

Lemma get_or_0_absent (d : Reading) key : get d key = None → get_or_0 d key = 0%Q.
Proof. unfold get, get_or_0. by destruct (d !! key) as [[v|]|]. Qed.

Lemma classified_absent table : classified None table = ("Unknown", None).
Proof. reflexivity. Qed.

Lemma classified_precip_0 :
  classified (Some 0%Q) PRECIP_LABELS = ("None", Some YES).
Proof. vm_compute. reflexivity. Qed.

Lemma weather_code_0 :
  weather_description 0 = "Clear sky" ∧ weather_code_verdict 0 = YES.
Proof. split; vm_compute; reflexivity. Qed.

(** C4, as stated, fails: with both readings empty the precipitation
    measurement is absent, yet its factor has label "None" and verdict YES,
    not label "Unknown" and no verdict. *)
Lemma absent_precipitation_not_unknown :
  measurement ∅ ∅ Weather "precipitation" = None
  ∧ ∃ (r : Result) (f : Factor),
      evaluate_conditions (elements SAFETY_FACTORS) ∅ ∅ = Some r
      ∧ r_factors r !! "precipitation" = Some f
      ∧ f_label f = "None"
      ∧ f_verdict f = Some YES
      ∧ ¬ (f_label f = "Unknown" ∧ f_verdict f = None).
Proof.
  split; [reflexivity|].
  rewrite (evaluate_conditions_returns _ ∅ ∅) by (vm_compute; reflexivity).
  do 2 eexists. split; [reflexivity|].
  unfold expected_result. cbn [r_factors].
  destruct (expected_factors_lookup ∅ ∅) as (_ & _ & _ & _ & Hpr & _).
  split; [exact Hpr|].
  split; [vm_compute; reflexivity|].
  split; [vm_compute; reflexivity|].
  intros [_ Hv]. vm_compute in Hv. discriminate.
Qed.

Lemma tracked_cases key src field :
  (key, src, field) ∈ tracked →
  (key = "water_temp" ∧ src = Marine ∧ field = "sea_surface_temp")
  ∨ (key = "wave_height" ∧ src = Marine ∧ field = "wave_height")
  ∨ (key = "wind_speed" ∧ src = Weather ∧ field = "wind_speed")
  ∨ (key = "uv_index" ∧ src = Weather ∧ field = "uv_index")
  ∨ (key = "precipitation" ∧ src = Weather ∧ field = "precipitation")
  ∨ (key = "weather_code" ∧ src = Weather ∧ field = "weather_code").
Proof.
  unfold tracked. rewrite !elem_of_cons, elem_of_nil.
  intros [H|[H|[H|[H|[H|[H|[]]]]]]]; injection H as -> -> ->; tauto.
Qed.

Lemma all_clear_YES marine weather :
  (∀ k, k ∈ safety_keys →
     verdict_at (expected_factors marine weather) k = None
     ∨ verdict_at (expected_factors marine weather) k = Some YES) →
  _compute_verdict (expected_factors marine weather) = YES.
Proof.
  intros Hall. rewrite compute_verdict_aggregate.
  apply aggregate_all_clear. unfold safety_verdicts.
  apply Forall_fmap, Forall_forall. intros k Hk. by apply Hall.
Qed.

(** C4, amended.  In every result that [evaluate_conditions] returns, and
    it returns whenever the measurements fit a float: for water temperature,
    wave height, wind speed and UV index an absent measurement is stored as
    [None] and gives the label "Unknown" and no verdict.  An absent
    precipitation or weather code is read as 0, stored as 0, and gives the
    labels "None" and "Clear sky" with verdict YES.  For each of the six
    factors an absent measurement does not by itself move the overall
    verdict away from YES: when no other safety factor is MAYBE or NO, the
    overall verdict is YES. *)
Theorem absent_measurement_neutral
    (safety_iter : list string) (marine weather : Reading)
    (key : string) (src : Source) (field : string) :
  (key, src, field) ∈ tracked →
  measurement marine weather src field = None →
  (in_float_range marine weather = true →
   is_Some (evaluate_conditions safety_iter marine weather))
  ∧ ∀ r : Result,
      evaluate_conditions safety_iter marine weather = Some r →
      ∃ f : Factor,
        r_factors r !! key = Some f
        ∧ (key ∈ ["water_temp"; "wave_height"; "wind_speed"; "uv_index"] →
           f_value f = None ∧ f_label f = "Unknown" ∧ f_verdict f = None)
        ∧ (key = "precipitation" →
           f_value f = Some 0%Q ∧ f_label f = "None"
           ∧ f_verdict f = Some YES)
        ∧ (key = "weather_code" →
           f_value f = Some 0%Q ∧ f_label f = "Clear sky"
           ∧ f_verdict f = Some YES)
        ∧ ((∀ k, k ∈ safety_keys → k ≠ key →
              verdict_at (r_factors r) k = None
              ∨ verdict_at (r_factors r) k = Some YES) →
           r_verdict r = YES).
Proof.
  intros Hin Habsent.
  returned_result r Hr. cbn [r_factors r_verdict].
  destruct (expected_factors_lookup marine weather)
    as (Hwt & Hwh & Hws & Huv & Hpr & Hwc).
  pose proof (all_clear_YES marine weather) as Hclear.
  unfold measurement in Habsent.
  apply tracked_cases in Hin
    as [(-> & -> & ->)|[(-> & -> & ->)|[(-> & -> & ->)|[(-> & -> & ->)
       |[(-> & -> & ->)|(-> & -> & ->)]]]]].
  - (* water temperature *)
    eexists. split; [exact Hwt|].
    unfold water_temp_factor, f_value, f_label, f_verdict.
    rewrite Habsent.
    split; [intros _; repeat split|].
    split; [intros H; discriminate H|]. split; [intros H; discriminate H|].
    intros Hothers. apply Hclear. intros k Hk. apply Hothers; [exact Hk|].
    unfold safety_keys in Hk. set_solver.
  - (* wave height *)
    eexists. split; [exact Hwh|].
    unfold wave_height_factor, f_value, f_label, f_verdict.
    rewrite Habsent.
    split; [intros _; repeat split|].
    split; [intros H; discriminate H|]. split; [intros H; discriminate H|].
    intros Hothers. apply Hclear. intros k Hk.
    destruct (decide (k = "wave_height")) as [->|Hne];
      [|by apply Hothers].
    left. unfold verdict_at. rewrite Hwh. unfold wave_height_factor.
    rewrite Habsent. reflexivity.
  - (* wind speed *)
    eexists. split; [exact Hws|].
    unfold wind_speed_factor, f_value, f_label, f_verdict.
    rewrite Habsent.
    split; [intros _; repeat split|].
    split; [intros H; discriminate H|]. split; [intros H; discriminate H|].
    intros Hothers. apply Hclear. intros k Hk.
    destruct (decide (k = "wind_speed")) as [->|Hne];
      [|by apply Hothers].
    left. unfold verdict_at. rewrite Hws. unfold wind_speed_factor.
    rewrite Habsent. reflexivity.
  - (* UV index *)
    eexists. split; [exact Huv|].
    unfold uv_index_factor, f_value, f_label, f_verdict.
    rewrite Habsent.
    split; [intros _; repeat split|].
    split; [intros H; discriminate H|]. split; [intros H; discriminate H|].
    intros Hothers. apply Hclear. intros k Hk. apply Hothers; [exact Hk|].
    unfold safety_keys in Hk. set_solver.
  - (* precipitation *)
    eexists. split; [exact Hpr|].
    unfold precipitation_factor, f_value, f_label, f_verdict.
    rewrite (get_or_0_absent _ _ Habsent), classified_precip_0.
    split; [intros H; exfalso; set_solver|].
    split; [intros _; repeat split|].
    split; [intros H; discriminate H|].
    intros Hothers. apply Hclear. intros k Hk.
    destruct (decide (k = "precipitation")) as [->|Hne];
      [|by apply Hothers].
    right. unfold verdict_at. rewrite Hpr. unfold precipitation_factor.
    rewrite (get_or_0_absent _ _ Habsent), classified_precip_0. reflexivity.
  - (* weather code *)
    eexists. split; [exact Hwc|].
    unfold weather_code_factor, f_value, f_label, f_verdict.
    rewrite (get_or_0_absent _ _ Habsent).
    destruct weather_code_0 as [-> ->].
    split; [intros H; exfalso; set_solver|].
    split; [intros H; discriminate H|].
    split; [intros _; repeat split|].
    intros Hothers. apply Hclear. intros k Hk.
    destruct (decide (k = "weather_code")) as [->|Hne];
      [|by apply Hothers].
    right. unfold verdict_at. rewrite Hwc. unfold weather_code_factor.
    rewrite (get_or_0_absent _ _ Habsent).
    destruct weather_code_0 as [_ ->]. reflexivity.
Qed.

Lemma absent_measurement_neutral_witness :
  ∃ (r : Result) (f : Factor),
    evaluate_conditions (elements SAFETY_FACTORS) ∅ ∅ = Some r
    ∧ r_factors r !! "precipitation" = Some f
    ∧ f_value f = Some 0%Q ∧ f_label f = "None" ∧ f_verdict f = Some YES.
Proof.
  destruct (absent_measurement_neutral (elements SAFETY_FACTORS) ∅ ∅
              "precipitation" Weather "precipitation") as [Hret Hall].
  - do 4 apply list_elem_of_further. apply list_elem_of_here.
  - reflexivity.
  - destruct Hret as [r Hr]; [vm_compute; reflexivity|].
    destruct (Hall r Hr) as (f & Hf & _ & Hzero & _).
    exists r, f. split; [exact Hr|]. split; [exact Hf|].
    apply Hzero. reflexivity.
Defined.

(** ** Informational factors *)

Lemma get_insert_ne (d : Reading) key key' v :
  key ≠ key' → get (<[key := v]> d) key' = get d key'.
Proof. intros Hne. unfold get. by rewrite lookup_insert_ne. Qed.

Lemma get_or_0_insert_ne (d : Reading) key key' v :
  key ≠ key' → get_or_0 (<[key := v]> d) key' = get_or_0 d key'.
Proof. intros Hne. unfold get_or_0. by rewrite lookup_insert_ne. Qed.

Lemma aggregate_all_YES vs :
  Forall (λ v, v = Some YES) vs → aggregate vs = YES.
Proof.
  intros Hall. apply aggregate_all_clear.
  eapply Forall_impl; [exact Hall|]. intros v ->. by right.
Qed.

(** C5. Whatever the water temperature and the UV index are, in every
    result that [evaluate_conditions] returns, and it returns whenever the
    measurements fit a float, the water_temp and uv_index factors carry no
    verdict and take no part in the aggregation: when the four safety
    factors are YES the overall verdict is YES, and replacing the water
    temperature and the UV index changes neither the verdicts of the safety
    factors nor the overall verdict. *)
Theorem informational_factors_ignored
    (safety_iter : list string) (marine weather : Reading)
    (temp uv : option Q) :
  let marine' := <["sea_surface_temp" := temp]> marine in
  let weather' := <["uv_index" := uv]> weather in
  (in_float_range marine' weather' = true →
   is_Some (evaluate_conditions safety_iter marine' weather'))
  ∧ (∀ r' : Result,
       evaluate_conditions safety_iter marine' weather' = Some r' →
       f_verdict <$> r_factors r' !! "water_temp" = Some None
       ∧ f_verdict <$> r_factors r' !! "uv_index" = Some None
       ∧ (Forall (λ v, v = Some YES) (safety_verdicts (r_factors r')) →
          r_verdict r' = YES))
  ∧ (∀ r r' : Result,
       evaluate_conditions safety_iter marine weather = Some r →
       evaluate_conditions safety_iter marine' weather' = Some r' →
       safety_verdicts (r_factors r') = safety_verdicts (r_factors r)
       ∧ r_verdict r' = r_verdict r).
Proof.
  intros marine' weather'.
  destruct (expected_factors_lookup marine' weather')
    as (Hwt & _ & _ & Huv & _ & _).
  assert (safety_verdicts (expected_factors marine' weather')
          = safety_verdicts (expected_factors marine weather)) as Hsame.
  { rewrite !safety_verdicts_unfold.
    destruct (expected_verdict_at marine weather) as (-> & -> & -> & ->).
    destruct (expected_verdict_at marine' weather') as (-> & -> & -> & ->).
    unfold marine', weather'.
    rewrite get_insert_ne by (intros H; discriminate H).
    rewrite get_insert_ne by (intros H; discriminate H).
    rewrite !get_or_0_insert_ne by (intros H; discriminate H).
    reflexivity. }
  split.
  { intros Hfit. rewrite (evaluate_conditions_returns _ _ _ Hfit).
    by eexists. }
  split.
  - intros r' Hr'. apply evaluate_conditions_inv in Hr' as ->.
    unfold expected_result, r_factors, r_verdict.
    split; [rewrite Hwt; reflexivity|].
    split; [rewrite Huv; reflexivity|].
    rewrite compute_verdict_aggregate. apply aggregate_all_YES.
  - intros r r' Hr Hr'.
    apply evaluate_conditions_inv in Hr as ->.
    apply evaluate_conditions_inv in Hr' as ->.
    unfold expected_result, r_factors, r_verdict.
    split; [exact Hsame|].
    rewrite !compute_verdict_aggregate. by rewrite Hsame.
Qed.

Lemma informational_factors_ignored_witness :
  r_verdict <$>
    evaluate_conditions (elements SAFETY_FACTORS)
      (<["sea_surface_temp" := Some 8%Q]>
         {[ "wave_height" := Some (py_float 0.3) ]})
      (<["uv_index" := Some 11%Q]> {[ "wind_speed" := Some 5%Q ]})
  = Some YES.
Proof.
  destruct (informational_factors_ignored (elements SAFETY_FACTORS)
              {[ "wave_height" := Some (py_float 0.3) ]}
              {[ "wind_speed" := Some 5%Q ]} (Some 8%Q) (Some 11%Q))
    as (Hret & Hinfo & _).
  destruct Hret as [r' Hr']; [vm_compute; reflexivity|].
  destruct (Hinfo r' Hr') as (_ & _ & Hyes).
  rewrite Hr'. simpl. f_equal. apply Hyes.
  apply evaluate_conditions_inv in Hr' as ->.
  unfold expected_result, r_factors. vm_compute. repeat constructor.
Defined.

(** * Properties of the summary *)

(** [f["label"]] of the factor stored under [key]. *)
Definition label_at (factors : gmap string Factor) (key : string) : string :=
  default "" (f_label <$> factors !! key).

(** ["{label-lowercased} {factor-name}"] *)
Definition phrase (factors : gmap string Factor) (key : string) : string :=
  lower (label_at factors key) +:+ " " +:+ _factor_name key.

Lemma collect_filter keep factors keys acc :
  keep None = false →
  collect keep factors keys acc
  = acc ++ (phrase factors
              <$> filter (λ key, keep (verdict_at factors key) = true) keys).
Proof.
  intros Hnone. revert acc.
  induction keys as [|key keys IH]; intros acc.
  { simpl. by rewrite app_nil_r. }
  rewrite filter_cons. simpl.
  assert (verdict_at factors key
          = match factors !! key with
            | Some f => f_verdict f
            | None => None
            end) as Hva.
  { unfold verdict_at. by destruct (factors !! key). }
  destruct (factors !! key) as [f|] eqn:Hf.
  - destruct (keep (f_verdict f)) eqn:Hkeep.
    + rewrite decide_True by (by rewrite Hva). rewrite IH, fmap_cons.
      rewrite <- (assoc_L (++)). simpl. do 2 f_equal.
      unfold phrase, describe, label_at. by rewrite Hf.
    + rewrite decide_False by (rewrite Hva, Hkeep; discriminate). apply IH.
  - rewrite decide_False by (rewrite Hva, Hnone; discriminate).
    apply IH.
Qed.

Lemma is_maybe_spec v : is_maybe v = true ↔ v = Some MAYBE.
Proof. destruct v as [[]|]; simpl; split; congruence. Qed.

Lemma is_no_or_maybe_spec v :
  is_no_or_maybe v = true ↔ v = Some NO ∨ v = Some MAYBE.
Proof.
  destruct v as [[]|]; simpl; split; try congruence; try tauto;
    intros [H|H]; congruence.
Qed.

Lemma collect_maybe factors keys :
  collect is_maybe factors keys []
  = phrase factors
      <$> filter (λ key, verdict_at factors key = Some MAYBE) keys.
Proof.
  rewrite collect_filter by reflexivity. rewrite app_nil_l. f_equal.
  apply list_filter_iff. intros key. apply is_maybe_spec.
Qed.

Lemma collect_no_or_maybe factors keys :
  collect is_no_or_maybe factors keys []
  = phrase factors
      <$> filter (λ key, verdict_at factors key = Some NO
                         ∨ verdict_at factors key = Some MAYBE) keys.
Proof.
  rewrite collect_filter by reflexivity. rewrite app_nil_l. f_equal.
  apply list_filter_iff. intros key. apply is_no_or_maybe_spec.
Qed.

Lemma fmap_nil_inv' {A B} (f : A → B) (l : list A) :
  f <$> l = [] ↔ l = [].
Proof. destruct l; simpl; split; congruence. Qed.

Section Summary.

Context (safety_iter : list string).
Hypothesis safety_iter_set : safety_iter ≡ₚ elements SAFETY_FACTORS.

Lemma safety_iter_elem key : key ∈ safety_iter ↔ key ∈ SAFETY_FACTORS.
Proof. rewrite safety_iter_set. apply elem_of_elements. Qed.

Lemma safety_iter_NoDup : NoDup safety_iter.
Proof. rewrite safety_iter_set. apply NoDup_elements. Qed.

(** C6. The summary is "Beach is open. Go swim!" for YES.  For MAYBE it is
    "Swim with caution: ", the phrases "{label-lowercased} {factor-name}" of
    every safety factor whose verdict is MAYBE joined with ", ", and a final
    period, or "Conditions are mixed. Swim with caution." when there is no
    such factor.  For NO it is "Beach closed: ", the first two phrases of
    the safety factors whose verdict is NO or MAYBE joined with ", ", and a
    final period, or "Not safe to swim." when there is none.  The factor
    names are waves, wind, rain and weather.  Each safety factor is visited
    once, in the iteration order of the set. *)
Theorem summary_sentence (verdict : Verdict) (factors : gmap string Factor) :
  let maybes :=
    filter (λ key, verdict_at factors key = Some MAYBE) safety_iter in
  let flagged :=
    filter (λ key, verdict_at factors key = Some NO
                   ∨ verdict_at factors key = Some MAYBE) safety_iter in
  _generate_summary safety_iter verdict factors
  = match verdict with
    | YES => "Beach is open. Go swim!"
    | MAYBE =>
        if decide (maybes = [])
        then "Conditions are mixed. Swim with caution."
        else "Swim with caution: "
             +:+ String.concat ", " (phrase factors <$> maybes) +:+ "."
    | NO =>
        if decide (flagged = [])
        then "Not safe to swim."
        else "Beach closed: "
             +:+ String.concat ", " (take 2 (phrase factors <$> flagged))
             +:+ "."
    end
  ∧ (∀ key, key ∈ maybes ↔
            key ∈ SAFETY_FACTORS ∧ verdict_at factors key = Some MAYBE)
  ∧ (∀ key, key ∈ flagged ↔
            key ∈ SAFETY_FACTORS
            ∧ (verdict_at factors key = Some NO
               ∨ verdict_at factors key = Some MAYBE))
  ∧ NoDup maybes ∧ NoDup flagged
  ∧ _factor_name "wave_height" = "waves"
  ∧ _factor_name "wind_speed" = "wind"
  ∧ _factor_name "precipitation" = "rain"
  ∧ _factor_name "weather_code" = "weather".
Proof.
  intros maybes flagged. split.
  { unfold _generate_summary. destruct verdict; [reflexivity| |].
    - rewrite collect_maybe. fold maybes.
      destruct (decide (maybes = [])) as [->|Hne]; [reflexivity|].
      destruct maybes; [congruence|reflexivity].
    - rewrite collect_no_or_maybe. fold flagged.
      destruct (decide (flagged = [])) as [->|Hne]; [reflexivity|].
      destruct flagged; [congruence|reflexivity]. }
  split.
  { intros key. unfold maybes. rewrite list_elem_of_filter, safety_iter_elem.
    tauto. }
  split.
  { intros key. unfold flagged.
    rewrite list_elem_of_filter, safety_iter_elem. tauto. }
  split; [apply NoDup_filter, safety_iter_NoDup|].
  split; [apply NoDup_filter, safety_iter_NoDup|].
  repeat split; vm_compute; reflexivity.
Qed.

End Summary.

Lemma summary_sentence_witness :
  _generate_summary (elements SAFETY_FACTORS) MAYBE
    {[ "wave_height" := mkFactor (Some (py_float 1.6)) "m" "Rough"
                          (Some MAYBE) 7 ]}
  = "Swim with caution: rough waves.".
Proof.
  destruct (summary_sentence (elements SAFETY_FACTORS)
              (reflexivity (elements SAFETY_FACTORS)) MAYBE
              {[ "wave_height" := mkFactor (Some (py_float 1.6)) "m" "Rough"
                                    (Some MAYBE) 7 ]}) as [Hsum _].
  rewrite Hsum. vm_compute. reflexivity.
Defined.

(** * Properties of the advice *)

(** C7. [evaluate_conditions] returns whenever the measurements fit a
    float, and the tips of every result it returns are, in this order and
    without sorting or removing anything: for the water temperature "very cold" below 15 else "cold"
    below 18; for the waves "dangerous" from 2.5 else "rough" from 1.5; for
    the wind "strong winds" from 40; for the UV index the tips from 8, else
    from 6, else from 3; for the weather the tip of a dangerous code with
    its description.  The list is a function of the readings. *)
Theorem tips_in_fixed_order
    (safety_iter : list string) (marine weather : Reading) :
  (in_float_range marine weather = true →
   is_Some (evaluate_conditions safety_iter marine weather))
  ∧ ∀ r : Result,
    evaluate_conditions safety_iter marine weather = Some r →
    r_tips r
      = match get marine "sea_surface_temp" with
        | Some t =>
            if decide (t < 15)%Q
            then ["Water is very cold. Consider a wetsuit."]
            else if decide (t < 18)%Q
            then ["Water is cold. A wetsuit may help."]
            else []
        | None => []
        end
        ++ match get marine "wave_height" with
           | Some h =>
               if decide (5 # 2 <= h)%Q
               then ["Dangerous waves. Red flag conditions."]
               else if decide (3 # 2 <= h)%Q
               then ["Rough waves. Experienced swimmers only."]
               else []
           | None => []
           end
        ++ match get weather "wind_speed" with
           | Some s =>
               if decide (40 <= s)%Q
               then ["Strong winds create dangerous rip currents."]
               else []
           | None => []
           end
        ++ match get weather "uv_index" with
           | Some u =>
               if decide (8 <= u)%Q
               then ["Very high UV. Wear sunscreen SPF 50+ and reapply often."]
               else if decide (6 <= u)%Q then ["High UV. Wear sunscreen."]
               else if decide (3 <= u)%Q
               then ["Moderate UV. Sunscreen recommended."]
               else []
           | None => []
           end
        ++ (if code_in (get_or_0 weather "weather_code")
                 DANGEROUS_WEATHER_CODES
            then ["Dangerous weather: "
                  +:+ default "Unknown"
                        (code_get WMO_WEATHER_DESCRIPTIONS
                           (get_or_0 weather "weather_code"))
                  +:+ ". Beach closed."]
            else []).
Proof.
  returned_result r Hr. reflexivity.
Qed.

Lemma tips_in_fixed_order_witness :
  r_tips <$>
    evaluate_conditions (elements SAFETY_FACTORS)
      (<["sea_surface_temp" := Some 14%Q]>
         {[ "wave_height" := Some (py_float 2.0) ]})
      {[ "uv_index" := Some 9%Q ]}
  = Some [ "Water is very cold. Consider a wetsuit.";
           "Rough waves. Experienced swimmers only.";
           "Very high UV. Wear sunscreen SPF 50+ and reapply often." ].
Proof.
  destruct (tips_in_fixed_order (elements SAFETY_FACTORS)
              (<["sea_surface_temp" := Some 14%Q]>
                 {[ "wave_height" := Some (py_float 2.0) ]})
              {[ "uv_index" := Some 9%Q ]}) as [Hret Hall].
  destruct Hret as [r Hr]; [vm_compute; reflexivity|].
  rewrite Hr. cbn [fmap option_fmap option_map]. f_equal.
  rewrite (Hall r Hr). vm_compute. reflexivity.
Defined.

(** * The fallback of the MAYBE summary *)

Lemma aggregate_MAYBE vs : aggregate vs = MAYBE → Some MAYBE ∈ vs.
Proof.
  unfold aggregate. repeat case_decide; try discriminate. intros _.
  apply occurrences_pos. lia.
Qed.

Section Fallback.

Context (safety_iter : list string).
Hypothesis safety_iter_set : safety_iter ≡ₚ elements SAFETY_FACTORS.

Lemma maybe_factor_listed (factors : gmap string Factor) :
  _compute_verdict factors = MAYBE →
  ∃ key, key ∈ SAFETY_FACTORS
         ∧ verdict_at factors key = Some MAYBE
         ∧ key ∈ filter (λ key, verdict_at factors key = Some MAYBE)
                    safety_iter.
Proof.
  rewrite compute_verdict_aggregate. intros Hin%aggregate_MAYBE.
  unfold safety_verdicts in Hin.
  apply list_elem_of_fmap in Hin as (key & Hkey & Hin).
  assert (key ∈ SAFETY_FACTORS) as Hsafe.
  { rewrite <- elem_of_elements, <- safety_keys_elements. exact Hin. }
  exists key. split; [exact Hsafe|]. split; [by symmetry|].
  apply list_elem_of_filter. split; [by symmetry|].
  by apply (safety_iter_elem safety_iter safety_iter_set).
Qed.

(** C8. [evaluate_conditions] returns whenever the measurements fit a
    float.  In every result it returns, whenever the overall verdict is
    MAYBE, a safety factor has the verdict MAYBE when the summary is
    generated, so the list of issues is not empty; the fallback "Conditions
    are mixed. Swim with caution." is never the summary returned by
    [evaluate_conditions]. *)
Theorem maybe_fallback_unreachable (marine weather : Reading) :
  (in_float_range marine weather = true →
   is_Some (evaluate_conditions safety_iter marine weather))
  ∧ ∀ r : Result,
      evaluate_conditions safety_iter marine weather = Some r →
      (r_verdict r = MAYBE →
       (∃ key, key ∈ SAFETY_FACTORS
               ∧ verdict_at (r_factors r) key = Some MAYBE)
       ∧ collect is_maybe (r_factors r) safety_iter [] ≠ [])
      ∧ r_summary r ≠ "Conditions are mixed. Swim with caution.".
Proof.
  returned_result r Hr.
  unfold r_verdict, r_factors, r_summary.
  generalize (expected_factors marine weather). intros factors.
  assert (_compute_verdict factors = MAYBE →
          collect is_maybe factors safety_iter [] ≠ []) as Hissues.
  { intros Hmaybe.
    destruct (maybe_factor_listed factors Hmaybe) as (key & _ & _ & Hin).
    rewrite collect_maybe. intros Hnil%fmap_nil_inv'.
    rewrite Hnil in Hin. apply elem_of_nil in Hin. exact Hin. }
  split.
  - intros Hmaybe. split; [|exact (Hissues Hmaybe)].
    destruct (maybe_factor_listed factors Hmaybe) as (key & Hs & Hv & _).
    exists key. split; [exact Hs | exact Hv].
  - unfold _generate_summary.
    destruct (_compute_verdict factors) eqn:Hverdict.
    + intros H; discriminate H.
    + specialize (Hissues eq_refl).
      destruct (collect is_maybe factors safety_iter []);
        [contradiction|].
      intros H; discriminate H.
    + destruct (collect is_no_or_maybe factors safety_iter []);
        intros H; discriminate H.
Qed.

End Fallback.

Lemma maybe_fallback_unreachable_witness :
  ∃ r : Result,
    evaluate_conditions (elements SAFETY_FACTORS)
      {[ "wave_height" := Some (py_float 1.6) ]}
      {[ "wind_speed" := Some 8%Q ]} = Some r
    ∧ r_summary r ≠ "Conditions are mixed. Swim with caution.".
Proof.
  destruct (maybe_fallback_unreachable (elements SAFETY_FACTORS)
              (reflexivity (elements SAFETY_FACTORS))
              {[ "wave_height" := Some (py_float 1.6) ]}
              {[ "wind_speed" := Some 8%Q ]}) as [Hret Hall].
  destruct Hret as [r Hr]; [vm_compute; reflexivity|].
  destruct (Hall r Hr) as [_ Hsum].
  exists r. split; [exact Hr | exact Hsum].
Defined.

(** * Bar fill *)







(** C9 does not hold of the code.  For the reading
    [{"uv_index": -3, "precipitation": -3.5}] the uv_index and precipitation
    factors get the bar [min(10, int(value))], which is -3: the upper bound
    10 is enforced, the lower bound 0 is not. *)
Theorem bar_below_zero :
  ∃ (r : Result) (uv pr : Factor),
    evaluate_conditions (elements SAFETY_FACTORS) ∅
      (<["uv_index" := Some (-3)%Q]>
         {[ "precipitation" := Some (-7 # 2)%Q ]}) = Some r
    ∧ r_factors r !! "uv_index" = Some uv
    ∧ f_bar uv = (-3)%Z
    ∧ r_factors r !! "precipitation" = Some pr
    ∧ f_bar pr = (-3)%Z
    ∧ ¬ (0 ≤ f_bar uv ≤ 10)%Z
    ∧ ¬ (0 ≤ f_bar pr ≤ 10)%Z.
Proof.
  set (weather := <["uv_index" := Some (-3)%Q]>
                    {[ "precipitation" := Some (-7 # 2)%Q ]}).
  rewrite (evaluate_conditions_returns _ ∅ weather)
    by (vm_compute; reflexivity).
  destruct (expected_factors_lookup ∅ weather)
    as (_ & _ & _ & Huv & Hpr & _).
  exists (expected_result (elements SAFETY_FACTORS) ∅ weather),
    (uv_index_factor weather), (precipitation_factor weather).
  split; [reflexivity|]. unfold expected_result. cbn [r_factors].
  split; [exact Huv|].
  assert (f_bar (uv_index_factor weather) = (-3)%Z) as Hb1
    by (vm_compute; reflexivity).
  assert (f_bar (precipitation_factor weather) = (-3)%Z) as Hb2
    by (vm_compute; reflexivity).
  split; [exact Hb1|]. split; [exact Hpr|]. split; [exact Hb2|].
  rewrite Hb1, Hb2. split; lia.
Qed.

(** * Empty readings *)

(** C10. When every field of both readings is absent, [evaluate_conditions]
    returns the verdict YES with the summary "Beach is open. Go swim!": the
    absent precipitation and weather code are read as 0 and get the labels
    "None" and "Clear sky" with verdict YES, the absent wave height and wind
    speed get no verdict, so no safety factor is MAYBE or NO. *)
Theorem empty_readings_open
    (safety_iter : list string) (marine weather : Reading) :
  (∀ field, get marine field = None) →
  (∀ field, get weather field = None) →
  ∃ (r : Result) (wh ws pr wc : Factor),
    evaluate_conditions safety_iter marine weather = Some r
    ∧ r_verdict r = YES
    ∧ r_summary r = "Beach is open. Go swim!"
    ∧ r_factors r !! "precipitation" = Some pr
    ∧ f_value pr = Some 0%Q ∧ f_label pr = "None" ∧ f_verdict pr = Some YES
    ∧ r_factors r !! "weather_code" = Some wc
    ∧ f_value wc = Some 0%Q ∧ f_label wc = "Clear sky"
    ∧ f_verdict wc = Some YES
    ∧ r_factors r !! "wave_height" = Some wh ∧ f_verdict wh = None
    ∧ r_factors r !! "wind_speed" = Some ws ∧ f_verdict ws = None
    ∧ (Some MAYBE ∉ safety_verdicts (r_factors r))
    ∧ (Some NO ∉ safety_verdicts (r_factors r)).
Proof.
  intros Hmarine Hweather.
  assert (in_float_range marine weather = true) as Hfit.
  { unfold in_float_range. rewrite !Hmarine, !Hweather.
    rewrite (get_or_0_absent _ _ (Hweather "precipitation")).
    vm_compute. reflexivity. }
  rewrite (evaluate_conditions_returns _ _ _ Hfit). unfold expected_result.
  destruct (expected_factors_lookup marine weather)
    as (_ & Hwh & Hws & _ & Hpr & Hwc).
  destruct (expected_verdict_at marine weather) as (Vwh & Vws & Vpr & Vwc).
  rewrite (Hmarine "wave_height"), classified_absent in Vwh.
  rewrite (Hweather "wind_speed"), classified_absent in Vws.
  rewrite (get_or_0_absent _ _ (Hweather "precipitation")),
    classified_precip_0 in Vpr.
  rewrite (get_or_0_absent _ _ (Hweather "weather_code")) in Vwc.
  destruct weather_code_0 as [Hdesc Hcode]. rewrite Hcode in Vwc.
  assert (safety_verdicts (expected_factors marine weather)
          = [None; None; Some YES; Some YES]) as Hvs.
  { rewrite safety_verdicts_unfold. by rewrite Vwh, Vws, Vpr, Vwc. }
  assert (_compute_verdict (expected_factors marine weather) = YES) as Hyes.
  { rewrite compute_verdict_aggregate, Hvs. reflexivity. }
  eexists (mkResult _ _ _ _), (wave_height_factor marine),
    (wind_speed_factor weather), (precipitation_factor weather),
    (weather_code_factor weather).
  split; [reflexivity|]. unfold r_verdict, r_summary, r_factors.
  split; [exact Hyes|]. split; [rewrite Hyes; reflexivity|].
  split; [exact Hpr|].
  unfold precipitation_factor, weather_code_factor, wave_height_factor,
    wind_speed_factor, f_value, f_label, f_verdict.
  rewrite (get_or_0_absent _ _ (Hweather "precipitation")),
    classified_precip_0.
  do 3 (split; [reflexivity|]). split; [exact Hwc|].
  rewrite (get_or_0_absent _ _ (Hweather "weather_code")), Hdesc, Hcode.
  do 3 (split; [reflexivity|]). split; [exact Hwh|].
  rewrite (Hmarine "wave_height"). split; [reflexivity|].
  split; [exact Hws|].
  rewrite (Hweather "wind_speed"). split; [reflexivity|].
  rewrite Hvs. split; intros Hin;
    repeat (apply elem_of_cons in Hin as [Hin|Hin]; [discriminate Hin|]);
    by apply elem_of_nil in Hin.
Qed.

Lemma empty_readings_open_witness :
  ∃ r : Result,
    evaluate_conditions (elements SAFETY_FACTORS) ∅ ∅ = Some r
    ∧ r_verdict r = YES
    ∧ r_summary r = "Beach is open. Go swim!".
Proof.
  destruct (empty_readings_open (elements SAFETY_FACTORS) ∅ ∅)
    as (r & _ & _ & _ & _ & Hr & Hv & Hs & _).
  - intros field. reflexivity.
  - intros field. reflexivity.
  - exists r. split; [exact Hr|]. split; [exact Hv | exact Hs].
Defined.

(** * Further properties of the classifier *)

Lemma ratio_in_unit (x : Q) : (0 <= Qmin 1 (Qmax 0 x) <= 1)%Q.
Proof.
  split.
  - apply Q.min_glb; [discriminate|apply Q.le_max_l].
  - apply Q.le_min_l.
Qed.

Lemma bucket_ratio_bounds value prev bucket_range ratio :
  bucket_ratio value prev bucket_range = Some ratio → (0 <= ratio <= 1)%Q.
Proof.
  unfold bucket_ratio. destruct (Qgtb (val bucket_range) 0).
  - destruct (py_sub (num_of value) prev) as [d|]; [|discriminate].
    cbn [mbind option_bind].
    destruct (py_truediv d bucket_range) as [q|]; [|discriminate].
    intros [= <-]. apply ratio_in_unit.
  - intros [= <-]. split; discriminate.
Qed.

Lemma classify_loop_ratio value prev thresholds label verdict ratio :
  classify_loop value prev thresholds = Some (Some (label, verdict, ratio)) →
  (0 <= ratio <= 1)%Q.
Proof.
  revert prev. induction thresholds as [|[[upper l] vd] rest IH]; intros prev.
  { discriminate. }
  cbn [classify_loop]. destruct upper as [u|].
  - destruct (Qltb value (val u)); [|apply IH].
    destruct (py_sub u prev) as [bucket_range|]; [|discriminate].
    cbn [mbind option_bind].
    destruct (bucket_ratio value prev bucket_range) as [x|] eqn:Hx;
      [|discriminate].
    intros [= _ _ <-]. by eapply bucket_ratio_bounds.
  - destruct (bucket_ratio value prev (PyInt 1)) as [x|] eqn:Hx;
      [|discriminate].
    intros [= _ _ <-]. by eapply bucket_ratio_bounds.
Qed.

(** The ratio returned by [_classify] lies between 0 and 1, for every value
    and every table, whichever of the three [return]s produces it. *)
Theorem classify_ratio_bounds (value : option Q) (thresholds : list Threshold)
    (label : string) (verdict : option Verdict) (ratio : Q) :
  _classify value thresholds = Some (label, verdict, ratio) →
  (0 <= ratio <= 1)%Q.
Proof.
  unfold _classify. destruct value as [v|].
  - destruct (classify_loop v (PyInt 0) thresholds) as [outcome|] eqn:Hloop.
    + intros ->. by eapply classify_loop_ratio.
    + destruct (last thresholds); simpl; [|discriminate].
      intros [= _ _ <-]. split; discriminate.
  - intros [= _ _ <-]. split; discriminate.
Qed.

Lemma classify_ratio_bounds_witness :
  ∃ ratio,
    _classify (Some (py_float 1.6)) WAVE_HEIGHT_LABELS
    = Some ("Rough", Some MAYBE, ratio)
    ∧ (0 <= ratio <= 1)%Q.
Proof.
  eexists. split; [vm_compute; reflexivity|].
  apply (classify_ratio_bounds (Some (py_float 1.6)) WAVE_HEIGHT_LABELS
           "Rough" (Some MAYBE)).
  vm_compute. reflexivity.
Defined.

Lemma classify_loop_none value prev thresholds :
  Forall (λ t, ¬ exceeds value t) thresholds →
  classify_loop value prev thresholds = None.
Proof.
  intros Hall. apply (list_find_None (exceeds value)) in Hall.
  pose proof (classify_loop_spec (λ _, True) value thresholds prev I
                (λ _ _ _ _, I)) as Hspec.
  by rewrite Hall in Hspec.
Qed.

(** When no upper bound of the table exceeds the value, the loop of
    [_classify] ends without returning: the result is the label and verdict
    of the last entry with ratio 1, and on an empty table the access
    [thresholds[-1]] fails. *)
Theorem classify_past_last_bound (value : Q) (thresholds : list Threshold) :
  Forall (λ t, ¬ exceeds value t) thresholds →
  _classify (Some value) thresholds
  = match last thresholds with
    | Some t => Some (t_label t, t_verdict t, 1%Q)
    | None => None
    end
  ∧ (thresholds = [] → _classify (Some value) thresholds = None).
Proof.
  intros Hall. unfold _classify.
  rewrite (classify_loop_none value (PyInt 0) thresholds Hall).
  split; [by destruct (last thresholds)|]. by intros ->.
Qed.

Lemma classify_past_last_bound_witness :
  _classify (Some 50%Q)
    [(Fin (PyInt 10), "Calm", Some YES); (Fin (PyInt 20), "Breeze", None)]
  = Some ("Breeze", None, 1%Q).
Proof.
  apply (classify_past_last_bound 50
           [(Fin (PyInt 10), "Calm", Some YES);
            (Fin (PyInt 20), "Breeze", None)]).
  repeat constructor; vm_compute; discriminate.
Defined.

(** ** Severity *)

(** YES below MAYBE below NO; a factor without verdict counts as YES. *)
Definition verdict_rank (v : Verdict) : nat :=
  match v with YES => 0 | MAYBE => 1 | NO => 2 end.

Definition severity (v : option Verdict) : nat :=
  match v with Some v => verdict_rank v | None => 0 end.

(** The verdicts of a table never get milder along the table. *)
Definition verdicts_sorted (table : list Threshold) : Prop :=
  StronglySorted (λ a b, severity (t_verdict a) ≤ severity (t_verdict b))
    table.

Lemma strongly_sorted_lookup {A} (R : A → A → Prop) (l : list A) i j a b :
  StronglySorted R l → l !! i = Some a → l !! j = Some b → i < j → R a b.
Proof.
  intros Hs. revert i j. induction Hs as [|x l Hs IH Hall]; intros i j Hi Hj Hij.
  { by rewrite lookup_nil in Hi. }
  destruct j as [|j]; [lia|]. simpl in Hj.
  destruct i as [|i]; simpl in Hi.
  - injection Hi as ->. rewrite List.Forall_forall in Hall. apply Hall.
    apply list_elem_of_In. by eapply list_elem_of_lookup_2.
  - apply (IH i j); [done|done|lia].
Qed.

Lemma exceeds_le (v v' : Q) t : (v <= v')%Q → exceeds v' t → exceeds v t.
Proof.
  unfold exceeds. destruct (t_bound t) as [u|]; [|done].
  intros Hle Hlt. by eapply Qle_lt_trans.
Qed.

Lemma list_find_exceeds_monotone (table : list Threshold) v v' i t j t' :
  verdicts_sorted table → (v <= v')%Q →
  list_find (exceeds v) table = Some (i, t) →
  list_find (exceeds v') table = Some (j, t') →
  severity (t_verdict t) ≤ severity (t_verdict t').
Proof.
  intros Hsorted Hle (Hi & Ht & Hbefore)%list_find_Some
    (Hj & Ht' & _)%list_find_Some.
  destruct (decide (j < i)) as [Hlt|Hge].
  { destruct (Hbefore j t' Hj Hlt). by eapply exceeds_le. }
  destruct (decide (i = j)) as [->|Hne].
  { assert (t = t') as -> by congruence. done. }
  apply (strongly_sorted_lookup
           (λ a b, severity (t_verdict a) ≤ severity (t_verdict b))
           table i j t t'); [exact Hsorted|exact Hi|exact Hj|lia].
Qed.

Lemma classified_find v table i t :
  list_find (exceeds v) table = Some (i, t) →
  classified (Some v) table = (t_label t, t_verdict t).
Proof. intros H. unfold classified. by rewrite H. Qed.

Lemma tables_verdicts_sorted : Forall verdicts_sorted THRESHOLD_TABLES.
Proof.
  repeat (apply Forall_cons_2;
          [unfold verdicts_sorted; repeat constructor|]).
  apply Forall_nil_2.
Qed.

(** On the tables of the program the verdict of [classified] is monotone
    in the value. *)
Lemma classified_monotone (table : list Threshold) (v v' : Q) :
  table ∈ THRESHOLD_TABLES → (v <= v')%Q →
  severity (classified (Some v) table).2
  ≤ severity (classified (Some v') table).2.
Proof.
  intros Hin Hle.
  pose proof tables_end_Inf as Hinf. rewrite Forall_forall in Hinf.
  pose proof tables_verdicts_sorted as Hsorted.
  rewrite Forall_forall in Hsorted.
  destruct (list_find_exceeds_Inf v table (Hinf table Hin)) as [[i t] Hf].
  destruct (list_find_exceeds_Inf v' table (Hinf table Hin)) as [[j t'] Hf'].
  rewrite (classified_find _ _ _ _ Hf), (classified_find _ _ _ _ Hf').
  by eapply list_find_exceeds_monotone; [apply Hsorted| | |].
Qed.



(** * Further properties of the aggregation *)

Lemma severity_sum vs :
  sum_list (severity <$> vs) = 2 * occurrences NO vs + occurrences MAYBE vs.
Proof.
  induction vs as [|x vs IH]; [reflexivity|].
  rewrite fmap_cons, !occurrences_cons. simpl sum_list. rewrite IH.
  unfold tally. destruct x as [[]|]; simpl; lia.
Qed.

(** The aggregation adds one point per MAYBE and two per NO and caps the
    total at two. *)
Lemma aggregate_rank vs :
  verdict_rank (aggregate vs) = 2 `min` sum_list (severity <$> vs).
Proof.
  rewrite severity_sum. unfold aggregate.
  destruct (decide (Some NO ∈ vs)) as [Hno|Hno].
  { apply occurrences_pos in Hno. cbn [verdict_rank]. lia. }
  rewrite <- occurrences_pos in Hno.
  repeat case_decide; cbn [verdict_rank]; lia.
Qed.

Lemma safety_key_cases key :
  key ∈ SAFETY_FACTORS ↔
  key = "wave_height" ∨ key = "wind_speed" ∨ key = "precipitation"
  ∨ key = "weather_code".
Proof. unfold SAFETY_FACTORS. set_solver. Qed.

Lemma safety_verdicts_insert_other factors key f :
  key ∉ SAFETY_FACTORS →
  safety_verdicts (<[key := f]> factors) = safety_verdicts factors.
Proof.
  intros Hout. rewrite !safety_verdicts_unfold, !verdict_at_insert.
  rewrite safety_key_cases in Hout.
  repeat case_decide; try reflexivity; subst; exfalso; apply Hout; tauto.
Qed.

(** [_compute_verdict] reads the safety factors only: storing any factor
    under any other key leaves the verdict unchanged, and a dict without
    safety entries gives YES. *)
Theorem compute_verdict_ignores_other_keys
    (factors : gmap string Factor) (key : string) (f : Factor) :
  key ∉ SAFETY_FACTORS →
  _compute_verdict (<[key := f]> factors) = _compute_verdict factors
  ∧ _compute_verdict (delete key factors) = _compute_verdict factors
  ∧ ((∀ k, k ∈ SAFETY_FACTORS → factors !! k = None) →
     _compute_verdict factors = YES).
Proof.
  intros Hout. rewrite !compute_verdict_aggregate.
  split; [by rewrite safety_verdicts_insert_other|]. split.
  - f_equal. unfold safety_verdicts, safety_keys, verdict_at.
    cbn [fmap list_fmap]. rewrite safety_key_cases in Hout.
    rewrite !lookup_delete_ne; [reflexivity|..];
      intros ->; apply Hout; tauto.
  - intros Hnone. apply aggregate_all_clear. unfold safety_verdicts.
    apply Forall_fmap, Forall_forall. intros k Hk. left.
    apply verdict_at_None, Hnone.
    rewrite <- elem_of_elements, <- safety_keys_elements. exact Hk.
Qed.

Lemma compute_verdict_ignores_other_keys_witness :
  _compute_verdict
    (<["water_temp" := mkFactor (Some 8%Q) "C" "Freezing" (Some NO) 1]> ∅)
  = YES.
Proof.
  destruct (compute_verdict_ignores_other_keys ∅ "water_temp"
              (mkFactor (Some 8%Q) "C" "Freezing" (Some NO) 1))
    as (Hins & _ & Hempty).
  - rewrite safety_key_cases. intros [H|[H|[H|H]]]; discriminate H.
  - rewrite Hins. apply Hempty. intros k _. reflexivity.
Defined.

(** Worsening the verdict stored for a safety factor never improves the
    overall verdict. *)
Theorem compute_verdict_monotone
    (factors : gmap string Factor) (key : string) (f : Factor) :
  key ∈ SAFETY_FACTORS →
  severity (verdict_at factors key) ≤ severity (f_verdict f) →
  verdict_rank (_compute_verdict factors)
  ≤ verdict_rank (_compute_verdict (<[key := f]> factors)).
Proof.
  intros Hin Hle. rewrite !compute_verdict_aggregate, !aggregate_rank.
  rewrite !safety_verdicts_unfold, !verdict_at_insert.
  apply safety_key_cases in Hin as [-> | [-> | [-> | ->]]];
    repeat case_decide; try discriminate; simpl sum_list; lia.
Qed.

Lemma compute_verdict_monotone_witness :
  verdict_rank (_compute_verdict ∅)
  ≤ verdict_rank
      (_compute_verdict
         (<["wind_speed" :=
              mkFactor (Some 35%Q) "km/h" "Strong" (Some MAYBE) 7]> ∅)).
Proof.
  apply (compute_verdict_monotone ∅ "wind_speed").
  - apply safety_key_cases. right. left. reflexivity.
  - apply Nat.le_0_l.
Defined.

(** * Further properties of [evaluate_conditions] *)

Lemma get_insert_eq (d : Reading) key v : get (<[key := v]> d) key = v.
Proof. unfold get. by rewrite lookup_insert_eq. Qed.

Lemma get_or_0_insert_eq (d : Reading) key (p : Q) :
  get_or_0 (<[key := Some p]> d) key = if Qtruthy p then p else 0%Q.
Proof. unfold get_or_0. by rewrite lookup_insert_eq. Qed.

Lemma or_0_le (p p' : Q) :
  (p <= p')%Q →
  ((if Qtruthy p then p else 0) <= (if Qtruthy p' then p' else 0))%Q.
Proof.
  intros Hle. unfold Qtruthy.
  destruct (Qeq_bool p 0) eqn:Hp, (Qeq_bool p' 0) eqn:Hp'; simpl.
  - apply Qle_refl.
  - apply Qeq_bool_eq in Hp. by rewrite <- Hp.
  - apply Qeq_bool_eq in Hp'. by rewrite <- Hp'.
  - exact Hle.
Qed.

(** The rank of the overall verdict in terms of the four classifications. *)
Lemma expected_rank marine weather :
  verdict_rank (_compute_verdict (expected_factors marine weather))
  = 2 `min`
      (severity (classified (get marine "wave_height") WAVE_HEIGHT_LABELS).2
       + (severity
            (classified (get weather "wind_speed") WIND_SPEED_LABELS).2
          + (severity
               (classified (Some (get_or_0 weather "precipitation"))
                  PRECIP_LABELS).2
             + (verdict_rank
                  (weather_code_verdict (get_or_0 weather "weather_code"))
                + 0)))).
Proof.
  rewrite compute_verdict_aggregate, aggregate_rank, safety_verdicts_unfold.
  destruct (expected_verdict_at marine weather) as (-> & -> & -> & ->).
  reflexivity.
Qed.

Lemma wave_table_listed : WAVE_HEIGHT_LABELS ∈ THRESHOLD_TABLES.
Proof. apply list_elem_of_further, list_elem_of_here. Qed.

Lemma wind_table_listed : WIND_SPEED_LABELS ∈ THRESHOLD_TABLES.
Proof. do 2 apply list_elem_of_further. apply list_elem_of_here. Qed.

Lemma precip_table_listed : PRECIP_LABELS ∈ THRESHOLD_TABLES.
Proof. do 4 apply list_elem_of_further. apply list_elem_of_here. Qed.

(** With everything else unchanged, a higher wave height, a higher wind
    speed or a higher precipitation never gives a better overall verdict:
    of two runs of [evaluate_conditions] that return, the one with the
    higher measurement has a verdict at least as severe; and a run returns
    whenever its measurements fit a float. *)
Theorem verdict_monotone_in_measurements
    (safety_iter : list string) (marine weather : Reading) (x x' : Q) :
  (x <= x')%Q →
  (∀ r r' : Result,
      evaluate_conditions safety_iter
        (<["wave_height" := Some x]> marine) weather = Some r →
      evaluate_conditions safety_iter
        (<["wave_height" := Some x']> marine) weather = Some r' →
      verdict_rank (r_verdict r) ≤ verdict_rank (r_verdict r'))
  ∧ (∀ r r' : Result,
        evaluate_conditions safety_iter marine
          (<["wind_speed" := Some x]> weather) = Some r →
        evaluate_conditions safety_iter marine
          (<["wind_speed" := Some x']> weather) = Some r' →
        verdict_rank (r_verdict r) ≤ verdict_rank (r_verdict r'))
  ∧ (∀ r r' : Result,
        evaluate_conditions safety_iter marine
          (<["precipitation" := Some x]> weather) = Some r →
        evaluate_conditions safety_iter marine
          (<["precipitation" := Some x']> weather) = Some r' →
        verdict_rank (r_verdict r) ≤ verdict_rank (r_verdict r'))
  ∧ (∀ marine' weather' : Reading,
        in_float_range marine' weather' = true →
        is_Some (evaluate_conditions safety_iter marine' weather')).
Proof.
  intros Hle.
  pose proof (classified_monotone _ _ _ wave_table_listed Hle) as Hwave.
  pose proof (classified_monotone _ _ _ wind_table_listed Hle) as Hwind.
  pose proof (classified_monotone _ _ _ precip_table_listed
                (or_0_le _ _ Hle)) as Hprecip.
  split; [|split; [|split]];
    [| | |intros marine' weather' Hfit;
          rewrite (evaluate_conditions_returns _ _ _ Hfit); by eexists];
    intros r r' Hr Hr';
    apply evaluate_conditions_inv in Hr as ->;
    apply evaluate_conditions_inv in Hr' as ->;
    unfold expected_result, r_verdict; rewrite !expected_rank.
  - rewrite !get_insert_eq. lia.
  - rewrite !get_insert_eq.
    rewrite !get_or_0_insert_ne by (intros H; discriminate H). lia.
  - rewrite !get_or_0_insert_eq.
    rewrite !get_insert_ne by (intros H; discriminate H).
    rewrite !get_or_0_insert_ne by (intros H; discriminate H). lia.
Qed.

Lemma verdict_monotone_in_measurements_witness :
  ∃ r r' : Result,
    evaluate_conditions (elements SAFETY_FACTORS)
      (<["wave_height" := Some (py_float 0.4)]> ∅) ∅ = Some r
    ∧ evaluate_conditions (elements SAFETY_FACTORS)
        (<["wave_height" := Some (py_float 1.6)]> ∅) ∅ = Some r'
    ∧ verdict_rank (r_verdict r) ≤ verdict_rank (r_verdict r').
Proof.
  destruct (verdict_monotone_in_measurements (elements SAFETY_FACTORS) ∅ ∅
              (py_float 0.4) (py_float 1.6)) as (Hwave & _ & _ & Hret).
  { vm_compute. discriminate. }
  destruct (Hret (<["wave_height" := Some (py_float 0.4)]> ∅) ∅)
    as [r Hr]; [vm_compute; reflexivity|].
  destruct (Hret (<["wave_height" := Some (py_float 1.6)]> ∅) ∅)
    as [r' Hr']; [vm_compute; reflexivity|].
  exists r, r'. split; [exact Hr|]. split; [exact Hr'|].
  exact (Hwave r r' Hr Hr').
Defined.




(** The [factors] dict of every result that [evaluate_conditions] returns
    has the same six keys; it returns whenever the measurements fit a
    float. *)
Theorem factors_have_six_keys
    (safety_iter : list string) (marine weather : Reading) :
  (in_float_range marine weather = true →
   is_Some (evaluate_conditions safety_iter marine weather))
  ∧ ∀ r : Result,
      evaluate_conditions safety_iter marine weather = Some r →
      dom (r_factors r)
      = {[ "water_temp"; "wave_height"; "wind_speed"; "uv_index";
           "precipitation"; "weather_code" ]}
      ∧ size (r_factors r) = 6.
Proof.
  returned_result r Hr.
  unfold r_factors. split; [apply expected_factors_dom|].
  rewrite <- size_dom, expected_factors_dom. reflexivity.
Qed.

Lemma factors_have_six_keys_witness :
  ∃ r : Result,
    evaluate_conditions (elements SAFETY_FACTORS)
      {[ "wave_height" := Some (py_float 1.6) ]} ∅ = Some r
    ∧ size (r_factors r) = 6.
Proof.
  destruct (factors_have_six_keys (elements SAFETY_FACTORS)
              {[ "wave_height" := Some (py_float 1.6) ]} ∅) as [Hret Hall].
  destruct Hret as [r Hr]; [vm_compute; reflexivity|].
  exists r. split; [exact Hr|]. exact (proj2 (Hall r Hr)).
Defined.

(** Only six fields of the readings are read: sea_surface_temp and
    wave_height of the marine reading, wind_speed, uv_index, precipitation
    and weather_code of the weather reading.  Any other field can be added
    or changed without changing the result. *)
Theorem other_fields_ignored
    (safety_iter : list string) (marine weather : Reading)
    (key : string) (v : option Q) :
  (key ∉ ["sea_surface_temp"; "wave_height"] →
   evaluate_conditions safety_iter (<[key := v]> marine) weather
   = evaluate_conditions safety_iter marine weather)
  ∧ (key ∉ ["wind_speed"; "uv_index"; "precipitation"; "weather_code"] →
     evaluate_conditions safety_iter marine (<[key := v]> weather)
     = evaluate_conditions safety_iter marine weather).
Proof.
  split; intros Hkey; rewrite !evaluate_conditions_run.
  - assert (evaluation_returns (<[key := v]> marine) weather
            = evaluation_returns marine weather) as ->.
    { unfold evaluation_returns.
      rewrite !get_insert_ne; [reflexivity|..];
        intros ->; apply Hkey; set_solver. }
    unfold expected_result.
    assert (expected_factors (<[key := v]> marine) weather
            = expected_factors marine weather) as ->.
    { unfold expected_factors, water_temp_factor, wave_height_factor.
      rewrite !get_insert_ne; [reflexivity|..];
        intros ->; apply Hkey; set_solver. }
    unfold expected_tips.
    rewrite !get_insert_ne; [reflexivity|..];
      intros ->; apply Hkey; set_solver.
  - assert (evaluation_returns marine (<[key := v]> weather)
            = evaluation_returns marine weather) as ->.
    { unfold evaluation_returns, wind_bar_returns.
      rewrite !get_insert_ne, !get_or_0_insert_ne; [reflexivity|..];
        intros ->; apply Hkey; set_solver. }
    unfold expected_result.
    assert (expected_factors marine (<[key := v]> weather)
            = expected_factors marine weather) as ->.
    { unfold expected_factors, wind_speed_factor, uv_index_factor,
        precipitation_factor, weather_code_factor.
      rewrite !get_insert_ne, !get_or_0_insert_ne; [reflexivity|..];
        intros ->; apply Hkey; set_solver. }
    unfold expected_tips.
    rewrite !get_insert_ne, !get_or_0_insert_ne; [reflexivity|..];
      intros ->; apply Hkey; set_solver.
Qed.

Lemma other_fields_ignored_witness :
  evaluate_conditions (elements SAFETY_FACTORS)
    (<["wave_period" := Some 8%Q]> {[ "wave_height" := Some (py_float 0.4) ]})
    ∅
  = evaluate_conditions (elements SAFETY_FACTORS)
      {[ "wave_height" := Some (py_float 0.4) ]} ∅.
Proof.
  destruct (other_fields_ignored (elements SAFETY_FACTORS)
              {[ "wave_height" := Some (py_float 0.4) ]} ∅
              "wave_period" (Some 8%Q)) as [Hmarine _].
  apply Hmarine. intros Hin.
  apply elem_of_cons in Hin as [Hin|Hin]; [discriminate Hin|].
  apply elem_of_cons in Hin as [Hin|Hin]; [discriminate Hin|].
  apply elem_of_nil in Hin. exact Hin.
Defined.

(** ** How many factors a summary names *)

Lemma length_filter_fmap {A B} (f : A → B) (P : B → Prop)
    `{∀ y, Decision (P y)} (l : list A) :
  length (filter (λ x, P (f x)) l) = length (filter P (f <$> l)).
Proof.
  induction l as [|x l IH]; [reflexivity|].
  rewrite fmap_cons, !filter_cons. destruct (decide (P (f x))); simpl; lia.
Qed.

Lemma filter_exists_length {A} (P : A → Prop) `{∀ x, Decision (P x)}
    (l : list A) x :
  x ∈ l → P x → 1 ≤ length (filter P l).
Proof.
  intros Hin HP.
  assert (x ∈ filter P l) as Hx by (by apply list_elem_of_filter).
  destruct (filter P l); [by apply elem_of_nil in Hx|simpl; lia].
Qed.

Lemma aggregate_MAYBE_once vs :
  aggregate vs = MAYBE → occurrences MAYBE vs = 1.
Proof. unfold aggregate. repeat case_decide; try discriminate. done. Qed.

Lemma aggregate_NO_flag vs :
  aggregate vs = NO → Some NO ∈ vs ∨ Some MAYBE ∈ vs.
Proof.
  unfold aggregate. repeat case_decide; try discriminate; intros _.
  - by left.
  - right. apply occurrences_pos. lia.
Qed.

Section SummaryPhrases.

Context (safety_iter : list string).
Hypothesis safety_iter_set : safety_iter ≡ₚ elements SAFETY_FACTORS.

Lemma safety_iter_count (factors : gmap string Factor)
    (P : option Verdict → Prop) `{∀ v, Decision (P v)} :
  length (filter (λ key, P (verdict_at factors key)) safety_iter)
  = length (filter P (safety_verdicts factors)).
Proof.
  rewrite safety_iter_set, <- safety_keys_elements.
  apply (length_filter_fmap (verdict_at factors) P).
Qed.

(** [evaluate_conditions] returns whenever the measurements fit a float.
    The summary of a result it returns is never "Not safe to swim.".  A
    MAYBE summary names exactly one safety factor, the one whose verdict is
    MAYBE.  A NO summary names one or two safety factors, each with the
    verdict NO or MAYBE and none twice: the first two, in the iteration
    order of the set, of the safety factors with such a verdict. *)
Theorem summary_names_flagged_factors (marine weather : Reading) :
  (in_float_range marine weather = true →
   is_Some (evaluate_conditions safety_iter marine weather))
  ∧ ∀ r : Result,
      evaluate_conditions safety_iter marine weather = Some r →
      r_summary r ≠ "Not safe to swim."
      ∧ (r_verdict r = MAYBE →
         ∃ key, key ∈ SAFETY_FACTORS
                ∧ verdict_at (r_factors r) key = Some MAYBE
                ∧ r_summary r
                  = "Swim with caution: " +:+ phrase (r_factors r) key
                    +:+ ".")
      ∧ (r_verdict r = NO →
         ∃ keys : list string,
           keys = take 2 (filter (λ key,
                                    verdict_at (r_factors r) key = Some NO
                                    ∨ verdict_at (r_factors r) key
                                      = Some MAYBE) safety_iter)
           ∧ 1 ≤ length keys ≤ 2
           ∧ NoDup keys
           ∧ (∀ key, key ∈ keys →
                key ∈ SAFETY_FACTORS
                ∧ (verdict_at (r_factors r) key = Some NO
                   ∨ verdict_at (r_factors r) key = Some MAYBE))
           ∧ r_summary r
             = "Beach closed: "
               +:+ String.concat ", " (phrase (r_factors r) <$> keys)
               +:+ ".").
Proof.
  returned_result r Hr.
  unfold r_verdict, r_factors, r_summary.
  generalize (expected_factors marine weather). intros factors.
  assert (_compute_verdict factors = NO →
          1 ≤ length (filter (λ key, verdict_at factors key = Some NO
                                     ∨ verdict_at factors key = Some MAYBE)
                        safety_iter)) as Hflag.
  { rewrite compute_verdict_aggregate. intros Hno%aggregate_NO_flag.
    assert (length (filter (λ key, verdict_at factors key = Some NO
                                   ∨ verdict_at factors key = Some MAYBE)
                      safety_iter)
            = length (filter (λ v, v = Some NO ∨ v = Some MAYBE)
                        (safety_verdicts factors))) as ->
      by (pose proof (safety_iter_count factors
                        (λ v, v = Some NO ∨ v = Some MAYBE)) as Hc;
          exact Hc).
    destruct Hno as [Hin|Hin];
      eapply filter_exists_length; [exact Hin|by left|exact Hin|by right]. }
  assert (_compute_verdict factors = MAYBE →
          length (filter (λ key, verdict_at factors key = Some MAYBE)
                    safety_iter) = 1) as Hone.
  { rewrite compute_verdict_aggregate. intros Hm%aggregate_MAYBE_once.
    assert (length (filter (λ key, verdict_at factors key = Some MAYBE)
                      safety_iter)
            = length (filter (λ v, v = Some MAYBE) (safety_verdicts factors)))
      as -> by (pose proof (safety_iter_count factors (λ v, v = Some MAYBE))
                  as Hc; exact Hc).
    exact Hm. }
  unfold _generate_summary. rewrite collect_maybe, collect_no_or_maybe.
  destruct (_compute_verdict factors).
  - split; [intros H; discriminate H|].
    split; intros H; discriminate H.
  - specialize (Hone eq_refl).
    destruct (filter (λ key, verdict_at factors key = Some MAYBE) safety_iter)
      as [|key [|key' rest]] eqn:Hfilter; try discriminate Hone.
    split; [intros H; discriminate H|].
    split; [|intros H; discriminate H]. intros _.
    assert (key ∈ filter (λ key, verdict_at factors key = Some MAYBE)
                    safety_iter) as Hkey.
    { rewrite Hfilter. apply list_elem_of_here. }
    apply list_elem_of_filter in Hkey as [Hv Hin].
    exists key. split.
    { by apply (safety_iter_elem safety_iter safety_iter_set). }
    split; [exact Hv|reflexivity].
  - specialize (Hflag eq_refl).
    pose proof (NoDup_filter
                  (λ key, verdict_at factors key = Some NO
                          ∨ verdict_at factors key = Some MAYBE)
                  safety_iter
                  (safety_iter_NoDup safety_iter safety_iter_set)) as Hnd.
    assert (∀ key,
              key ∈ filter (λ key, verdict_at factors key = Some NO
                                   ∨ verdict_at factors key = Some MAYBE)
                      safety_iter →
              key ∈ SAFETY_FACTORS
              ∧ (verdict_at factors key = Some NO
                 ∨ verdict_at factors key = Some MAYBE)) as Helem.
    { intros key [Hv Hin]%list_elem_of_filter. split; [|exact Hv].
      by apply (safety_iter_elem safety_iter safety_iter_set). }
    revert Hflag Hnd Helem.
    generalize (filter (λ key, verdict_at factors key = Some NO
                               ∨ verdict_at factors key = Some MAYBE)
                  safety_iter).
    intros flagged Hflag Hnd Helem.
    destruct flagged as [|key rest]; [simpl in Hflag; lia|].
    split; [intros H; discriminate H|].
    split; [intros H; discriminate H|]. intros _.
    exists (take 2 (key :: rest)).
    split; [reflexivity|].
    split; [rewrite length_take; cbn [length]; lia|].
    split; [eapply sublist_NoDup; [exact Hnd|apply sublist_take]|].
    split.
    { intros k Hk. apply Helem. eapply elem_of_sublist; [exact Hk|].
      apply sublist_take. }
    by rewrite fmap_take.
Qed.

End SummaryPhrases.

Lemma summary_names_flagged_factors_witness :
  ∃ r : Result,
    evaluate_conditions (elements SAFETY_FACTORS)
      {[ "wave_height" := Some (py_float 1.6) ]}
      {[ "wind_speed" := Some 35%Q ]} = Some r
    ∧ r_verdict r = NO
    ∧ r_summary r ≠ "Not safe to swim.".
Proof.
  destruct (summary_names_flagged_factors (elements SAFETY_FACTORS)
              (reflexivity (elements SAFETY_FACTORS))
              {[ "wave_height" := Some (py_float 1.6) ]}
              {[ "wind_speed" := Some 35%Q ]}) as [Hret Hall].
  destruct Hret as [r Hr]; [vm_compute; reflexivity|].
  destruct (Hall r Hr) as (Hsum & _).
  exists r. split; [exact Hr|]. split; [|exact Hsum].
  apply evaluate_conditions_inv in Hr as ->.
  unfold expected_result, r_verdict. vm_compute. reflexivity.
Defined.

(** ** Weather codes *)

Lemma code_in_inv (code : Q) (table : gmap Z string) :
  code_in code table = true →
  ∃ z s, int_key code = Some z ∧ table !! z = Some s.
Proof.
  unfold code_in, code_get. intros [s Hs]%bool_decide_eq_true.
  destruct (int_key code) as [z|]; [|discriminate Hs]. by exists z, s.
Qed.

Lemma dangerous_codes z s :
  DANGEROUS_WEATHER_CODES !! z = Some s → z ∈ [95; 96; 99]%Z.
Proof.
  intros H%elem_of_list_to_map_2.
  apply (list_elem_of_fmap_2 fst) in H. exact H.
Qed.

Lemma warning_codes z s :
  WARNING_WEATHER_CODES !! z = Some s →
  z ∈ [51; 53; 55; 61; 63; 65; 66; 67; 71; 73; 75; 77; 80; 81; 82; 85; 86]%Z.
Proof.
  intros H%elem_of_list_to_map_2.
  apply (list_elem_of_fmap_2 fst) in H. exact H.
Qed.

Ltac each_code H :=
  repeat (apply elem_of_cons in H as [-> | H]); [..|by apply elem_of_nil in H].

Lemma code_tables_disjoint (code : Q) :
  ¬ (code_in code DANGEROUS_WEATHER_CODES = true
     ∧ code_in code WARNING_WEATHER_CODES = true).
Proof.
  intros [Hd Hw].
  apply code_in_inv in Hd as (z & s & Hz & Hs).
  apply code_in_inv in Hw as (z' & s' & Hz' & Hs').
  assert (z' = z) as -> by congruence.
  apply dangerous_codes in Hs. each_code Hs; discriminate Hs'.
Qed.

Lemma code_tables_described (code : Q) :
  code_in code DANGEROUS_WEATHER_CODES = true
  ∨ code_in code WARNING_WEATHER_CODES = true →
  is_Some (code_get WMO_WEATHER_DESCRIPTIONS code).
Proof.
  intros [H|H]; apply code_in_inv in H as (z & s & Hz & Hs);
    unfold code_get; rewrite Hz; simpl.
  - apply dangerous_codes in Hs. each_code Hs; by eexists.
  - apply warning_codes in Hs. each_code Hs; by eexists.
Qed.

Lemma code_without_description (code : Q) :
  code_get WMO_WEATHER_DESCRIPTIONS code = None →
  weather_description code = "Unknown" ∧ weather_code_verdict code = YES.
Proof.
  intros Hnone. unfold weather_description, weather_code_verdict.
  rewrite Hnone. split; [reflexivity|].
  pose proof (code_tables_described code) as Hdesc.
  destruct (code_in code DANGEROUS_WEATHER_CODES) eqn:Hd.
  { destruct Hdesc as [s Hs]; [by left|]. rewrite Hnone in Hs.
    discriminate Hs. }
  destruct (code_in code WARNING_WEATHER_CODES) eqn:Hw; [|reflexivity].
  destruct Hdesc as [s Hs]; [by right|]. rewrite Hnone in Hs.
  discriminate Hs.
Qed.

(** The dangerous and the warning codes are disjoint and every one of them
    has a description.  In every result that [evaluate_conditions] returns,
    a weather code without description, in particular a number that is not
    an integer, gives the weather_code factor the label "Unknown" and the
    verdict YES. *)
Theorem weather_code_tables_consistent (code : Q) :
  ¬ (code_in code DANGEROUS_WEATHER_CODES = true
     ∧ code_in code WARNING_WEATHER_CODES = true)
  ∧ (code_in code DANGEROUS_WEATHER_CODES = true
     ∨ code_in code WARNING_WEATHER_CODES = true →
     is_Some (code_get WMO_WEATHER_DESCRIPTIONS code))
  ∧ ∀ (safety_iter : list string) (marine weather : Reading)
      (r : Result) (f : Factor),
      get_or_0 weather "weather_code" = code →
      evaluate_conditions safety_iter marine weather = Some r →
      r_factors r !! "weather_code" = Some f →
      (code_get WMO_WEATHER_DESCRIPTIONS code = None ∨ int_key code = None) →
      f_label f = "Unknown" ∧ f_verdict f = Some YES.
Proof.
  split; [apply code_tables_disjoint|].
  split; [apply code_tables_described|].
  intros safety_iter marine weather r f Hcode Hr Hf Hnone.
  apply evaluate_conditions_inv in Hr as ->.
  unfold expected_result in Hf. cbn [r_factors] in Hf.
  destruct (expected_factors_lookup marine weather)
    as (_ & _ & _ & _ & _ & Hwc).
  rewrite Hwc in Hf. injection Hf as <-.
  unfold weather_code_factor, f_label, f_verdict. rewrite Hcode.
  assert (code_get WMO_WEATHER_DESCRIPTIONS code = None) as Hnone'.
  { destruct Hnone as [H|H]; [exact H|]. unfold code_get. by rewrite H. }
  destruct (code_without_description code Hnone') as [-> ->].
  by split.
Qed.

Lemma weather_code_tables_consistent_witness :
  ∃ (r : Result) (f : Factor),
    evaluate_conditions (elements SAFETY_FACTORS) ∅
      {[ "weather_code" := Some (py_float 1.5) ]} = Some r
    ∧ r_factors r !! "weather_code" = Some f
    ∧ f_label f = "Unknown" ∧ f_verdict f = Some YES.
Proof.
  destruct (weather_code_tables_consistent (py_float 1.5))
    as (_ & _ & Hunknown).
  eexists _, _.
  split; [apply evaluate_conditions_returns; vm_compute; reflexivity|].
  unfold expected_result. cbn [r_factors].
  split; [exact (proj2 (proj2 (proj2 (proj2 (proj2
            (expected_factors_lookup _ _))))))|].
  apply (Hunknown (elements SAFETY_FACTORS) ∅
           {[ "weather_code" := Some (py_float 1.5) ]}
           (expected_result (elements SAFETY_FACTORS) ∅
              {[ "weather_code" := Some (py_float 1.5) ]})).
  - vm_compute. reflexivity.
  - apply evaluate_conditions_returns. vm_compute. reflexivity.
  - exact (proj2 (proj2 (proj2 (proj2 (proj2
             (expected_factors_lookup _ _)))))).
  - right. vm_compute. reflexivity.
Defined.

(** ** Advice and verdict *)

Lemma water_temp_tips_inv tip o :
  tip ∈ water_temp_tips o →
  tip = "Water is very cold. Consider a wetsuit."
  ∨ tip = "Water is cold. A wetsuit may help.".
Proof.
  unfold water_temp_tips. destruct o as [t|]; [|by intros H%elem_of_nil].
  repeat case_decide; intros Hin;
    first [ apply list_elem_of_singleton in Hin; tauto
          | by apply elem_of_nil in Hin ].
Qed.

Lemma wave_tips_inv tip o :
  tip ∈ wave_tips o →
  ∃ h, o = Some h
       ∧ ((tip = "Dangerous waves. Red flag conditions." ∧ (5 # 2 <= h)%Q)
          ∨ (tip = "Rough waves. Experienced swimmers only."
             ∧ (3 # 2 <= h)%Q)).
Proof.
  unfold wave_tips. destruct o as [h|]; [|by intros H%elem_of_nil].
  repeat case_decide; intros Hin;
    first [ apply list_elem_of_singleton in Hin; exists h; tauto
          | by apply elem_of_nil in Hin ].
Qed.

Lemma wind_tips_inv tip o :
  tip ∈ wind_tips o →
  ∃ s, o = Some s ∧ tip = "Strong winds create dangerous rip currents."
       ∧ (40 <= s)%Q.
Proof.
  unfold wind_tips. destruct o as [s|]; [|by intros H%elem_of_nil].
  case_decide; intros Hin;
    first [ apply list_elem_of_singleton in Hin; exists s; tauto
          | by apply elem_of_nil in Hin ].
Qed.

Lemma uv_tips_inv tip o :
  tip ∈ uv_tips o →
  tip = "Very high UV. Wear sunscreen SPF 50+ and reapply often."
  ∨ tip = "High UV. Wear sunscreen."
  ∨ tip = "Moderate UV. Sunscreen recommended.".
Proof.
  unfold uv_tips. destruct o as [u|]; [|by intros H%elem_of_nil].
  repeat case_decide; intros Hin;
    first [ apply list_elem_of_singleton in Hin; tauto
          | by apply elem_of_nil in Hin ].
Qed.

Lemma weather_tips_inv tip code :
  tip ∈ weather_tips code →
  tip = "Dangerous weather: " +:+ weather_description code
        +:+ ". Beach closed."
  ∧ code_in code DANGEROUS_WEATHER_CODES = true.
Proof.
  unfold weather_tips.
  destruct (code_in code DANGEROUS_WEATHER_CODES); intros H.
  - apply list_elem_of_singleton in H. tauto.
  - by apply elem_of_nil in H.
Qed.

Lemma expected_tips_inv tip marine weather :
  tip ∈ expected_tips marine weather →
  tip ∈ water_temp_tips (get marine "sea_surface_temp")
  ∨ tip ∈ wave_tips (get marine "wave_height")
  ∨ tip ∈ wind_tips (get weather "wind_speed")
  ∨ tip ∈ uv_tips (get weather "uv_index")
  ∨ tip ∈ weather_tips (get_or_0 weather "weather_code").
Proof. unfold expected_tips. rewrite !elem_of_app. tauto. Qed.

Lemma tips_length_le o1 o2 o3 o4 code :
  length (water_temp_tips o1) ≤ 1 ∧ length (wave_tips o2) ≤ 1
  ∧ length (wind_tips o3) ≤ 1 ∧ length (uv_tips o4) ≤ 1
  ∧ length (weather_tips code) ≤ 1.
Proof.
  unfold water_temp_tips, wave_tips, wind_tips, uv_tips, weather_tips.
  destruct o1, o2, o3, o4, (code_in code DANGEROUS_WEATHER_CODES);
    repeat case_decide; simpl; lia.
Qed.

Lemma classified_wave_2_5 :
  classified (Some (5 # 2)) WAVE_HEIGHT_LABELS = ("Very Rough", Some NO).
Proof. vm_compute. reflexivity. Qed.

Lemma classified_wave_1_5 :
  classified (Some (3 # 2)) WAVE_HEIGHT_LABELS = ("Rough", Some MAYBE).
Proof. vm_compute. reflexivity. Qed.

Lemma classified_wind_40 :
  classified (Some 40%Q) WIND_SPEED_LABELS = ("Very Strong", Some NO).
Proof. vm_compute. reflexivity. Qed.

Lemma rank_NO v : 2 ≤ verdict_rank v → v = NO.
Proof. destruct v; simpl; [lia|lia|reflexivity]. Qed.

(** [evaluate_conditions] returns whenever the measurements fit a float.
    In every result it returns the advice agrees with the verdict: whenever
    the tips hold the dangerous-waves tip, the strong-winds tip or a
    dangerous-weather tip, the overall verdict is NO; with the rough-waves
    tip it is not YES.  There are at most five tips, one per kind. *)
Theorem danger_tips_close_the_beach
    (safety_iter : list string) (marine weather : Reading) :
  (in_float_range marine weather = true →
   is_Some (evaluate_conditions safety_iter marine weather))
  ∧ ∀ r : Result,
      evaluate_conditions safety_iter marine weather = Some r →
      ("Dangerous waves. Red flag conditions." ∈ r_tips r →
       r_verdict r = NO)
      ∧ ("Strong winds create dangerous rip currents." ∈ r_tips r →
         r_verdict r = NO)
      ∧ ("Dangerous weather: "
         +:+ default "Unknown"
               (code_get WMO_WEATHER_DESCRIPTIONS
                  (get_or_0 weather "weather_code"))
         +:+ ". Beach closed." ∈ r_tips r →
         r_verdict r = NO)
      ∧ ("Rough waves. Experienced swimmers only." ∈ r_tips r →
         r_verdict r ≠ YES)
      ∧ length (r_tips r) ≤ 5.
Proof.
  returned_result r Hr.
  unfold r_tips, r_verdict.
  pose proof (expected_rank marine weather) as Hrank.
  revert Hrank.
  generalize (_compute_verdict (expected_factors marine weather)).
  intros verdict Hrank.
  assert (∀ h, get marine "wave_height" = Some h → (5 # 2 <= h)%Q →
               verdict = NO) as Hwave.
  { intros h Hh Hle. apply rank_NO. rewrite Hrank, Hh.
    pose proof (classified_monotone _ _ _ wave_table_listed Hle) as Hm.
    rewrite classified_wave_2_5 in Hm.
    change (2 ≤ severity (classified (Some h) WAVE_HEIGHT_LABELS).2) in Hm.
    lia. }
  assert (∀ h, get marine "wave_height" = Some h → (3 # 2 <= h)%Q →
               verdict ≠ YES) as Hrough.
  { intros h Hh Hle Hyes. rewrite Hyes, Hh in Hrank.
    pose proof (classified_monotone _ _ _ wave_table_listed Hle) as Hm.
    rewrite classified_wave_1_5 in Hm.
    change (1 ≤ severity (classified (Some h) WAVE_HEIGHT_LABELS).2) in Hm.
    cbn [verdict_rank] in Hrank. lia. }
  assert (∀ s, get weather "wind_speed" = Some s → (40 <= s)%Q →
               verdict = NO) as Hwind.
  { intros s Hs Hle. apply rank_NO. rewrite Hrank, Hs.
    pose proof (classified_monotone _ _ _ wind_table_listed Hle) as Hm.
    rewrite classified_wind_40 in Hm.
    change (2 ≤ severity (classified (Some s) WIND_SPEED_LABELS).2) in Hm.
    lia. }
  assert (code_in (get_or_0 weather "weather_code") DANGEROUS_WEATHER_CODES
          = true → verdict = NO) as Hcode.
  { intros Hd. apply rank_NO. rewrite Hrank.
    unfold weather_code_verdict. rewrite Hd. cbn [verdict_rank]. lia. }
  split.
  { intros Hin%expected_tips_inv.
    destruct Hin as [H|[H|[H|[H|H]]]].
    - apply water_temp_tips_inv in H as [H|H]; discriminate H.
    - apply wave_tips_inv in H as (h & Hh & [[_ Hle]|[H _]]);
        [by eapply Hwave | discriminate H].
    - apply wind_tips_inv in H as (s & _ & H & _). discriminate H.
    - apply uv_tips_inv in H as [H|[H|H]]; discriminate H.
    - apply weather_tips_inv in H as [H _]. discriminate H. }
  split.
  { intros Hin%expected_tips_inv.
    destruct Hin as [H|[H|[H|[H|H]]]].
    - apply water_temp_tips_inv in H as [H|H]; discriminate H.
    - apply wave_tips_inv in H as (h & _ & [[H _]|[H _]]); discriminate H.
    - apply wind_tips_inv in H as (s & Hs & _ & Hle). by eapply Hwind.
    - apply uv_tips_inv in H as [H|[H|H]]; discriminate H.
    - apply weather_tips_inv in H as [H _]. discriminate H. }
  split.
  { intros Hin%expected_tips_inv.
    destruct Hin as [H|[H|[H|[H|H]]]].
    - apply water_temp_tips_inv in H as [H|H]; discriminate H.
    - apply wave_tips_inv in H as (h & _ & [[H _]|[H _]]); discriminate H.
    - apply wind_tips_inv in H as (s & _ & H & _). discriminate H.
    - apply uv_tips_inv in H as [H|[H|H]]; discriminate H.
    - apply weather_tips_inv in H as [_ H]. by apply Hcode. }
  split.
  { intros Hin%expected_tips_inv.
    destruct Hin as [H|[H|[H|[H|H]]]].
    - apply water_temp_tips_inv in H as [H|H]; discriminate H.
    - apply wave_tips_inv in H as (h & Hh & [[H _]|[_ Hle]]);
        [discriminate H | by eapply Hrough].
    - apply wind_tips_inv in H as (s & _ & H & _). discriminate H.
    - apply uv_tips_inv in H as [H|[H|H]]; discriminate H.
    - apply weather_tips_inv in H as [H _]. discriminate H. }
  unfold expected_tips. rewrite !length_app.
  pose proof (tips_length_le (get marine "sea_surface_temp")
                (get marine "wave_height") (get weather "wind_speed")
                (get weather "uv_index") (get_or_0 weather "weather_code")).
  lia.
Qed.

Lemma danger_tips_close_the_beach_witness :
  ∃ r : Result,
    evaluate_conditions (elements SAFETY_FACTORS)
      {[ "wave_height" := Some (py_float 3.5) ]} ∅ = Some r
    ∧ "Dangerous waves. Red flag conditions." ∈ r_tips r
    ∧ r_verdict r = NO.
Proof.
  destruct (danger_tips_close_the_beach (elements SAFETY_FACTORS)
              {[ "wave_height" := Some (py_float 3.5) ]} ∅) as [Hret Hall].
  destruct Hret as [r Hr]; [vm_compute; reflexivity|].
  destruct (Hall r Hr) as (Hwaves & _).
  exists r. split; [exact Hr|].
  assert ("Dangerous waves. Red flag conditions." ∈ r_tips r) as Hin.
  { apply evaluate_conditions_inv in Hr as ->.
    unfold expected_result, r_tips. vm_compute. apply list_elem_of_here. }
  split; [exact Hin | exact (Hwaves Hin)].
Defined.


(** * app.py: word wrapping

    Python strings are modelled by [string]; [len] is [String.length], which
    agrees with Python on ASCII text (the jokes that are wrapped are
    ASCII). *)

Module App.

Definition newline : string := String "010"%char "".

(** [c.isspace()] on ASCII: tab to carriage return, the four separators
    28..31 and the space. *)
Definition is_space (c : ascii) : bool :=
  let n := nat_of_ascii c in
  ((9 <=? n)%nat && (n <=? 13)%nat) || ((28 <=? n)%nat && (n <=? 32)%nat).

(** [text.split()]: the maximal runs of characters that are not white
    space; [word] is the run being read. *)
Fixpoint split_loop (text word : string) : list string :=
  match text with
  | EmptyString =>
      match word with
      | EmptyString => []
      | _ => [word]
      end
  | String c rest =>
      if is_space c then
        match word with
        | EmptyString => split_loop rest ""
        | _ => word :: split_loop rest ""
        end
      else split_loop rest (word +:+ String c "")
  end.

Definition split (text : string) : list string := split_loop text "".

(** The body of the [for] loop of [_wrap_text]; the state is
    [(lines, current)]. *)
Definition wrap_step (width : Z) (indent : string)
    (st : list string * string) (word : string) : list string * string :=
  let lines := st.1 in
  let current := st.2 in
  let '(lines, current) :=
    if (width + Z.of_nat (String.length indent)
        <? Z.of_nat (String.length current) + Z.of_nat (String.length word)
           + 1)%Z
       && negb (String.eqb current indent)
    then (lines ++ [current], indent)
    else (lines, current) in
  (lines,
   current +:+ ((if negb (String.eqb current indent) then " " else "")
                +:+ word)).

(** The list [lines] that [_wrap_text] joins. *)
Definition wrap_lines (text : string) (width : Z) (indent : string)
  : list string :=
  let words := split text in
  let '(lines, current) :=
    foldl (wrap_step width indent) ([], indent) words in
  if negb (String.eqb current indent) then lines ++ [current] else lines.

Definition _wrap_text (text : string) (width : Z) (indent : string)
  : string :=
  String.concat newline (wrap_lines text width indent).

(** ** Strings *)

Lemma str_app_cons (c : ascii) (a b : string) :
  String c a +:+ b = String c (a +:+ b).
Proof. reflexivity. Qed.

Lemma str_app_nil_l (s : string) : "" +:+ s = s.
Proof. reflexivity. Qed.

Lemma str_app_nil_r (s : string) : s +:+ "" = s.
Proof.
  induction s as [|c s IH]; [reflexivity|]. by rewrite str_app_cons, IH.
Qed.

Lemma str_app_assoc (a b c : string) : (a +:+ b) +:+ c = a +:+ (b +:+ c).
Proof.
  induction a as [|x a IH]; [reflexivity|]. by rewrite !str_app_cons, IH.
Qed.

Lemma str_length_app (a b : string) :
  String.length (a +:+ b) = String.length a + String.length b.
Proof.
  induction a as [|x a IH]; [reflexivity|].
  rewrite str_app_cons. simpl. by rewrite IH.
Qed.

Lemma str_app_eq_self (a x : string) : a +:+ x = a ↔ x = "".
Proof.
  split; [|intros ->; apply str_app_nil_r].
  intros H. apply (f_equal String.length) in H. rewrite str_length_app in H.
  destruct x; [reflexivity|simpl in H; lia].
Qed.

Lemma str_app_eq_nil (a b : string) : a +:+ b = "" → a = "" ∧ b = "".
Proof.
  destruct a; [rewrite str_app_nil_l; by intros ->|].
  rewrite str_app_cons. discriminate.
Qed.

(** ** The words of a text *)

Lemma split_loop_nonempty text word :
  Forall (λ w, w ≠ "") (split_loop text word).
Proof.
  revert word. induction text as [|c rest IH]; intros word; simpl.
  - destruct word; [constructor|]. repeat constructor. discriminate.
  - destruct (is_space c); [|apply IH].
    destruct word; [apply IH|]. constructor; [discriminate|apply IH].
Qed.

Lemma split_nonempty text : Forall (λ w, w ≠ "") (split text).
Proof. apply split_loop_nonempty. Qed.

(** ** The lines *)

(** A line: the indent, then words separated by one space. *)
Definition line_of (indent : string) (ws : list string) : string :=
  indent +:+ String.concat " " ws.

Lemma concat_words_nil ws :
  Forall (λ w, w ≠ "") ws → String.concat " " ws = "" → ws = [].
Proof.
  intros Hne. destruct ws as [|w [|w' ws]]; simpl; [done| |].
  - intros ->. apply Forall_inv in Hne. done.
  - intros [-> _]%str_app_eq_nil. apply Forall_inv in Hne. done.
Qed.

Lemma line_of_indent indent ws :
  Forall (λ w, w ≠ "") ws → (line_of indent ws = indent ↔ ws = []).
Proof.
  intros Hne. unfold line_of. rewrite str_app_eq_self. split.
  - by apply concat_words_nil.
  - by intros ->.
Qed.

Lemma concat_snoc ws w :
  ws ≠ [] → String.concat " " (ws ++ [w]) = String.concat " " ws +:+ (" " +:+ w).
Proof.
  induction ws as [|x ws IH]; [done|]. intros _.
  destruct ws as [|y ws]; [reflexivity|].
  change (String.concat " " ((x :: y :: ws) ++ [w]))
    with (x +:+ (" " +:+ String.concat " " ((y :: ws) ++ [w]))).
  rewrite IH by done.
  change (String.concat " " (x :: y :: ws))
    with (x +:+ (" " +:+ String.concat " " (y :: ws))).
  by rewrite !str_app_assoc.
Qed.

(** A line fits when it holds one word or is at most
    [width + len(indent)] long. *)
Definition fits (width : Z) (indent : string) (ws : list string) : Prop :=
  length ws = 1
  ∨ (Z.of_nat (String.length (line_of indent ws))
     ≤ width + Z.of_nat (String.length indent))%Z.

(** The loop invariant: the finished lines and the line in progress hold
    the words read so far, in order. *)
Definition wrap_inv (width : Z) (indent : string)
    (st : list string * string) (read : list string) : Prop :=
  ∃ (groups : list (list string)) (cur : list string),
    st.1 = line_of indent <$> groups
    ∧ st.2 = line_of indent cur
    ∧ mjoin groups ++ cur = read
    ∧ Forall (λ g, g ≠ [] ∧ fits width indent g) groups
    ∧ (cur ≠ [] → fits width indent cur).

Lemma wrap_step_inv width indent st read word :
  Forall (λ w, w ≠ "") read → word ≠ "" →
  wrap_inv width indent st read →
  wrap_inv width indent (wrap_step width indent st word) (read ++ [word]).
Proof.
  intros Hread Hword (groups & cur & Hlines & Hcur & Hjoin & Hgroups & Hfit).
  assert (Forall (λ w, w ≠ "") cur) as Hcur_ne.
  { rewrite <- Hjoin in Hread. by apply Forall_app in Hread as [_ ?]. }
  unfold wrap_step. rewrite Hlines, Hcur.
  destruct (decide (cur = [])) as [->|Hne].
  - (* no word on the current line yet *)
    assert (String.eqb (line_of indent []) indent = true) as Heq.
    { apply String.eqb_eq. by apply line_of_indent. }
    rewrite Heq, andb_false_r. cbn [negb fst snd]. rewrite Heq. cbn [negb].
    exists groups, [word]. cbn [fst snd].
    split; [reflexivity|]. split.
    { unfold line_of. cbn [String.concat]. by rewrite str_app_nil_r, str_app_nil_l. }
    split; [by rewrite <- Hjoin, app_nil_r|].
    split; [exact Hgroups|]. intros _. by left.
  - assert (String.eqb (line_of indent cur) indent = false) as Hneq.
    { apply String.eqb_neq. by rewrite line_of_indent. }
    rewrite Hneq, andb_true_r. cbn [negb].
    destruct (_ <? _)%Z eqn:Hover; cbn [fst snd].
    + (* the word starts a new line *)
      rewrite String.eqb_refl. cbn [negb].
      exists (groups ++ [cur]), [word]. cbn [fst snd].
      split; [by rewrite fmap_app|]. split.
      { unfold line_of. cbn [String.concat]. by rewrite str_app_nil_l. }
      split.
      { rewrite <- Hjoin, join_app. simpl. by rewrite app_nil_r. }
      split.
      { apply Forall_app. split; [exact Hgroups|].
        constructor; [|constructor]. split; [exact Hne|by apply Hfit]. }
      intros _. by left.
    + (* the word is added after a space *)
      rewrite Hneq. cbn [negb].
      exists groups, (cur ++ [word]). cbn [fst snd].
      split; [reflexivity|]. split.
      { unfold line_of. rewrite concat_snoc by done. by rewrite str_app_assoc. }
      split. { rewrite <- Hjoin. by rewrite (assoc_L (++)). }
      split; [exact Hgroups|]. intros _. right.
      apply Z.ltb_ge in Hover.
      unfold line_of. rewrite concat_snoc by done.
      rewrite <- str_app_assoc, !str_length_app.
      unfold line_of in Hover. rewrite str_length_app in Hover.
      change (String.length " ") with 1. lia.
Qed.

Lemma wrap_fold_inv width indent words st read :
  Forall (λ w, w ≠ "") read → Forall (λ w, w ≠ "") words →
  wrap_inv width indent st read →
  wrap_inv width indent (foldl (wrap_step width indent) st words)
    (read ++ words).
Proof.
  intros Hread Hwords. revert st read Hread.
  induction Hwords as [|w words Hw _ IH]; intros st read Hread Hinv.
  { by rewrite app_nil_r. }
  simpl. rewrite (cons_middle w read words), (assoc_L (++)).
  apply IH.
  - apply Forall_app. split; [exact Hread|]. by constructor.
  - by apply wrap_step_inv.
Qed.

(** The lines built by the loop of [_wrap_text] are groups of consecutive
    words of the text. *)
Lemma wrap_lines_grouped (text : string) (width : Z) (indent : string) :
  ∃ groups : list (list string),
    wrap_lines text width indent
    = (λ ws, indent +:+ String.concat " " ws) <$> groups
    ∧ mjoin groups = split text
    ∧ Forall (λ ws,
        ws ≠ []
        ∧ (length ws = 1
           ∨ (Z.of_nat (String.length (indent +:+ String.concat " " ws))
              ≤ width + Z.of_nat (String.length indent))%Z)) groups.
Proof.
  pose proof (split_nonempty text) as Hwords.
  pose proof (wrap_fold_inv width indent (split text) ([], indent) []
                (Forall_nil_2 _) Hwords) as Hinv.
  destruct Hinv as (groups & cur & Hlines & Hcur & Hjoin & Hgroups & Hfit).
  { exists [], []. simpl. split; [reflexivity|]. split.
    { unfold line_of. simpl. by rewrite str_app_nil_r. }
    split; [reflexivity|]. split; [constructor|done]. }
  simpl in Hjoin.
  assert (Forall (λ w, w ≠ "") cur) as Hcur_ne.
  { rewrite <- Hjoin in Hwords. by apply Forall_app in Hwords as [_ ?]. }
  unfold wrap_lines.
  destruct (foldl (wrap_step width indent) ([], indent) (split text))
    as [lines current].
  simpl in Hlines, Hcur. subst lines current.
  destruct (decide (cur = [])) as [->|Hne].
  - assert (String.eqb (line_of indent []) indent = true) as ->.
    { apply String.eqb_eq. by apply line_of_indent. }
    cbn [negb]. exists groups. split; [reflexivity|].
    split; [by rewrite <- Hjoin, app_nil_r|exact Hgroups].
  - assert (String.eqb (line_of indent cur) indent = false) as ->.
    { apply String.eqb_neq. by rewrite line_of_indent. }
    cbn [negb]. exists (groups ++ [cur]).
    split; [by rewrite fmap_app|].
    split; [by rewrite join_app; simpl; rewrite app_nil_r|].
    apply Forall_app. split; [exact Hgroups|].
    constructor; [|constructor]. split; [exact Hne|by apply Hfit].
Qed.

(** [_wrap_text] loses no word and creates none: its lines are groups of
    consecutive words of the text, each line being the indent followed by
    the words of its group separated by single spaces.  No line is empty,
    and a line with more than one word is at most [width + len(indent)]
    characters long. *)
Theorem wrap_lines_groups (text : string) (width : Z) (indent : string) :
  ∃ groups : list (list string),
    wrap_lines text width indent
    = (λ ws, indent +:+ String.concat " " ws) <$> groups
    ∧ mjoin groups = split text
    ∧ Forall (λ ws,
        ws ≠ []
        ∧ (length ws = 1
           ∨ (Z.of_nat (String.length (indent +:+ String.concat " " ws))
              ≤ width + Z.of_nat (String.length indent))%Z)) groups
    ∧ _wrap_text text width indent
      = String.concat newline
          ((λ ws, indent +:+ String.concat " " ws) <$> groups).
Proof.
  destruct (wrap_lines_grouped text width indent)
    as (groups & Hlines & Hjoin & Hgroups).
  exists groups. repeat split; [exact Hlines|exact Hjoin|exact Hgroups|].
  unfold _wrap_text. by rewrite Hlines.
Qed.

(** ** Splitting the wrapped text again *)

Fixpoint all_space (s : string) : bool :=
  match s with
  | EmptyString => true
  | String c rest => is_space c && all_space rest
  end.

Fixpoint no_space (s : string) : bool :=
  match s with
  | EmptyString => true
  | String c rest => negb (is_space c) && no_space rest
  end.

Lemma no_space_app a b : no_space (a +:+ b) = no_space a && no_space b.
Proof.
  induction a as [|c a IH]; [reflexivity|].
  rewrite str_app_cons. simpl. rewrite IH. by rewrite andb_assoc.
Qed.

Lemma split_loop_words text word :
  no_space word = true →
  Forall (λ w, w ≠ "" ∧ no_space w = true) (split_loop text word).
Proof.
  revert word. induction text as [|c rest IH]; intros word Hword; simpl.
  - destruct word; [constructor|]. repeat constructor; [discriminate|done].
  - destruct (is_space c) eqn:Hc.
    + destruct word; [by apply IH|].
      constructor; [split; [discriminate|done]|by apply IH].
    + apply IH. rewrite no_space_app, Hword. simpl. by rewrite Hc.
Qed.

Lemma split_loop_word w rest acc :
  no_space w = true → split_loop (w +:+ rest) acc = split_loop rest (acc +:+ w).
Proof.
  revert acc. induction w as [|c w IH]; intros acc Hw.
  { by rewrite str_app_nil_l, str_app_nil_r. }
  simpl in Hw. apply andb_true_iff in Hw as [Hc Hw].
  apply negb_true_iff in Hc.
  rewrite str_app_cons. simpl. rewrite Hc, IH by done.
  by rewrite str_app_assoc.
Qed.

Lemma split_loop_spaces sp rest :
  all_space sp = true → split_loop (sp +:+ rest) "" = split_loop rest "".
Proof.
  induction sp as [|c sp IH]; intros Hsp; [reflexivity|].
  simpl in Hsp. apply andb_true_iff in Hsp as [Hc Hsp].
  rewrite str_app_cons. simpl. rewrite Hc. by apply IH.
Qed.

(** What may follow a word: the end of the text or white space. *)
Definition word_end (tail : string) : Prop :=
  match tail with
  | EmptyString => True
  | String c _ => is_space c = true
  end.

Lemma split_loop_word_end w tail :
  w ≠ "" → no_space w = true → word_end tail →
  split_loop (w +:+ tail) "" = w :: split_loop tail "".
Proof.
  intros Hne Hw Hend. rewrite split_loop_word, str_app_nil_l by done.
  destruct tail as [|c tail]; simpl.
  - by destruct w.
  - simpl in Hend. rewrite Hend. by destruct w.
Qed.

Lemma split_loop_line ws tail :
  Forall (λ w, w ≠ "" ∧ no_space w = true) ws → word_end tail →
  split_loop (String.concat " " ws +:+ tail) "" = ws ++ split_loop tail "".
Proof.
  intros Hws Hend. induction Hws as [|w ws [Hne Hw] Hws IH]; [reflexivity|].
  destruct ws as [|w' ws].
  { simpl. by apply split_loop_word_end. }
  change (String.concat " " (w :: w' :: ws))
    with (w +:+ (" " +:+ String.concat " " (w' :: ws))).
  rewrite !str_app_assoc.
  rewrite split_loop_word_end; [|done|done|reflexivity].
  rewrite (split_loop_spaces " ") by reflexivity.
  by rewrite IH.
Qed.

Lemma split_loop_lines indent (groups : list (list string)) :
  all_space indent = true →
  Forall (Forall (λ w, w ≠ "" ∧ no_space w = true)) groups →
  split_loop
    (String.concat newline
       ((λ ws, indent +:+ String.concat " " ws) <$> groups)) ""
  = mjoin groups.
Proof.
  intros Hindent Hgroups.
  induction Hgroups as [|g groups Hg Hgroups IH]; [reflexivity|].
  destruct groups as [|g' groups].
  { simpl. rewrite split_loop_spaces by done.
    rewrite <- (str_app_nil_r (String.concat " " g)).
    rewrite split_loop_line; [|done|exact I]. reflexivity. }
  rewrite fmap_cons.
  change (String.concat newline
            ((indent +:+ String.concat " " g)
             :: ((λ ws, indent +:+ String.concat " " ws) <$> g' :: groups)))
    with ((indent +:+ String.concat " " g)
          +:+ (newline
               +:+ String.concat newline
                     ((λ ws, indent +:+ String.concat " " ws)
                        <$> g' :: groups))).
  rewrite str_app_assoc, split_loop_spaces by done.
  rewrite split_loop_line; [|done|reflexivity].
  rewrite (split_loop_spaces newline) by reflexivity.
  rewrite IH. reflexivity.
Qed.

(** Wrapping only changes the white space: when the indent consists of
    white space, splitting the wrapped text gives the words of the text
    again. *)
Theorem wrap_text_keeps_words (text : string) (width : Z) (indent : string) :
  all_space indent = true →
  split (_wrap_text text width indent) = split text.
Proof.
  intros Hindent.
  destruct (wrap_lines_grouped text width indent)
    as (groups & Hlines & Hjoin & _).
  unfold _wrap_text. rewrite Hlines. clear Hlines.
  unfold split at 1. rewrite split_loop_lines; [exact Hjoin|exact Hindent|].
  pose proof (split_loop_words text "" eq_refl) as Hwords.
  fold (split text) in Hwords. rewrite <- Hjoin in Hwords.
  clear Hjoin. induction groups as [|g groups IH]; [constructor|].
  simpl in Hwords. apply Forall_app in Hwords as [Hg Hrest].
  constructor; [exact Hg|by apply IH].
Qed.

Lemma wrap_text_keeps_words_witness :
  split (_wrap_text "The quick brown fox" 10 "  ")
  = ["The"; "quick"; "brown"; "fox"].
Proof.
  rewrite (wrap_text_keeps_words "The quick brown fox" 10 "  ");
    reflexivity.
Defined.

(** A text without words, empty or made of white space, wraps to the empty
    string. *)
Theorem wrap_text_blank (text : string) (width : Z) (indent : string) :
  all_space text = true → _wrap_text text width indent = "".
Proof.
  intros Hblank. unfold _wrap_text, wrap_lines.
  assert (split text = []) as ->.
  { unfold split. rewrite <- (str_app_nil_r text).
    by rewrite split_loop_spaces. }
  simpl. by rewrite String.eqb_refl.
Qed.

Lemma wrap_text_blank_witness : _wrap_text "   " 60 "  " = "".
Proof. apply (wrap_text_blank "   " 60 "  "). reflexivity. Defined.

Example wrap_text_example :
  _wrap_text "The quick brown fox" 10 "  "
  = "  The quick" +:+ newline +:+ "  brown fox".
Proof. reflexivity. Qed.

(** * app.py: output format

    [request.args] is modelled by the map from a parameter to its first
    value; user agents and parameters are taken to be ASCII, where
    [str.lower] is [lower]. *)

Definition TERMINAL_AGENTS : list string :=
  ["curl"; "wget"; "httpie"; "fetch"; "lwp-request"; "python-requests"].

(** [needle in hay] *)
Fixpoint contains (needle hay : string) : bool :=
  String.prefix needle hay
  || match hay with
     | EmptyString => false
     | String _ rest => contains needle rest
     end.

Definition _is_terminal (user_agent : string) : bool :=
  match user_agent with
  | EmptyString => true
  | _ =>
      let ua_lower := lower user_agent in
      existsb (λ agent, contains agent ua_lower) TERMINAL_AGENTS
  end.

Definition _get_format (args : gmap string string) (user_agent : string)
  : string :=
  let fmt := lower (default "" (args !! "format")) in
  if bool_decide (fmt ∈ ["json"; "j1"]) then "json"
  else if bool_decide (fmt ∈ ["short"; "s"; "1"]) then "short"
  else if bool_decide (fmt ∈ ["html"]) then "html"
  else if _is_terminal user_agent then "ansi"
  else "html".

Lemma lower_ascii_idemp c : lower_ascii (lower_ascii c) = lower_ascii c.
Proof. destruct c as [[] [] [] [] [] [] [] []]; reflexivity. Qed.

Lemma lower_idemp s : lower (lower s) = lower s.
Proof.
  induction s as [|c s IH]; [reflexivity|].
  simpl. by rewrite lower_ascii_idemp, IH.
Qed.

Lemma lower_app a b : lower (a +:+ b) = lower a +:+ lower b.
Proof.
  induction a as [|c a IH]; [reflexivity|].
  rewrite str_app_cons. simpl. by rewrite IH.
Qed.

Lemma prefix_app a b : String.prefix a (a +:+ b) = true.
Proof.
  induction a as [|c a IH]; [by destruct b|].
  rewrite str_app_cons. simpl.
  destruct (ascii_dec c c); [exact IH|done].
Qed.

Lemma contains_prefix needle hay :
  String.prefix needle hay = true → contains needle hay = true.
Proof. intros H. destruct hay; cbn [contains]; by rewrite H. Qed.

Lemma contains_app pre needle post :
  contains needle (pre +:+ (needle +:+ post)) = true.
Proof.
  induction pre as [|c pre IH].
  - rewrite str_app_nil_l. apply contains_prefix, prefix_app.
  - rewrite str_app_cons. cbn [contains]. rewrite IH. apply orb_true_r.
Qed.

(** A request without user agent counts as a terminal, and so does every
    user agent that contains, in any letter case, one of the names of
    [TERMINAL_AGENTS]; the letter case of the user agent does not matter. *)
Theorem terminal_detection (user_agent : string) :
  _is_terminal "" = true
  ∧ _is_terminal (lower user_agent) = _is_terminal user_agent
  ∧ (∀ agent pre post,
        agent ∈ TERMINAL_AGENTS →
        lower user_agent = pre +:+ (agent +:+ post) →
        _is_terminal user_agent = true).
Proof.
  split; [reflexivity|]. split.
  - destruct user_agent as [|c s]; [reflexivity|].
    unfold _is_terminal. rewrite lower_idemp. reflexivity.
  - intros agent pre post Hin Hlower.
    destruct user_agent as [|c s]; [reflexivity|].
    unfold _is_terminal. rewrite Hlower.
    apply existsb_exists. exists agent.
    split; [by apply list_elem_of_In|apply contains_app].
Qed.

Lemma terminal_detection_witness : _is_terminal "Curl/8.4.0" = true.
Proof.
  destruct (terminal_detection "Curl/8.4.0") as (_ & _ & Hcontains).
  apply (Hcontains "curl" "" "/8.4.0").
  - apply list_elem_of_here.
  - reflexivity.
Defined.

Example browser_is_not_terminal :
  _is_terminal "Mozilla/5.0 (X11; Linux x86_64) Firefox/120.0" = false.
Proof. reflexivity. Qed.

(** The format is one of json, short, html and ansi.  json and short are
    only chosen when the [format] parameter asks for them, whatever the user
    agent is; the letter case of the parameter does not matter; without a
    recognised parameter a terminal gets ansi and any other client html. *)
Theorem format_selection (args : gmap string string) (user_agent : string) :
  _get_format args user_agent ∈ ["json"; "short"; "html"; "ansi"]
  ∧ (_get_format args user_agent = "json" ↔
     lower (default "" (args !! "format")) ∈ ["json"; "j1"])
  ∧ (_get_format args user_agent = "short" ↔
     lower (default "" (args !! "format")) ∈ ["short"; "s"; "1"])
  ∧ (∀ f, _get_format (<["format" := lower f]> args) user_agent
          = _get_format (<["format" := f]> args) user_agent)
  ∧ (args !! "format" = None →
     _get_format args user_agent
     = if _is_terminal user_agent then "ansi" else "html").
Proof.
  unfold _get_format.
  split.
  { repeat case_bool_decide; [| | |destruct (_is_terminal user_agent)];
      repeat first [ apply list_elem_of_here | apply list_elem_of_further ]. }
  split.
  { case_bool_decide as Hj; [done|].
    split; [|done]. repeat case_bool_decide;
      [| |destruct (_is_terminal user_agent)]; intros Heq; discriminate Heq. }
  split.
  { case_bool_decide as Hj.
    - split; [intros Heq; discriminate Heq|]. intros Hs. exfalso.
      repeat (apply elem_of_cons in Hj as [Hj|Hj];
              [rewrite Hj in Hs;
               repeat (apply elem_of_cons in Hs as [Hs|Hs];
                       [discriminate Hs|]);
               by apply elem_of_nil in Hs|]).
      by apply elem_of_nil in Hj.
    - case_bool_decide as Hs; [done|]. split; [|done].
      case_bool_decide; [|destruct (_is_terminal user_agent)];
        intros Heq; discriminate Heq. }
  split.
  { intros f. rewrite !lookup_insert_eq. simpl. by rewrite lower_idemp. }
  intros ->. reflexivity.
Qed.

Lemma format_selection_witness :
  _get_format ∅ "curl/8.4.0" = "ansi".
Proof.
  destruct (format_selection ∅ "curl/8.4.0") as (_ & _ & _ & _ & Hdefault).
  rewrite Hdefault; reflexivity.
Defined.

End App.

(** * lib/easter_eggs.py and lib/geocoding.py

    The answer for a place that is not on the coast.  Location names are
    taken to be ASCII, where [str.lower] is [lower], [str.strip] removes the
    characters of [is_space] and [ord] is the character code. *)

Module Eggs.
Import App.

(** An entry of the tables: a curated entry has the keys [water], [joke]
    and [suggestion], a generic one only [joke]. *)
Record Egg := mkEgg {
  water : option string;
  joke : string;
  suggestion : option string
}.

Definition INLAND_JOKES : gmap string Egg :=
  list_to_map
    [ ("paris",
       mkEgg (Some "La Seine")
         ("The Seine has improved... technically. The fish are back. "
          +:+ "They even held Olympic swimming here. "
          +:+ "You, however, should probably stick to the pools.")
         (Some "Nice"));
      ("london",
       mkEgg (Some "The Thames")
         ("The Thames was once declared biologically dead. "
          +:+ "It's recovered since, but 'recovered' is doing a lot of heavy lifting. "
          +:+ "Seals live in it now. You should not.")
         (Some "Brighton"));
      ("cairo",
       mkEgg (Some "The Nile")
         ("The Nile has sustained civilization for 5,000 years. "
          +:+ "Swimming in it, however, has never been the move. "
          +:+ "Crocodiles, currents, and questionable water quality -- pick your adventure.")
         (Some "Hurghada"));
      ("rome",
       mkEgg (Some "The Tiber")
         ("Legend says Romulus and Remus were thrown into the Tiber and survived. "
          +:+ "They were also raised by a wolf, so maybe don't use them as role models. "
          +:+ "The beach at Ostia is 30 minutes away.")
         (Some "Ostia"));
      ("budapest",
       mkEgg (Some "The Danube")
         ("The Blue Danube is famously not blue. "
          +:+ "Strauss lied, and the river is about as swimmable as a Viennese waltz is relaxing. "
          +:+ "Try the thermal baths instead -- Budapest has 120 of them.")
         (Some "Split"));
      ("vienna",
       mkEgg (Some "The Danube")
         ("Strauss called it the Blue Danube. He was being generous. "
          +:+ "The Alte Donau (Old Danube) is actually swimmable in summer though -- "
          +:+ "the Viennese have been keeping that secret for decades.")
         (Some "Split"));
      ("new york",
       mkEgg (Some "The Hudson")
         ("People have swum in the Hudson. People have also regretted it. "
          +:+ "The East River isn't actually a river -- it's a tidal strait, "
          +:+ "and it would like to keep you out.")
         (Some "Miami"));
      ("berlin",
       mkEgg (Some "The Spree")
         ("Berliners swim in the Spree every summer. "
          +:+ "The city has been trying to make it officially safe for years. "
          +:+ "'Trying' is the key word.")
         (Some "Barcelona"));
      ("amsterdam",
       mkEgg (Some "The Canals")
         ("The canals look charming from a boat. "
          +:+ "From inside them, less so. "
          +:+ "There are roughly 12,000 bikes at the bottom. Watch your step.")
         (Some "Scheveningen"));
      ("prague",
       mkEgg (Some "The Vltava")
         ("Smetana wrote a whole symphony about the Vltava. "
          +:+ "Beautiful music. Less beautiful water. "
          +:+ "The river is better admired from Charles Bridge with a beer in hand.")
         (Some "Split"));
      ("dublin",
       mkEgg (Some "The Liffey")
         ("The Liffey runs through the heart of Dublin. "
          +:+ "Dubliners have a saying: 'Don't fall in.' "
          +:+ "That's the whole saying. Take the DART to Sandycove instead.")
         (Some "Galway"));
      ("bangkok",
       mkEgg (Some "The Chao Phraya")
         ("The Chao Phraya is a highway of longtail boats, ferries, and floating markets. "
          +:+ "Swimming in it is technically possible in the way that anything is technically possible. "
          +:+ "Pattaya is two hours away.")
         (Some "Phuket"));
      ("moscow",
       mkEgg (Some "The Moskva")
         ("The Moskva River has outdoor swimming pools nearby. "
          +:+ "The river itself? Nyet. "
          +:+ "Even in summer, Muscovites know better.")
         (Some "Sochi"));
      ("madrid",
       mkEgg (Some "The Manzanares")
         ("The Manzanares is more of a creek with ambitions. "
          +:+ "Mark Twain allegedly said the saddest thing in Madrid was the river. "
          +:+ "Valencia's beach is a quick train ride away.")
         (Some "Valencia"));
      ("tokyo",
       mkEgg (Some "The Sumida")
         ("The Sumida River hosts spectacular fireworks festivals. "
          +:+ "Swimming is not one of the festivities. "
          +:+ "Shonan Beach is an hour south -- the surfers will welcome you.")
         (Some "Kamakura")) ].

Definition GENERIC_JOKES : list Egg :=
  [ mkEgg None
      ("No ocean here, but we admire the optimism. "
       +:+ "Swim.today needs waves, tides, and actual sea water to work its magic.")
      None;
    mkEgg None
      ("This is firmly landlocked territory. "
       +:+ "The nearest body of water is probably a fountain in a park. "
       +:+ "We'd check it, but our fish would judge us.")
      None;
    mkEgg None
      ("Our satellite-fish scanned the area. No ocean detected. "
       +:+ "If you squint at a puddle hard enough, it's almost the same thing.")
      None;
    mkEgg None
      ("The ocean is out there somewhere, just... not here. "
       +:+ "But hey, at least you don't have to worry about sharks.")
      None;
    mkEgg None
      ("We checked. Twice. Definitely no coast here. "
       +:+ "On the bright side, no jellyfish either.")
      None ].

(** [s.split(sep)[0]] for a separator of one character: the text before
    the first separator. *)
Fixpoint split_first (sep : ascii) (s : string) : string :=
  match s with
  | EmptyString => EmptyString
  | String c rest =>
      if Ascii.eqb c sep then EmptyString else String c (split_first sep rest)
  end.

Fixpoint lstrip (s : string) : string :=
  match s with
  | EmptyString => EmptyString
  | String c rest => if is_space c then lstrip rest else s
  end.

Fixpoint rstrip (s : string) : string :=
  match s with
  | EmptyString => EmptyString
  | String c rest =>
      match rstrip rest with
      | EmptyString => if is_space c then EmptyString else String c EmptyString
      | r => String c r
      end
  end.

(** [s.strip()] *)
Definition strip (s : string) : string := rstrip (lstrip s).

(** [sum(ord(c) for c in city)] *)
Fixpoint sum_ord (s : string) : nat :=
  match s with
  | EmptyString => 0
  | String c rest => nat_of_ascii c + sum_ord rest
  end.

(** The result is [None] where the access [GENERIC_JOKES[idx]] would raise
    [IndexError]. *)
Definition get_easter_egg (location : string) : option Egg :=
  let city := lower (strip (split_first "," location)) in
  match INLAND_JOKES !! city with
  | Some egg => Some egg
  | None =>
      let idx := sum_ord city mod length GENERIC_JOKES in
      GENERIC_JOKES !! idx
  end.

(** Truth value of [geo.get(key)] for a text field. *)
Definition field_truthy (field : option string) : bool :=
  match field with
  | Some (String _ _) => true
  | _ => false
  end.

(** [format_location]; [geo] holds the text fields of the geocoding
    result.  The result is [None] where [geo["name"]] raises [KeyError]. *)
Definition format_location (geo : gmap string string) : option string :=
  name ← geo !! "name";
  let parts := [name] in
  let parts :=
    if field_truthy (geo !! "admin1")
    then parts ++ [default "" (geo !! "admin1")] else parts in
  let parts :=
    if field_truthy (geo !! "country")
    then parts ++ [default "" (geo !! "country")] else parts in
  Some (String.concat ", " parts).

(** ** Properties *)

Lemma inland_entries city egg :
  INLAND_JOKES !! city = Some egg →
  joke egg ≠ "" ∧ is_Some (water egg) ∧ is_Some (suggestion egg).
Proof.
  unfold INLAND_JOKES. intros Hin. apply elem_of_list_to_map_2 in Hin.
  repeat (apply elem_of_cons in Hin as [Hin|Hin];
          [injection Hin as _ ->;
           split; [vm_compute; discriminate|split; eexists; reflexivity]|]).
  by apply elem_of_nil in Hin.
Qed.

Lemma generic_entries egg :
  egg ∈ GENERIC_JOKES →
  joke egg ≠ "" ∧ water egg = None ∧ suggestion egg = None.
Proof.
  unfold GENERIC_JOKES. intros Hin.
  repeat (apply elem_of_cons in Hin as [Hin|Hin];
          [rewrite Hin;
           split; [vm_compute; discriminate|split; reflexivity]|]).
  by apply elem_of_nil in Hin.
Qed.

(** [get_easter_egg] returns an entry for every location: the index of the
    generic entry is always in range.  The entry has a joke that is not
    empty, and it has the keys [water] and [suggestion] exactly when the
    city, that is the text before the first comma, stripped and in lower
    case, is a key of [INLAND_JOKES]. *)
Theorem easter_egg_always (location : string) :
  ∃ egg,
    get_easter_egg location = Some egg
    ∧ joke egg ≠ ""
    ∧ (is_Some (water egg)
       ↔ is_Some (INLAND_JOKES !! lower (strip (split_first "," location))))
    ∧ (is_Some (suggestion egg)
       ↔ is_Some (INLAND_JOKES !! lower (strip (split_first "," location)))).
Proof.
  unfold get_easter_egg.
  generalize (lower (strip (split_first "," location))). intros city.
  destruct (INLAND_JOKES !! city) as [egg|] eqn:Hcity.
  - exists egg. destruct (inland_entries city egg Hcity) as (Hj & Hw & Hs).
    split; [reflexivity|]. split; [exact Hj|].
    split; (split; intros _; [eexists; reflexivity|assumption]).
  - assert (sum_ord city mod length GENERIC_JOKES < length GENERIC_JOKES)
      as Hlt by (apply Nat.mod_upper_bound; discriminate).
    apply lookup_lt_is_Some_2 in Hlt as [egg Hegg].
    exists egg. split; [exact Hegg|].
    apply list_elem_of_lookup_2 in Hegg.
    destruct (generic_entries egg Hegg) as (Hj & Hw & Hs).
    split; [exact Hj|]. rewrite Hw, Hs.
    split; (split; intros [x Hx]; discriminate Hx).
Qed.

Lemma eqb_comma_lower c :
  Ascii.eqb (lower_ascii c) "," = Ascii.eqb c ",".
Proof. destruct c as [[] [] [] [] [] [] [] []]; reflexivity. Qed.

Lemma is_space_lower c : is_space (lower_ascii c) = is_space c.
Proof. destruct c as [[] [] [] [] [] [] [] []]; reflexivity. Qed.

Lemma first_part_lower s : split_first "," (lower s) = lower (split_first "," s).
Proof.
  induction s as [|c s IH]; [reflexivity|].
  simpl. rewrite eqb_comma_lower.
  destruct (Ascii.eqb c ","); [reflexivity|]. simpl. by rewrite IH.
Qed.

Lemma lstrip_lower s : lstrip (lower s) = lower (lstrip s).
Proof.
  induction s as [|c s IH]; [reflexivity|].
  simpl. rewrite is_space_lower. by destruct (is_space c).
Qed.

Lemma rstrip_lower s : rstrip (lower s) = lower (rstrip s).
Proof.
  induction s as [|c s IH]; [reflexivity|].
  simpl. rewrite IH, is_space_lower.
  destruct (rstrip s); simpl; [by destruct (is_space c)|reflexivity].
Qed.

Lemma strip_lower s : strip (lower s) = lower (strip s).
Proof. unfold strip. by rewrite lstrip_lower, rstrip_lower. Qed.

Lemma get_easter_egg_lower s : get_easter_egg (lower s) = get_easter_egg s.
Proof.
  unfold get_easter_egg.
  by rewrite first_part_lower, strip_lower, lower_idemp.
Qed.

(** The letter case of the location does not matter: two locations that
    are equal up to the case of their letters get the same entry. *)
Theorem easter_egg_case_insensitive (a b : string) :
  lower a = lower b → get_easter_egg a = get_easter_egg b.
Proof.
  intros Heq.
  rewrite <- (get_easter_egg_lower a), <- (get_easter_egg_lower b).
  by rewrite Heq.
Qed.

Lemma easter_egg_case_insensitive_witness :
  get_easter_egg " PARIS, Ile-de-France" = get_easter_egg " Paris, ILE-DE-FRANCE".
Proof.
  apply (easter_egg_case_insensitive
           " PARIS, Ile-de-France" " Paris, ILE-DE-FRANCE").
  reflexivity.
Defined.

Lemma first_part_app name tail :
  contains "," name = false →
  tail = "" ∨ (∃ rest, tail = String "," rest) →
  split_first "," (name +:+ tail) = name.
Proof.
  intros Hno Htail. induction name as [|c name IH].
  - rewrite str_app_nil_l. destruct Htail as [->|[rest ->]]; reflexivity.
  - rewrite str_app_cons. cbn [contains] in Hno.
    apply orb_false_elim in Hno as [Hpre Hrest].
    cbn [split_first]. destruct (Ascii.eqb_spec c ",") as [->|Hne].
    + exfalso. cbn in Hpre. by destruct name.
    + by rewrite (IH Hrest).
Qed.

Lemma format_location_shape geo name :
  geo !! "name" = Some name →
  ∃ tail, format_location geo = Some (name +:+ tail)
          ∧ (tail = "" ∨ ∃ rest, tail = String "," rest).
Proof.
  intros Hname. unfold format_location. rewrite Hname. cbn [mbind option_bind].
  generalize (geo !! "admin1"), (geo !! "country"). intros admin country.
  destruct (field_truthy admin), (field_truthy country); cbn [app String.concat].
  - exists (", " +:+ default "" admin +:+ ", " +:+ default "" country).
    split; [reflexivity|]. right. eexists. reflexivity.
  - exists (", " +:+ default "" admin). split; [reflexivity|].
    right. eexists. reflexivity.
  - exists (", " +:+ default "" country). split; [reflexivity|].
    right. eexists. reflexivity.
  - exists "". split; [by rewrite str_app_nil_r|]. by left.
Qed.

(** The region and the country that [format_location] appends do not change
    the answer: when the name of the place holds no comma, the entry for the
    formatted location is the entry for the name alone. *)
Theorem easter_egg_of_formatted_location (geo : gmap string string)
    (name : string) :
  geo !! "name" = Some name →
  contains "," name = false →
  ∃ location,
    format_location geo = Some location
    ∧ split_first "," location = name
    ∧ get_easter_egg location = get_easter_egg name.
Proof.
  intros Hname Hno.
  destruct (format_location_shape geo name Hname) as (tail & Hfmt & Htail).
  exists (name +:+ tail). split; [exact Hfmt|].
  assert (split_first "," (name +:+ tail) = name) as Hfirst
    by (by apply first_part_app).
  split; [exact Hfirst|].
  assert (split_first "," name = name) as Hself.
  { rewrite <- (str_app_nil_r name) at 1.
    apply first_part_app; [exact Hno|by left]. }
  unfold get_easter_egg. by rewrite Hfirst, Hself.
Qed.

Lemma easter_egg_of_formatted_location_witness :
  ∃ location,
    format_location
      (<["name" := "Paris"]> (<["admin1" := "Ile-de-France"]>
         (<["country" := "France"]> ∅)))
    = Some location
    ∧ split_first "," location = "Paris"
    ∧ get_easter_egg location = get_easter_egg "Paris".
Proof.
  apply (easter_egg_of_formatted_location
           (<["name" := "Paris"]> (<["admin1" := "Ile-de-France"]>
              (<["country" := "France"]> ∅))) "Paris").
  - vm_compute. reflexivity.
  - reflexivity.
Defined.

(** What [_not_coastal_response] shows of an entry: [joke.split(".")[0] +
    "."] in the short format, and the joke wrapped at 60 columns with an
    indent of two spaces in the ansi format. *)
Definition short_joke (egg : Egg) : string :=
  split_first "." (joke egg) +:+ ".".

Definition wrapped_joke (egg : Egg) : list string :=
  wrap_lines (joke egg) 60 "  ".

Definition displays_well (egg : Egg) : bool :=
  String.prefix (short_joke egg) (joke egg)
  && forallb (λ line, String.length line <=? 62) (wrapped_joke egg).

Lemma tables_display_well :
  map_Forall (λ _ egg, displays_well egg = true) INLAND_JOKES
  ∧ Forall (λ egg, displays_well egg = true) GENERIC_JOKES.
Proof.
  split.
  - intros city egg Hin. unfold INLAND_JOKES in Hin.
    apply elem_of_list_to_map_2 in Hin.
    repeat (apply elem_of_cons in Hin as [Hin|Hin];
            [injection Hin as _ ->; vm_compute; reflexivity|]).
    by apply elem_of_nil in Hin.
  - unfold GENERIC_JOKES.
    repeat (apply Forall_cons_2; [vm_compute; reflexivity|]).
    apply Forall_nil_2.
Qed.

(** Whatever the location, the joke of its entry displays well: the short
    answer, the text up to the first full stop, is the first sentence of the
    joke, and no line of the wrapped joke is longer than 62 characters. *)
Theorem easter_egg_display (location : string) (egg : Egg) :
  get_easter_egg location = Some egg →
  String.prefix (short_joke egg) (joke egg) = true
  ∧ Forall (λ line, String.length line ≤ 62) (wrapped_joke egg).
Proof.
  intros Hegg.
  destruct tables_display_well as [Hinland Hgeneric].
  assert (displays_well egg = true) as Hok.
  { unfold get_easter_egg in Hegg.
    destruct (INLAND_JOKES !! lower (strip (split_first "," location)))
      as [egg'|] eqn:Hcity.
    - injection Hegg as <-. exact (Hinland _ _ Hcity).
    - rewrite Forall_forall in Hgeneric. apply Hgeneric.
      by eapply list_elem_of_lookup_2. }
  unfold displays_well in Hok. apply andb_prop in Hok as [Hshort Hlines].
  split; [exact Hshort|].
  rewrite forallb_forall in Hlines. apply Forall_forall.
  intros line Hin. apply Nat.leb_le, Hlines. by apply list_elem_of_In.
Qed.

Lemma easter_egg_display_witness :
  ∃ egg,
    get_easter_egg "Zurich" = Some egg
    ∧ String.prefix (short_joke egg) (joke egg) = true
    ∧ Forall (λ line, String.length line ≤ 62) (wrapped_joke egg).
Proof.
  eexists. split; [vm_compute; reflexivity|].
  apply (easter_egg_display "Zurich"). vm_compute. reflexivity.
Defined.

Example paris_is_curated :
  water <$> get_easter_egg "Paris, Ile-de-France, France" = Some (Some "La Seine").
Proof. vm_compute. reflexivity. Qed.

End Eggs.

(** * lib/renderer.py: a metric line and its visible text

    The ANSI codes and the bar constants are those of lib/constants.py.
    Texts are taken to be ASCII, where [len] is [String.length]. *)

Module Renderer.
Import App.

Definition ESC : ascii := "027"%char.

Definition RESET : string := String ESC "[0m".
Definition BOLD : string := String ESC "[1m".
Definition DIM : string := String ESC "[2m".
Definition RED : string := String ESC "[31m".
Definition GREEN : string := String ESC "[32m".
Definition YELLOW : string := String ESC "[33m".
Definition BLUE : string := String ESC "[34m".
Definition WHITE : string := String ESC "[37m".
Definition BRIGHT_RED : string := String ESC "[91m".
Definition BRIGHT_GREEN : string := String ESC "[92m".
Definition BRIGHT_YELLOW : string := String ESC "[93m".
Definition BRIGHT_WHITE : string := String ESC "[97m".

Definition VERDICT_COLORS (verdict : Verdict) : string :=
  match verdict with
  | YES => BRIGHT_GREEN
  | MAYBE => BRIGHT_YELLOW
  | NO => BRIGHT_RED
  end.

Definition BAR_FILLED : string := "#".
Definition BAR_EMPTY : string := "-".
Definition BAR_LENGTH : Z := 10.

Fixpoint str_repeat (s : string) (n : nat) : string :=
  match n with
  | O => EmptyString
  | S n => s +:+ str_repeat s n
  end.

(** [s * n]: empty when [n] is not positive. *)
Definition str_mul (s : string) (n : Z) : string := str_repeat s (Z.to_nat n).

(** The format [{s:<width}]. *)
Definition ljust (s : string) (width : nat) : string :=
  s +:+ str_repeat " " (width - String.length s).

Definition _temp_bar_color (fill : Z) (invert : bool) : string :=
  if (fill <=? 3)%Z then BLUE
  else if (fill <=? 6)%Z then BRIGHT_GREEN
  else if (fill <=? 8)%Z then GREEN
  else YELLOW.

Definition _wave_bar_color (fill : Z) (invert : bool) : string :=
  if (fill <=? 3)%Z then BRIGHT_GREEN
  else if (fill <=? 5)%Z then GREEN
  else if (fill <=? 7)%Z then YELLOW
  else RED.

Definition _danger_bar_color (fill : Z) (invert : bool) : string :=
  if (fill <=? 3)%Z then BRIGHT_GREEN
  else if (fill <=? 5)%Z then GREEN
  else if (fill <=? 7)%Z then YELLOW
  else RED.

Definition _uv_bar_color (fill : Z) (invert : bool) : string :=
  if (fill <=? 2)%Z then BRIGHT_GREEN
  else if (fill <=? 5)%Z then GREEN
  else if (fill <=? 7)%Z then YELLOW
  else if (fill <=? 10)%Z then RED
  else BRIGHT_RED.

(** The bar of [_metric_line]: the clamped fill, the colour and the two
    runs of cells. *)
Definition bar_part (bar_fill : Z) (bar_color_fn : option (Z → bool → string))
    (invert : bool) : string :=
  let bar_fill := Z.max 0 (Z.min BAR_LENGTH bar_fill) in
  let bar_color :=
    match bar_color_fn with
    | Some fn => fn bar_fill invert
    | None => GREEN
    end in
  let filled := str_mul BAR_FILLED bar_fill in
  let empty := str_mul BAR_EMPTY (BAR_LENGTH - bar_fill) in
  bar_color +:+ filled +:+ DIM +:+ empty +:+ RESET.

Definition _metric_line (name value_str : string) (bar_fill : Z)
    (label : string) (verdict : option Verdict)
    (bar_color_fn : option (Z → bool → string)) (invert : bool) : string :=
  let name_part := "  " +:+ WHITE +:+ ljust name 15 +:+ RESET in
  let value_part := BRIGHT_WHITE +:+ ljust value_str 18 +:+ RESET in
  let label_color :=
    match verdict with
    | Some v => VERDICT_COLORS v
    | None => WHITE
    end in
  let label_part := "  " +:+ label_color +:+ label +:+ RESET in
  name_part +:+ value_part +:+ bar_part bar_fill bar_color_fn invert
  +:+ label_part.

Definition _metric_line_na (name reason : string) : string :=
  "  " +:+ WHITE +:+ ljust name 15 +:+ RESET +:+ DIM +:+ reason +:+ RESET.

(** ** [_strip_ansi]

    [re.sub] with the pattern [\033\[[0-9;]*m] and an empty replacement: at
    each position, a match of the pattern is skipped and scanning goes on
    after it; where there is none, the character is kept. *)

Definition is_param (c : ascii) : bool :=
  let n := nat_of_ascii c in
  ((48 <=? n)%nat && (n <=? 57)%nat) || (n =? 59)%nat.

(** Length of the match of [[0-9;]*m] at the start of [s]. *)
Fixpoint params_match (s : string) : option nat :=
  match s with
  | EmptyString => None
  | String c rest =>
      if is_param c then S <$> params_match rest
      else if Ascii.eqb c "m" then Some 1
      else None
  end.

(** Length of the match of the whole pattern at the start of [text]. *)
Definition sgr_match (text : string) : option nat :=
  match text with
  | String e (String b rest) =>
      if Ascii.eqb e ESC && Ascii.eqb b "[" then
        (λ n, 2 + n) <$> params_match rest
      else None
  | _ => None
  end.

(** [skip] is the number of characters of the current match still to be
    passed over. *)
Fixpoint strip_loop (text : string) (skip : nat) : string :=
  match text with
  | EmptyString => EmptyString
  | String c rest =>
      match skip with
      | S k => strip_loop rest k
      | O =>
          match sgr_match text with
          | Some n => strip_loop rest (n - 1)
          | None => String c (strip_loop rest 0)
          end
      end
  end.

Definition _strip_ansi (text : string) : string := strip_loop text 0.

(** ** Properties *)

Fixpoint all_params (s : string) : bool :=
  match s with
  | EmptyString => true
  | String c rest => is_param c && all_params rest
  end.

(** [chr(27) not in s] *)
Fixpoint no_escape (s : string) : bool :=
  match s with
  | EmptyString => true
  | String c rest => negb (Ascii.eqb c ESC) && no_escape rest
  end.

(** A colour code: the escape character, a bracket, digits and semicolons,
    and the letter m. *)
Definition sgr (code : string) : Prop :=
  ∃ params,
    all_params params = true ∧ code = String ESC ("[" +:+ params +:+ "m").

Lemma params_match_ok params rest :
  all_params params = true →
  params_match (params +:+ String "m" rest) = Some (S (String.length params)).
Proof.
  induction params as [|c params IH]; [reflexivity|].
  cbn [all_params]. intros [Hc Hrest]%andb_prop.
  rewrite str_app_cons. cbn [params_match String.length].
  by rewrite Hc, (IH Hrest).
Qed.

Lemma strip_loop_skip a b :
  strip_loop (a +:+ b) (String.length a) = strip_loop b 0.
Proof.
  induction a as [|c a IH]; [reflexivity|].
  rewrite str_app_cons. exact IH.
Qed.

Lemma strip_sgr code rest :
  sgr code → _strip_ansi (code +:+ rest) = _strip_ansi rest.
Proof.
  intros (params & Hparams & ->). unfold _strip_ansi.
  rewrite !str_app_cons, str_app_nil_l, str_app_assoc.
  change ("m" +:+ rest) with (String "m" rest).
  cbn [strip_loop sgr_match].
  rewrite Ascii.eqb_refl. cbn [andb Ascii.eqb Bool.eqb].
  rewrite (params_match_ok params rest Hparams). cbn [fmap option_fmap option_map].
  replace (2 + S (String.length params) - 1)
    with (String.length (String "[" (params +:+ "m"))).
  - rewrite <- (strip_loop_skip (String "[" (params +:+ "m")) rest).
    by rewrite str_app_cons, str_app_assoc.
  - cbn [String.length]. rewrite str_length_app. cbn [String.length]. lia.
Qed.

Lemma strip_sgr_end code : sgr code → _strip_ansi code = "".
Proof.
  intros Hcode. rewrite <- (str_app_nil_r code). by rewrite strip_sgr.
Qed.

Lemma strip_plain text rest :
  no_escape text = true → _strip_ansi (text +:+ rest) = text +:+ _strip_ansi rest.
Proof.
  unfold _strip_ansi. induction text as [|c text IH]; [reflexivity|].
  cbn [no_escape]. intros [Hc Hrest]%andb_prop.
  rewrite str_app_cons. cbn [strip_loop].
  assert (sgr_match (String c (text +:+ rest)) = None) as ->.
  { cbn [sgr_match]. destruct (text +:+ rest); [reflexivity|].
    apply negb_true_iff in Hc. by rewrite Hc. }
  by rewrite (IH Hrest).
Qed.

Lemma strip_plain_end text : no_escape text = true → _strip_ansi text = text.
Proof.
  intros Hplain. rewrite <- (str_app_nil_r text) at 1.
  rewrite (strip_plain text "" Hplain). apply str_app_nil_r.
Qed.

(** [_strip_ansi] removes a colour code and keeps a text without escape
    character as it is. *)
Theorem strip_ansi_removes_codes (params text rest : string) :
  all_params params = true →
  no_escape text = true →
  _strip_ansi (String ESC ("[" +:+ params +:+ "m") +:+ text +:+ rest)
  = text +:+ _strip_ansi rest
  ∧ _strip_ansi text = text.
Proof.
  intros Hparams Hplain. split; [|by apply strip_plain_end].
  rewrite strip_sgr by (by exists params). by apply strip_plain.
Qed.

Lemma strip_ansi_removes_codes_witness :
  _strip_ansi
    (String ESC ("[" +:+ "1;96" +:+ "m") +:+ "Can I Swim Today?" +:+ RESET)
  = "Can I Swim Today?" +:+ _strip_ansi RESET
  ∧ _strip_ansi "Can I Swim Today?" = "Can I Swim Today?".
Proof.
  apply (strip_ansi_removes_codes "1;96" "Can I Swim Today?" RESET);
    reflexivity.
Defined.

(** Stripping once is not always enough: a code can appear when another one
    is removed from inside it. *)
Example strip_ansi_not_idempotent :
  _strip_ansi (String ESC (RESET +:+ "[0m")) = RESET
  ∧ _strip_ansi (_strip_ansi (String ESC (RESET +:+ "[0m"))) = "".
Proof. split; reflexivity. Qed.

Lemma sgr_const (digits : string) :
  all_params digits = true → sgr (String ESC ("[" +:+ digits +:+ "m")).
Proof. intros H. by exists digits. Qed.

Lemma sgr_RESET : sgr RESET.
Proof. by apply (sgr_const "0"). Qed.

Lemma sgr_DIM : sgr DIM.
Proof. by apply (sgr_const "2"). Qed.

Lemma sgr_WHITE : sgr WHITE.
Proof. by apply (sgr_const "37"). Qed.

Lemma sgr_BRIGHT_WHITE : sgr BRIGHT_WHITE.
Proof. by apply (sgr_const "97"). Qed.

Lemma sgr_GREEN : sgr GREEN.
Proof. by apply (sgr_const "32"). Qed.

Lemma sgr_VERDICT_COLORS verdict : sgr (VERDICT_COLORS verdict).
Proof.
  destruct verdict;
    [by apply (sgr_const "92")|by apply (sgr_const "93")
    |by apply (sgr_const "91")].
Qed.

(** The colour functions that [render_ansi] passes to [_metric_line]. *)
Definition BAR_COLOR_FNS : list (option (Z → bool → string)) :=
  [ None; Some _temp_bar_color; Some _wave_bar_color;
    Some _danger_bar_color; Some _uv_bar_color ].

Lemma sgr_bar_color fn fill invert :
  Some fn ∈ BAR_COLOR_FNS → sgr (fn fill invert).
Proof.
  unfold BAR_COLOR_FNS. intros Hin.
  repeat (apply elem_of_cons in Hin as [Hin|Hin];
          [first [discriminate Hin | injection Hin as ->]|]);
    [| | | |by apply elem_of_nil in Hin].
  - unfold _temp_bar_color. repeat case_match;
      [by apply (sgr_const "34")|by apply (sgr_const "92")
      |by apply (sgr_const "32")|by apply (sgr_const "33")].
  - unfold _wave_bar_color. repeat case_match;
      [by apply (sgr_const "92")|by apply (sgr_const "32")
      |by apply (sgr_const "33")|by apply (sgr_const "31")].
  - unfold _danger_bar_color. repeat case_match;
      [by apply (sgr_const "92")|by apply (sgr_const "32")
      |by apply (sgr_const "33")|by apply (sgr_const "31")].
  - unfold _uv_bar_color. repeat case_match;
      [by apply (sgr_const "92")|by apply (sgr_const "32")
      |by apply (sgr_const "33")|by apply (sgr_const "31")
      |by apply (sgr_const "91")].
Qed.

Lemma no_escape_app a b :
  no_escape a = true → no_escape b = true → no_escape (a +:+ b) = true.
Proof.
  intros Ha Hb. induction a as [|c a IH]; [exact Hb|].
  cbn [no_escape] in Ha. apply andb_prop in Ha as [Hc Ha].
  rewrite str_app_cons. cbn [no_escape]. by rewrite Hc, (IH Ha).
Qed.

Lemma no_escape_repeat s n :
  no_escape s = true → no_escape (str_repeat s n) = true.
Proof.
  intros Hs. induction n as [|n IH]; [reflexivity|].
  cbn [str_repeat]. by apply no_escape_app.
Qed.

Lemma no_escape_ljust s width :
  no_escape s = true → no_escape (ljust s width) = true.
Proof.
  intros Hs. unfold ljust. apply no_escape_app; [exact Hs|].
  by apply no_escape_repeat.
Qed.

Lemma str_length_repeat s n :
  String.length (str_repeat s n) = n * String.length s.
Proof.
  induction n as [|n IH]; [reflexivity|].
  cbn [str_repeat]. rewrite str_length_app, IH. lia.
Qed.

Lemma str_length_ljust s width :
  String.length (ljust s width) = String.length s `max` width.
Proof. unfold ljust. rewrite str_length_app, str_length_repeat. simpl. lia. Qed.

(** The cells of the bar as they are seen. *)
Definition bar_cells (bar_fill : Z) : string :=
  str_repeat "#" (Z.to_nat (Z.max 0 (Z.min 10 bar_fill)))
  +:+ str_repeat "-" (10 - Z.to_nat (Z.max 0 (Z.min 10 bar_fill))).

Lemma strip_bar_part bar_fill fn invert rest :
  fn ∈ BAR_COLOR_FNS →
  _strip_ansi (bar_part bar_fill fn invert +:+ rest)
  = bar_cells bar_fill +:+ _strip_ansi rest.
Proof.
  intros Hfn. unfold bar_part, bar_cells, str_mul, BAR_FILLED, BAR_EMPTY,
    BAR_LENGTH.
  replace (Z.to_nat (10 - Z.max 0 (Z.min 10 bar_fill)))
    with (10 - Z.to_nat (Z.max 0 (Z.min 10 bar_fill))) by lia.
  generalize (Z.to_nat (Z.max 0 (Z.min 10 bar_fill))). intros n.
  rewrite !str_app_assoc.
  rewrite strip_sgr
    by (destruct fn as [fn|]; [by apply sgr_bar_color|apply sgr_GREEN]).
  rewrite strip_plain by (by apply no_escape_repeat).
  rewrite strip_sgr by apply sgr_DIM.
  rewrite strip_plain by (by apply no_escape_repeat).
  rewrite strip_sgr by apply sgr_RESET.
  reflexivity.
Qed.

(** What is seen of a metric line, that is the line without its colour
    codes: two spaces, the name padded to 15 characters, the value padded to
    18, ten bar cells, two spaces and the label.  The bar has ten cells for
    every fill, also a negative one or one above 10, and the label starts in
    column 47 when the name and the value fit their columns. *)
Theorem metric_line_visible (name value_str label : string) (bar_fill : Z)
    (verdict : option Verdict) (bar_color_fn : option (Z → bool → string))
    (invert : bool) :
  no_escape name = true →
  no_escape value_str = true →
  no_escape label = true →
  bar_color_fn ∈ BAR_COLOR_FNS →
  _strip_ansi
    (_metric_line name value_str bar_fill label verdict bar_color_fn invert)
  = "  " +:+ ljust name 15 +:+ ljust value_str 18 +:+ bar_cells bar_fill
    +:+ "  " +:+ label
  ∧ String.length (bar_cells bar_fill) = 10
  ∧ (String.length name ≤ 15 → String.length value_str ≤ 18 →
     String.length
       (_strip_ansi
          (_metric_line name value_str bar_fill label verdict bar_color_fn
             invert))
     = 47 + String.length label).
Proof.
  intros Hname Hvalue Hlabel Hfn.
  assert (String.length (bar_cells bar_fill) = 10) as Hcells.
  { unfold bar_cells. rewrite str_length_app, !str_length_repeat.
    cbn [String.length]. lia. }
  assert (_strip_ansi
            (_metric_line name value_str bar_fill label verdict bar_color_fn
               invert)
          = "  " +:+ ljust name 15 +:+ ljust value_str 18
            +:+ bar_cells bar_fill +:+ "  " +:+ label) as Hvisible.
  { unfold _metric_line. rewrite !str_app_assoc.
    rewrite (strip_plain "  ") by reflexivity.
    rewrite strip_sgr by apply sgr_WHITE.
    rewrite strip_plain by (by apply no_escape_ljust).
    rewrite strip_sgr by apply sgr_RESET.
    rewrite strip_sgr by apply sgr_BRIGHT_WHITE.
    rewrite strip_plain by (by apply no_escape_ljust).
    rewrite strip_sgr by apply sgr_RESET.
    rewrite strip_bar_part by exact Hfn.
    rewrite (strip_plain "  ") by reflexivity.
    rewrite strip_sgr
      by (destruct verdict; [apply sgr_VERDICT_COLORS|apply sgr_WHITE]).
    rewrite strip_plain by exact Hlabel.
    rewrite strip_sgr_end by apply sgr_RESET.
    by rewrite str_app_nil_r. }
  split; [exact Hvisible|]. split; [exact Hcells|].
  intros Hn Hv. rewrite Hvisible.
  rewrite !str_length_app, !str_length_ljust, Hcells. cbn [String.length]. lia.
Qed.

Lemma metric_line_visible_witness :
  _strip_ansi
    (_metric_line "Wave Height" "0.4 m" (-3) "Calm" (Some YES)
       (Some _wave_bar_color) true)
  = "  " +:+ ljust "Wave Height" 15 +:+ ljust "0.4 m" 18 +:+ bar_cells (-3)
    +:+ "  " +:+ "Calm".
Proof.
  destruct (metric_line_visible "Wave Height" "0.4 m" "Calm" (-3) (Some YES)
              (Some _wave_bar_color) true) as [Hvisible _];
    [reflexivity|reflexivity|reflexivity| |exact Hvisible].
  unfold BAR_COLOR_FNS.
  apply list_elem_of_further, list_elem_of_further, list_elem_of_here.
Defined.

(** Inside [_metric_line] the last branch of [_uv_bar_color] is never taken:
    the branch exists for a fill above 10, but the fill is clamped to 10
    before the colour is chosen, so that the bar of the UV index is never
    bright red. *)
Theorem uv_bar_never_bright_red (bar_fill : Z) (invert : bool) :
  (∀ fill, (10 < fill)%Z → _uv_bar_color fill invert = BRIGHT_RED)
  ∧ ∃ color,
      color ∈ [BRIGHT_GREEN; GREEN; YELLOW; RED]
      ∧ bar_part bar_fill (Some _uv_bar_color) invert
        = color +:+ str_mul BAR_FILLED (Z.max 0 (Z.min BAR_LENGTH bar_fill))
          +:+ DIM
          +:+ str_mul BAR_EMPTY
                (BAR_LENGTH - Z.max 0 (Z.min BAR_LENGTH bar_fill))
          +:+ RESET.
Proof.
  split.
  { intros fill Hfill. unfold _uv_bar_color.
    repeat (case_match; [lia|]). reflexivity. }
  unfold bar_part, _uv_bar_color, BAR_LENGTH.
  generalize (Z.max 0 (Z.min 10 bar_fill))
    (Z.le_max_l 0 (Z.min 10 bar_fill))
    (Z.max_lub 0 (Z.min 10 bar_fill) 10 ltac:(lia) (Z.le_min_l 10 bar_fill)).
  intros n Hlo Hhi.
  repeat case_match; try lia; eexists; (split; [|reflexivity]);
    repeat first [ apply list_elem_of_here | apply list_elem_of_further ].
Qed.

End Renderer.
